(** * TR-13 runway survey calculator: station grid, tolerance lookup,
    deviation evaluation and diagram scaling (app.js)

  JavaScript numbers are IEEE-754 binary64 values.  They are embedded as
  Rocq's primitive [float], whose operations are the same binary64
  operations, so every definition below can be run on the literals that
  appear in app.js.  General statements are proved through the [spec_float]
  specification of the primitive operations. *)

From Stdlib Require Import ZArith List Bool Lia String Ascii Floats.
From Stdlib Require Import Sorting.Sorted Sorting.Permutation.
Import ListNotations.

Set Warnings "-inexact-float".

Local Open Scope float_scope.

(** ** JavaScript number primitives *)

Module JS.

Definition number := float.

(** [Number.isFinite(n)] and [Number.isNaN(n)]. *)
Definition isFinite (n : number) : bool := is_finite n.
Definition isNaN (n : number) : bool := is_nan n.

(** [Math.abs]. *)
Definition Math_abs (x : number) : number := abs x.

(** [a > b] and [a >= b] are the mirrored IEEE comparisons. *)
Definition gtb (a b : number) : bool := b <? a.
Definition geb (a b : number) : bool := b <=? a.

(** Two-argument step of [Math.max]: NaN is contagious and [+0] is larger
    than [-0]. *)
Definition max2 (a b : number) : number :=
  if is_nan a || is_nan b then nan
  else if a <? b then b
  else if b <? a then a
  else if get_sign a then b else a.

(** Two-argument step of [Math.min]: NaN is contagious and [-0] is smaller
    than [+0]. *)
Definition min2 (a b : number) : number :=
  if is_nan a || is_nan b then nan
  else if a <? b then a
  else if b <? a then b
  else if get_sign a then a else b.

(** [Math.max(...xs)] starts from [-Infinity], [Math.min(...xs)] from
    [+Infinity]. *)
Definition Math_max (xs : list number) : number :=
  fold_left max2 xs neg_infinity.
Definition Math_min (xs : list number) : number :=
  fold_left min2 xs infinity.

(** [Math.ceil]: a number without fraction bits, an infinity or NaN is
    returned as it is; otherwise the magnitude is cut to its whole part,
    which is raised by one for a positive number, and the sign is kept, so
    that [Math.ceil(-0.3)] is [-0]. *)
Definition Math_ceil (x : number) : number :=
  match Prim2SF x with
  | S754_finite sign m e =>
      if (0 <=? e)%Z then x
      else
        let whole := Z.shiftr (Zpos m) (- e) in
        let exact := Z.eqb (Z.shiftl whole (- e)) (Zpos m) in
        if sign then - SF2Prim (binary_normalize prec emax whole 0 false)
        else SF2Prim (binary_normalize prec emax
                        (if exact then whole else (whole + 1)%Z) 0 false)
  | _ => x
  end.

(** Truthiness of a number: [0], [-0] and [NaN] are falsy. *)
Definition truthy (x : number) : bool := negb ((x =? 0) || is_nan x).

(** [x || d] on numbers. *)
Definition or_else (x d : number) : number := if truthy x then x else d.

End JS.

(** ** Utilities *)

Import JS.

Local Open Scope string_scope.
Local Open Scope float_scope.

(** [toNum(v, fallback)] after the conversion [Number(v)]: the argument is
    the converted number. *)
Definition toNum (n : number) (fallback : number) : number :=
  if isFinite n then n else fallback.

(** The inch mark that ends every fraction label. *)
Definition inch_mark : string := String (ascii_of_nat 34) EmptyString.

Record frac := { val : number; s : string }.

Definition frac0 : frac := {| val := 0.0; s := "0" ++ inch_mark |}.

Definition fracMap : list frac :=
  [ frac0;
    {| val := 0.0625; s := "1/16" ++ inch_mark |};
    {| val := 0.125; s := "1/8" ++ inch_mark |};
    {| val := 0.1875; s := "3/16" ++ inch_mark |};
    {| val := 0.25; s := "1/4" ++ inch_mark |};
    {| val := 0.3125; s := "5/16" ++ inch_mark |};
    {| val := 0.375; s := "3/8" ++ inch_mark |};
    {| val := 0.4375; s := "7/16" ++ inch_mark |};
    {| val := 0.5; s := "1/2" ++ inch_mark |};
    {| val := 0.625; s := "5/8" ++ inch_mark |};
    {| val := 0.75; s := "3/4" ++ inch_mark |};
    {| val := 0.875; s := "7/8" ++ inch_mark |};
    {| val := 1.0; s := "1" ++ inch_mark |};
    {| val := 1.125; s := "1 1/8" ++ inch_mark |};
    {| val := 1.25; s := "1 1/4" ++ inch_mark |};
    {| val := 1.5; s := "1 1/2" ++ inch_mark |};
    {| val := 2.0; s := "2" ++ inch_mark |};
    {| val := 3.0; s := "3" ++ inch_mark |} ].

(** Distance of a table entry to the magnitude [a]:
    [Math.abs(f.val - abs)]. *)
Definition frac_dist (a : number) (f : frac) : number := abs (val f - a).

(** Body of the [for (const f of fracMap)] loop. *)
Definition nearest_step (a : number) (best f : frac) : frac :=
  if frac_dist a f <? frac_dist a best then f else best.

Definition nearestFraction (a : number) : frac :=
  fold_left (nearest_step a) fracMap frac0.

Definition nearestFractionStringInches (valueIn : number) : string :=
  s (nearestFraction (abs (toNum valueIn 0))).

(** ** Layout generation: the station grid of one span *)

(** [stationOffsets(designDistanceFt, stationDistanceFt)].  The JavaScript
    loop has no bound of its own, so the model takes a number of iterations
    it may spend; [None] means the loop was still running when they were
    used up. *)
Fixpoint stationOffsets_from (fuel : nat) (offset designDistanceFt
                                stationDistanceFt : number)
  : option (list number) :=
  match fuel with
  | O => None
  | S fuel' =>
      if offset <? designDistanceFt then
        option_map (cons offset)
          (stationOffsets_from fuel' (offset + stationDistanceFt)
             designDistanceFt stationDistanceFt)
      else Some []
  end.

Definition stationOffsets (fuel : nat) (designDistanceFt
                             stationDistanceFt : number)
  : option (list number) :=
  stationOffsets_from fuel 0 designDistanceFt stationDistanceFt.

(** The [k]-th value of a loop variable that starts at [start] and is
    advanced by [ft += step]. *)
Fixpoint running_station (start step : number) (k : nat) : number :=
  match k with
  | O => start
  | S k' => running_station start step k' + step
  end.


(** What a form-building entry point hands back: the thing it built, or the
    status message it showed before returning early. *)
Inductive built (A : Type) : Type :=
| Built (a : A)
| Rejected (message : string).
Arguments Built {A} a.
Arguments Rejected {A} message.

(** Guard at the head of [buildLayout]: [columns < 2 ||
    measuredStationDistance <= 0]. *)
Definition buildLayout_rejects (columns measuredStationDistance : number)
  : bool :=
  (columns <? 2) || (measuredStationDistance <=? 0).

Definition buildLayout_message : string :=
  "Columns per side must be 2+ and measured station distance must be greater than 0.".

(** The loop [for (let segment = 1; segment < columns; segment += 1)]: the
    segment numbers it visits.  Like the grid loop it has no bound of its
    own. *)
Fixpoint segments_from (fuel : nat) (segment columns : number)
  : option (list number) :=
  match fuel with
  | O => None
  | S fuel' =>
      if segment <? columns then
        option_map (cons segment) (segments_from fuel' (segment + 1) columns)
      else Some []
  end.

Definition segments (fuel : nat) (columns : number) : option (list number) :=
  segments_from fuel 1 columns.

(** The station grids of a list of design distances, one call of
    [stationOffsets] each. *)
Fixpoint layout_segments (fuel : nat) (measuredStationDistance : number)
  (designDistances : list number) : option (list (list number)) :=
  match designDistances with
  | [] => Some []
  | d :: rest =>
      match stationOffsets fuel d measuredStationDistance with
      | None => None
      | Some offs =>
          option_map (cons offs)
            (layout_segments fuel measuredStationDistance rest)
      end
  end.

(** What [buildLayout] puts into the emptied container, as far as the
    station grid decides it: the segments that get their two distance fields
    (the same for both sides), and the offsets that get an elevation field,
    per segment, for side A, for side B and for the cross-level block. *)
Record layout := {
  lay_segments : list number;
  lay_sideA : list (list number);
  lay_sideB : list (list number);
  lay_cross : list (list number)
}.

(** The value every design-distance field is created with. *)
Definition design_distance_default : number := 60.

(** [buildLayout].  The container is emptied first and every design-distance
    field is created anew with the value 60 before it is read back with
    [toNum(..., 60)], so each segment is laid out for the design distance 60;
    the cross-level block takes [Math.min] of the two sides. *)
Definition buildLayout (fuel : nat) (columnsRaw spacingRaw : number)
  : option (built layout) :=
  let columns := toNum columnsRaw 0 in
  let measuredStationDistance := toNum spacingRaw 0 in
  if buildLayout_rejects columns measuredStationDistance
  then Some (Rejected buildLayout_message)
  else
    match segments fuel columns with
    | None => None
    | Some segs =>
        let designDistance := toNum design_distance_default 60 in
        let side := layout_segments fuel measuredStationDistance
                      (map (fun _ => designDistance) segs) in
        let cross := layout_segments fuel measuredStationDistance
                       (map (fun _ => Math_min [designDistance; designDistance])
                            segs) in
        match side, cross with
        | Some sideOffsets, Some crossOffsets =>
            Some (Built {| lay_segments := segs;
                           lay_sideA := sideOffsets;
                           lay_sideB := sideOffsets;
                           lay_cross := crossOffsets |})
        | _, _ => None
        end
    end.

(** ** Survey station table *)

(** The integer [n] for which [n / 1000] is nearest to the magnitude of a
    finite number, the larger one on a tie, as [toFixed(3)] chooses it. *)
Definition scaled_round3 (f : spec_float) : Z :=
  match f with
  | S754_finite _ m e =>
      if (0 <=? e)%Z then (Zpos m * 2 ^ e * 1000)%Z
      else ((2 * (Zpos m * 1000) + 2 ^ (- e)) / 2 ^ (1 - e))%Z
  | _ => 0%Z
  end.

(** The number nearest to [n / 1000], which is what [Number] makes of a
    decimal string with three fraction digits. *)
Definition decimal3 (n : Z) : number :=
  match n with
  | Zpos p =>
      SF2Prim (SFdiv prec emax (S754_finite false p 0) (S754_finite false 1000 0))
  | _ => 0
  end.

(** [Number(x.toFixed(3))]: non-finite numbers and magnitudes from [1e21] on
    are printed in full and read back unchanged. *)
Definition toFixed3 (x : number) : number :=
  if isFinite x then
    if abs x <? 1e21 then
      let r := decimal3 (scaled_round3 (Prim2SF x)) in
      if x <? 0 then - r else r
    else x
  else x.

(** The loop [for (let ft = startFt; ft <= startFt + lenFt + 1e-9;
    ft += stepFt) stations.push(Number(ft.toFixed(3)))]. *)
Fixpoint surveyStations_from (fuel : nat) (ft limit stepFt : number)
  : option (list number) :=
  match fuel with
  | O => None
  | S fuel' =>
      if ft <=? limit then
        option_map (cons (toFixed3 ft))
          (surveyStations_from fuel' (ft + stepFt) limit stepFt)
      else Some []
  end.

Definition buildSurveyStations_message : string :=
  "Enter a valid runway length and station spacing.".

(** [buildSurveyStations]: the three inputs are read with [toNum], a
    non-positive length or spacing is answered with a status message, and
    otherwise the station column of the table is produced. *)
Definition buildSurveyStations (fuel : nat) (startRaw lenRaw stepRaw : number)
  : option (built (list number)) :=
  let startFt := toNum startRaw 0 in
  let lenFt := toNum lenRaw 0 in
  let stepFt := toNum stepRaw 10 in
  if (lenFt <=? 0) || (stepFt <=? 0)
  then Some (Rejected buildSurveyStations_message)
  else option_map Built
         (surveyStations_from fuel startFt (startFt + lenFt + 1e-9) stepFt).

(** ** Tolerance model *)

Record zone := { startFt : number; endFt : number; tolIn : number }.

(** The predicate handed to [zones.find]:
    [ft >= z.startFt && ft <= z.endFt]. *)
Definition in_zone (ft : number) (z : zone) : bool :=
  geb ft (startFt z) && (ft <=? endFt z).

(** [tolAt(ft, zones, fallbackTol)]; [None] is the [null] that [parseZones]
    returns when no line parsed. *)
Definition tolAt (ft : number) (zones : option (list zone))
  (fallbackTol : number) : number :=
  match zones with
  | None => fallbackTol
  | Some zs =>
      match find (in_zone ft) zs with
      | Some z => tolIn z
      | None => fallbackTol
      end
  end.

(** The [tolWindow] argument of [buildChartSvg]. *)
Inductive tolWindow : Type :=
| ConstantWindow (tolIn : number)
| ZonesWindow (zones : list zone).

(** [tolAtStation(ft)] inside [buildChartSvg]: with no zone containing [ft]
    it answers [zones[zones.length - 1]?.tolIn ?? 0]. *)
Definition tolAtStation (w : option tolWindow) (ft : number) : number :=
  match w with
  | None => 0
  | Some (ConstantWindow t) => t
  | Some (ZonesWindow zs) =>
      match find (in_zone ft) zs with
      | Some z => tolIn z
      | None =>
          match last (map Some zs) None with
          | Some z => tolIn z
          | None => 0
          end
      end
  end.

(** ** Chart calculations *)

(** [seriesMaxAbs(y)]. *)
Definition seriesMaxAbs (y : list number) : number :=
  fold_left (fun m v => max2 m (abs v)) y 0.

(** Indexing an array of numbers where the result is used in arithmetic: a
    missing element is [undefined], which arithmetic turns into NaN. *)
Definition at_index (a : list number) (i : nat) : number := nth i a nan.

(** [Math.abs(stationFt[i] - stationFt[j])]. *)
Definition separation (stationFt : list number) (i j : nat) : number :=
  abs (at_index stationFt i - at_index stationFt j).

(** [Math.abs(dx - 20)]. *)
Definition diffTo20 (stationFt : list number) (i j : nat) : number :=
  abs (separation stationFt i j - 20).

(** State of the inner loop of [rateOfChangePer20ft]: [bestJ] ([None] for
    [-1]) and [bestDx]. *)
Definition scan_state : Type := (option nat * number)%type.

(** Body of the inner loop for one [j]. *)
Definition scan_step (stationFt : list number) (i : nat) (st : scan_state)
  (j : nat) : scan_state :=
  if Nat.eqb j i then st
  else if separation stationFt i j <=? 0 then st
  else if diffTo20 stationFt i j <? snd st then (Some j, diffTo20 stationFt i j)
  else st.

Definition scan (stationFt : list number) (n i : nat) : scan_state :=
  fold_left (scan_step stationFt i) (seq 0 n) (None, infinity).

(** [Math.abs(y[i] - y[j]) * (20 / Math.abs(stationFt[i] - stationFt[j]))]. *)
Definition per20 (stationFt y : list number) (i j : nat) : number :=
  abs (at_index y i - at_index y j) * (20 / separation stationFt i j).

(** The entry pushed for point [i]. *)
Definition rate_at (stationFt y : list number) (i : nat) : number :=
  match fst (scan stationFt (List.length y) i) with
  | None => 0
  | Some bestJ => per20 stationFt y i bestJ
  end.

(** [rateOfChangePer20ft(stationFt, y)]. *)
Definition rateOfChangePer20ft (stationFt y : list number) : list number :=
  map (rate_at stationFt y) (seq 0 (List.length y)).

(** The definitions evaluated on the literals of the specification. *)
Example stationOffsets_60_10 :
  stationOffsets 20 60 10 = Some [0; 10; 20; 30; 40; 50].
Proof. vm_compute. reflexivity. Qed.

Example buildLayout_3_20 :
  buildLayout 10 3 20
  = Some (Built {| lay_segments := [1; 2];
                   lay_sideA := [[0; 20; 40]; [0; 20; 40]];
                   lay_sideB := [[0; 20; 40]; [0; 20; 40]];
                   lay_cross := [[0; 20; 40]; [0; 20; 40]] |}).
Proof. vm_compute. reflexivity. Qed.

Example surveyStations_0_60_10 :
  buildSurveyStations 20 0 60 10 = Some (Built [0; 10; 20; 30; 40; 50; 60]).
Proof. vm_compute. reflexivity. Qed.

Example surveyStations_tenths :
  buildSurveyStations 20 0 1 0.1
  = Some (Built [0; 0.1; 0.2; 0.3; 0.4; 0.5; 0.6; 0.7; 0.8; 0.9; 1]).
Proof. vm_compute. reflexivity. Qed.

Example rate_spec_example :
  rateOfChangePer20ft [0; 10; 20] [0; 0; 0.3] = [0.3; 0; 0.3].
Proof. vm_compute. reflexivity. Qed.


(** ** Survey data and its evaluation *)

(** What the CSV import and the survey table hand to the evaluation.  A beam
    entry is [None] where the code stores [null]. *)
Record surveyData := {
  sd_stationFt : list number;
  sd_railN : list number;
  sd_railS : list number;
  sd_beamN : list (option number);
  sd_beamS : list (option number);
  sd_hasBeam : bool
}.

(** Rate of change of the survey table (adjacent stations only):
    [Math.abs(y[i] - y[i-1]) * (20 / Math.max(1e-6, st[i] - st[i-1]))], and
    [0] for the first row. *)
Definition adjacentRate (stationFt y : list number) (i : nat) : number :=
  match i with
  | O => 0
  | S p =>
      let dx := Math_max [1e-6; at_index stationFt i - at_index stationFt p] in
      abs (at_index y i - at_index y p) * (20 / dx)
  end.

(** [Math.abs(value) <= tol]: the magnitude check of one rail at one row. *)
Definition magPass (value tol : number) : bool := abs value <=? tol.

Record rowResult := {
  nMagPass : bool; sMagPass : bool;
  nRatePass : bool; sRatePass : bool;
  nOK : bool; sOK : bool
}.

(** Body of [trs.forEach((tr, i) => ...)] in [evaluateAndRenderSurvey]. *)
Definition evaluateRow (data : surveyData) (tol rateTol : number) (i : nat)
  : rowResult :=
  let nMag := magPass (at_index (sd_railN data) i) tol in
  let sMag := magPass (at_index (sd_railS data) i) tol in
  let nRate := adjacentRate (sd_stationFt data) (sd_railN data) i <=? rateTol in
  let sRate := adjacentRate (sd_stationFt data) (sd_railS data) i <=? rateTol in
  {| nMagPass := nMag; sMagPass := sMag;
     nRatePass := nRate; sRatePass := sRate;
     nOK := nMag && nRate; sOK := sMag && sRate |}.

Definition evaluateRows (data : surveyData) (tol rateTol : number)
  : list rowResult :=
  map (evaluateRow data tol rateTol) (seq 0 (List.length (sd_stationFt data))).

(** [passNAll] and [passSAll]. *)
Definition passAll (ok : rowResult -> bool) (rows : list rowResult) : bool :=
  fold_left (fun acc r => acc && ok r) rows true.

(** Half height of the straightness chart:
    [Math.max(seriesMaxAbs(railN), seriesMaxAbs(railS), tol) * 1.25 || 1]. *)
Definition yAbsMax (railN railS : list number) (tol : number) : number :=
  or_else (Math_max [seriesMaxAbs railN; seriesMaxAbs railS; tol] * 1.25) 1.

(** Half height of the eccentricity chart:
    [Math.max(maxDev, maxTol) * 1.25 || 1] with
    [maxTol = zones ? Math.max(...zones.map(z => z.tolIn)) : 0.75]. *)
Definition eccAbsMax (eccN : list number) (zones : option (list zone))
  : number :=
  let maxTol := match zones with
                | Some zs => Math_max (map tolIn zs)
                | None => 0.75
                end in
  or_else (Math_max [seriesMaxAbs eccN; maxTol] * 1.25) 1.

(** ** Rendered documents

    A rendered document is kept as the quantities that are drawn, not as SVG
    text: the placeholder with its message, the marks of the cross-level
    diagram, or the grid lines and paths of a chart.  Legend and titles
    carry no survey data beyond these and are left out. *)

Record pathPoint := { px : number; py : number }.

Record chartDrawing := {
  ch_xSpan : number;
  ch_xGrid : list number;
  ch_yGrid : list number;
  ch_upper : list number;
  ch_lower : list number;
  ch_tolerance : option (list pathPoint * list pathPoint);
  ch_series : list (list pathPoint);
  ch_highlight : list (pathPoint * number)
}.

Record stationMark := {
  sm_x : number;
  sm_fail : bool;
  sm_valueLabel : string;
  sm_correction : option string
}.

Record crossLevelDrawing := {
  cl_spanFt : number;
  cl_bracket : option (number * number);
  cl_marks : list stationMark
}.

Inductive svgDoc : Type :=
| EmptySvg (msg : string)
| ChartSvg (c : chartDrawing)
| CrossLevelSvg (c : crossLevelDrawing).

(** [emptySvg(msg)]. *)
Definition emptySvg (msg : string) : svgDoc := EmptySvg msg.

(** *** buildChartSvg *)

(** [xSpan = Math.max(1e-6, xMax - xMin)]. *)
Definition chart_xSpan (stationFt : list number) : number :=
  Math_max [1e-6; Math_max stationFt - Math_min stationFt].

(** [xToPx] with [margin.l = 70] and [plotW = 1100 - 70 - 40]. *)
Definition xToPx (stationFt : list number) (x : number) : number :=
  70 + ((x - Math_min stationFt) / chart_xSpan stationFt) * 990.

(** [yToPx] with [margin.t = 60] and [plotH = 360 - 60 - 50]. *)
Definition yToPx (yMin yMax y : number) : number :=
  60 + (1 - ((y - yMin) / (yMax - yMin))) * 250.

(** [polyPath] and [tolPath]: the point of index [i] pairs [stationFt[i]]
    with the [i]-th value. *)
Definition chartPath (stationFt : list number) (yMin yMax : number)
  (ys : list number) : list pathPoint :=
  map (fun iy => {| px := xToPx stationFt (at_index stationFt (fst iy));
                    py := yToPx yMin yMax (snd iy) |})
      (combine (seq 0 (List.length ys)) ys).

(** The scan for the largest magnitude of a series, first index on ties. *)
Definition maxAbsIndex (ys : list number) : nat * number :=
  fold_left (fun (st : nat * number) (iy : nat * number) =>
               if gtb (abs (snd iy)) (snd st) then (fst iy, abs (snd iy))
               else st)
            (combine (seq 0 (List.length ys)) ys) (O, 0).

(** The grid loops [for (let v = start; v <= limit; v += step)]: the values
    of the loop variable that get a grid line.  The loops have no bound of
    their own; [None] means the loop was still running when the iterations
    it may spend were used up. *)
Fixpoint gridLines (fuel : nat) (v limit step : number)
  : option (list number) :=
  match fuel with
  | O => None
  | S fuel' =>
      if v <=? limit then
        option_map (cons v) (gridLines fuel' (v + step) limit step)
      else Some []
  end.

(** X grid: every 50 ft from [Math.ceil(xMin / 50) * 50] up to [xMax]. *)
Definition xGrid (fuel : nat) (stationFt : list number) : option (list number) :=
  gridLines fuel (Math_ceil (Math_min stationFt / 50) * 50)
    (Math_max stationFt) 50.

(** Y grid: every 0.5 in from [Math.ceil(yMin / 0.5) * 0.5] up to [yMax]. *)
Definition yGrid (fuel : nat) (yMin yMax : number) : option (list number) :=
  gridLines fuel (Math_ceil (yMin / 0.5) * 0.5) yMax 0.5.

Definition buildChartSvg (fuel : nat) (stationFt : list number)
  (series : list (list number)) (yMin yMax : number)
  (w : option tolWindow) (highlightMax : bool) : option chartDrawing :=
  let upper := map (tolAtStation w) stationFt in
  let lower := map opp upper in
  match xGrid fuel stationFt with
  | None => None
  | Some xs =>
      match yGrid fuel yMin yMax with
      | None => None
      | Some ys =>
          Some
            {| ch_xSpan := chart_xSpan stationFt;
               ch_xGrid := xs;
               ch_yGrid := ys;
               ch_upper := upper;
               ch_lower := lower;
               ch_tolerance :=
                 match w with
                 | Some _ => Some (chartPath stationFt yMin yMax upper,
                                   chartPath stationFt yMin yMax lower)
                 | None => None
                 end;
               ch_series := map (chartPath stationFt yMin yMax) series;
               ch_highlight :=
                 if highlightMax then
                   map (fun ys =>
                          let '(maxIdx, maxAbs) := maxAbsIndex ys in
                          ({| px := xToPx stationFt (at_index stationFt maxIdx);
                              py := yToPx yMin yMax (at_index ys maxIdx) |},
                           maxAbs))
                       series
                 else [] |}
      end
  end.

(** *** buildStraightnessCharts and buildEccentricityChart (CSV flow) *)

Definition buildStraightnessCharts (fuel : nat) (sd : option surveyData)
  (tolRaw : number) : option svgDoc :=
  match sd with
  | None => Some (emptySvg "No survey data.")
  | Some d =>
      let tol := toNum tolRaw 0.375 in
      let yAbs := yAbsMax (sd_railN d) (sd_railS d) tol in
      option_map ChartSvg
        (buildChartSvg fuel (sd_stationFt d) [sd_railN d; sd_railS d]
           (- yAbs) yAbs (Some (ConstantWindow tol)) true)
  end.

(** [beamN.some(v => v !== null && Number.isFinite(v))]. *)
Definition hasBeamN (beamN : list (option number)) : bool :=
  existsb (fun v => match v with
                    | Some b => isFinite b
                    | None => false
                    end) beamN.

(** [toNum(beamN[i], 0)] on an entry that may be [null] or missing. *)
Definition beamAt (beamN : list (option number)) (i : nat) : number :=
  match nth i beamN None with
  | Some b => toNum b 0
  | None => 0
  end.

Definition eccentricity (railN : list number) (beamN : list (option number))
  : list number :=
  map (fun iv => snd iv - beamAt beamN (fst iv))
      (combine (seq 0 (List.length railN)) railN).

Definition buildEccentricityChart (fuel : nat) (sd : option surveyData)
  (zones : option (list zone)) : option svgDoc :=
  match sd with
  | None => Some (emptySvg "No survey data.")
  | Some d =>
      if negb (hasBeamN (sd_beamN d)) then
        Some (emptySvg "Eccentricity requires BeamN/BeamS. Provide BeamN & BeamS columns in CSV.")
      else
        let eccN := eccentricity (sd_railN d) (sd_beamN d) in
        let yAbs := eccAbsMax eccN zones in
        let w := match zones with
                 | Some zs => ZonesWindow zs
                 | None => ConstantWindow 0.75
                 end in
        option_map ChartSvg
          (buildChartSvg fuel (sd_stationFt d) [eccN] (- yAbs) yAbs
             (Some w) true)
  end.

(** *** buildCrossLevelDiagramSvgString *)

Module Pt.
Record t := { stationFt : number; valueIn : number }.
End Pt.

(** [collectCrossLevelSeries]: the cross-level readings of all segments on
    one axis.  [designA] and [designB] give what [Number] makes of the two
    design-distance fields of a segment and [cross] what it makes of the
    cross-level field of a segment and offset (NaN for a field that does not
    exist).  The spacing is read with [toNum(..., 10)] and is not checked.  The
    points also carry the segment number, the local offset and a label, which
    nothing reads; they are left out. *)
Fixpoint collect_segments (fuel : nat) (measuredStationDistance : number)
  (designA designB : number -> number) (cross : number -> number -> number)
  (segs : list number) (cumulativeFt : number) : option (list Pt.t) :=
  match segs with
  | [] => Some []
  | segment :: rest =>
      let sideADesignDistance := toNum (designA segment) 0 in
      let sideBDesignDistance := toNum (designB segment) 0 in
      let segmentLenFt := Math_min [sideADesignDistance; sideBDesignDistance] in
      match stationOffsets fuel segmentLenFt measuredStationDistance with
      | None => None
      | Some offsets =>
          let pts :=
            map (fun offsetFt =>
                   {| Pt.stationFt := cumulativeFt + offsetFt;
                      Pt.valueIn := toNum (cross segment offsetFt) 0 |})
                offsets in
          option_map (app pts)
            (collect_segments fuel measuredStationDistance designA designB
               cross rest (cumulativeFt + segmentLenFt))
      end
  end.

Definition collectCrossLevelSeries (fuel : nat) (columnsRaw spacingRaw : number)
  (designA designB : number -> number) (cross : number -> number -> number)
  : option (list Pt.t) :=
  let columns := toNum columnsRaw 0 in
  let measuredStationDistance := toNum spacingRaw 10 in
  match segments fuel columns with
  | None => None
  | Some segs =>
      collect_segments fuel measuredStationDistance designA designB cross
        segs 0
  end.

(** [spanFt = Math.max(1, maxFt - minFt)]. *)
Definition diagram_spanFt (pts : list Pt.t) : number :=
  Math_max [1; Math_max (map Pt.stationFt pts) - Math_min (map Pt.stationFt pts)].

(** [xForFt] with [marginL = 110] and [plotW = 1100 - 110 - 50]. *)
Definition xForFt (pts : list Pt.t) (ft : number) : number :=
  110 + ((ft - Math_min (map Pt.stationFt pts)) / diagram_spanFt pts) * 940.

(** [Math.abs(p.valueIn) > tol]. *)
Definition crossLevelFail (tol : number) (p : Pt.t) : bool :=
  gtb (abs (Pt.valueIn p)) tol.

(** [correctionText(v)]: empty when nothing is required. *)
Definition correctionText (tol v : number) : option string :=
  let req := Math_max [0; abs v - tol] in
  if gtb req 0
  then Some (("V+" ++ nearestFractionStringInches req)%string)
  else None.

(** [fails.indexOf(true)] and [fails.lastIndexOf(true)]. *)
Fixpoint indexOf_true (fails : list bool) (i : nat) : option nat :=
  match fails with
  | [] => None
  | b :: rest => if b then Some i else indexOf_true rest (S i)
  end.

Fixpoint lastIndexOf_true (fails : list bool) (i : nat) (found : option nat)
  : option nat :=
  match fails with
  | [] => found
  | b :: rest => lastIndexOf_true rest (S i) (if b then Some i else found)
  end.

Definition stationFt_at (pts : list Pt.t) (i : nat) : number :=
  at_index (map Pt.stationFt pts) i.

Definition buildCrossLevelDiagramSvgString (tolRaw : number)
  (pts : list Pt.t) : svgDoc :=
  let tol := toNum tolRaw 0.375 in
  match pts with
  | [] => emptySvg "No cross-level data available."
  | _ :: _ =>
      let fails := map (crossLevelFail tol) pts in
      CrossLevelSvg
        {| cl_spanFt := diagram_spanFt pts;
           cl_bracket :=
             match indexOf_true fails O, lastIndexOf_true fails O None with
             | Some firstFailIdx, Some lastFailIdx =>
                 Some (xForFt pts (stationFt_at pts firstFailIdx),
                       xForFt pts (stationFt_at pts lastFailIdx))
             | _, _ => None
             end;
           cl_marks :=
             map (fun p =>
                    let isFail := crossLevelFail tol p in
                    {| sm_x := xForFt pts (Pt.stationFt p);
                       sm_fail := isFail;
                       sm_valueLabel :=
                         nearestFractionStringInches (abs (Pt.valueIn p));
                       sm_correction :=
                         if isFail then correctionText tol (Pt.valueIn p)
                         else None |})
                 pts |}
  end.

(** ** CSV import of survey data *)

(** [String(h).trim().toLowerCase()] on ASCII text. *)
Definition is_space (c : ascii) : bool :=
  let n := nat_of_ascii c in
  Nat.eqb n 32 || (Nat.leb 9 n && Nat.leb n 13).

Fixpoint trimStart (cs : list ascii) : list ascii :=
  match cs with
  | c :: rest => if is_space c then trimStart rest else cs
  | [] => []
  end.

Definition trim (h : string) : string :=
  string_of_list_ascii
    (rev (trimStart (rev (trimStart (list_ascii_of_string h))))).

Definition lower (c : ascii) : ascii :=
  let n := nat_of_ascii c in
  if Nat.leb 65 n && Nat.leb n 90 then ascii_of_nat (n + 32) else c.

Definition toLowerCase (h : string) : string :=
  string_of_list_ascii (map lower (list_ascii_of_string h)).

Definition normalizeHeader (h : string) : string := toLowerCase (trim h).

(** The object [idx] filled by [headers.forEach((h, i) => idx[normalizeHeader(h)] = i)]:
    a later column of the same name replaces an earlier one. *)
Fixpoint idx_from (key : string) (headers : list string) (i : nat)
  (found : option nat) : option nat :=
  match headers with
  | [] => found
  | h :: rest =>
      idx_from key rest (S i)
        (if String.eqb (normalizeHeader h) key then Some i else found)
  end.

Definition idx (headers : list string) (key : string) : option nat :=
  idx_from key headers O None.

(** A row of the import.  Each cell is given by what [Number] makes of its
    text (NaN when the text is not a number); a cell the row does not have is
    [undefined], which [Number] turns into NaN as well. *)
Definition csvRow : Type := list number.

Definition cell (r : csvRow) (i : nat) : number := nth i r nan.

(** One accepted row, before the arrays are sorted. *)
Record surveyRow := {
  row_st : number;
  row_rn : number;
  row_rs : number;
  row_bn : option number;
  row_bs : option number
}.

(** Body of [for (const r of rows)]: [None] is the [continue] taken when a
    required column is not a finite number. *)
Definition readRow (iSt iRn iRs : nat) (iBn iBs : option nat) (r : csvRow)
  : option surveyRow :=
  let st := toNum (cell r iSt) nan in
  let rn := toNum (cell r iRn) nan in
  let rs := toNum (cell r iRs) nan in
  if negb (isFinite st) || negb (isFinite rn) || negb (isFinite rs) then None
  else Some {| row_st := st; row_rn := rn; row_rs := rs;
               row_bn := option_map (fun i => toNum (cell r i) 0) iBn;
               row_bs := option_map (fun i => toNum (cell r i) 0) iBs |}.

Fixpoint readRows (iSt iRn iRs : nat) (iBn iBs : option nat)
  (rows : list csvRow) : list surveyRow :=
  match rows with
  | [] => []
  | r :: rest =>
      match readRow iSt iRn iRs iBn iBs r with
      | Some row => row :: readRows iSt iRn iRs iBn iBs rest
      | None => readRows iSt iRn iRs iBn iBs rest
      end
  end.

(** [Array.prototype.sort] with the comparator [(a, b) => a.v - b.v].  The
    language fixes the result for a consistent comparator: the elements in
    comparator order, equal ones in their original order.  That result is
    computed here by stable insertion; [b] goes in front of the first element
    whose comparison with it is positive. *)
Definition comparator (a b : number * nat) : number := fst a - fst b.

Fixpoint insert_by (b : number * nat) (sorted : list (number * nat))
  : list (number * nat) :=
  match sorted with
  | [] => [b]
  | a :: rest =>
      if gtb (comparator a b) 0 then b :: a :: rest
      else a :: insert_by b rest
  end.

Definition sort_by_station (l : list (number * nat)) : list (number * nat) :=
  fold_left (fun sorted b => insert_by b sorted) l [].

(** [order]: the row indices in sorted order. *)
Definition station_order (stationFt : list number) : list nat :=
  map snd (sort_by_station (combine stationFt (seq 0 (List.length stationFt)))).

(** [sorted(arr)]: [order.map(i => arr[i])]. *)
Definition sorted_by {A : Type} (order : list nat) (arr : list A) (d : A)
  : list A :=
  map (fun i => nth i arr d) order.

Inductive parseResult : Type :=
| ParseNull
| ParseError (message : string)
| Parsed (data : surveyData).

Definition missing_headers_message : string :=
  "CSV must include headers: StationFt, RailN, RailS (BeamN/BeamS optional).".

Definition too_few_rows_message : string :=
  "Not enough valid rows parsed. Need at least 2 stations.".

(** [parseSurveyDataFromTextarea] from the result of [parseCsv] on. *)
Definition parseSurveyData (headers : list string) (rows : list csvRow)
  : parseResult :=
  match headers, rows with
  | [], _ | _, [] => ParseNull
  | _, _ =>
      match idx headers "stationft", idx headers "railn", idx headers "rails" with
      | Some iSt, Some iRn, Some iRs =>
          let iBn := idx headers "beamn" in
          let iBs := idx headers "beams" in
          let accepted := readRows iSt iRn iRs iBn iBs rows in
          let stationFt := map row_st accepted in
          if Nat.ltb (List.length stationFt) 2 then ParseError too_few_rows_message
          else
            let order := station_order stationFt in
            Parsed {| sd_stationFt := sorted_by order stationFt nan;
                      sd_railN := sorted_by order (map row_rn accepted) nan;
                      sd_railS := sorted_by order (map row_rs accepted) nan;
                      sd_beamN := sorted_by order (map row_bn accepted) None;
                      sd_beamS := sorted_by order (map row_bs accepted) None;
                      sd_hasBeam :=
                        match iBn, iBs with
                        | Some _, Some _ => true
                        | _, _ => false
                        end |}
      | _, _, _ => ParseError missing_headers_message
      end
  end.

(** The status line of the survey section. *)
Inductive surveyStatus : Type :=
| StatusNoData
| StatusNotParsed
| StatusParseError (message : string)
| StatusParsed (stations : nat) (hasBeam : bool).

(** [renderSurveyCharts]: both charts are built, in this order, and the
    status line is written last: [No survey data parsed yet.] without survey
    data, otherwise [Survey parsed: n stations. Beam data present: ...]. *)
Record chartsRendered := {
  rc_straightness : svgDoc;
  rc_eccentricity : svgDoc;
  rc_status : surveyStatus
}.

Definition renderSurveyCharts (fuel : nat) (tolRaw : number)
  (zones : option (list zone)) (sd : option surveyData)
  : option chartsRendered :=
  match buildStraightnessCharts fuel sd tolRaw with
  | None => None
  | Some straightness =>
      match buildEccentricityChart fuel sd zones with
      | None => None
      | Some eccentricity =>
          Some {| rc_straightness := straightness;
                  rc_eccentricity := eccentricity;
                  rc_status :=
                    match sd with
                    | None => StatusNotParsed
                    | Some d => StatusParsed (List.length (sd_stationFt d))
                                             (sd_hasBeam d)
                    end |}
      end
  end.

(** How a call inside the handler's [try] ends: it returns, or it throws an
    error with a message.  A call that is still running is the [None] of an
    [option (outcome _)]. *)
Inductive outcome (A : Type) : Type :=
| Returned (a : A)
| Threw (message : string).
Arguments Returned {A} a.
Arguments Threw {A} message.

(** The click handler of the parse button: the global [surveyData] and the
    status line it leaves behind.  The whole body runs inside one [try]: the
    parse, and for parsed data the call [renderSurveyCharts()], given here by
    the way that call ends on the parsed data ([charts]).  The [catch] clears
    [surveyData] and shows the message, whichever of the two threw; a chart
    call that does not return leaves the handler running. *)
Record surveyState := {
  st_surveyData : option surveyData;
  st_status : surveyStatus
}.

Definition onParseSurvey
  (charts : surveyData -> option (outcome surveyStatus))
  (headers : list string) (rows : list csvRow) : option surveyState :=
  match parseSurveyData headers rows with
  | ParseNull => Some {| st_surveyData := None; st_status := StatusNoData |}
  | ParseError msg =>
      Some {| st_surveyData := None; st_status := StatusParseError msg |}
  | Parsed d =>
      match charts d with
      | None => None
      | Some (Returned status) =>
          Some {| st_surveyData := Some d; st_status := status |}
      | Some (Threw msg) =>
          Some {| st_surveyData := None; st_status := StatusParseError msg |}
      end
  end.

(** The chart call as the definitions above run it: it returns once both
    grids are drawn.  (An engine that cannot hold the document it is asked to
    build ends the call with a [RangeError] instead; that is a [Threw].) *)
Definition chartsCall (fuel : nat) (tolRaw : number)
  (zones : option (list zone)) (d : surveyData)
  : option (outcome surveyStatus) :=
  option_map (fun r => Returned (rc_status r))
    (renderSurveyCharts fuel tolRaw zones (Some d)).

(** The rows of parsed survey data, read back across its parallel arrays. *)
Definition rows_of (d : surveyData) : list surveyRow :=
  map (fun i => {| row_st := nth i (sd_stationFt d) nan;
                   row_rn := nth i (sd_railN d) nan;
                   row_rs := nth i (sd_railS d) nan;
                   row_bn := nth i (sd_beamN d) None;
                   row_bs := nth i (sd_beamS d) None |})
      (seq 0 (List.length (sd_stationFt d))).

Example parse_sorts :
  option_map (fun st => option_map sd_stationFt (st_surveyData st))
    (onParseSurvey (chartsCall 10 0.375 None)
       [" StationFt"; "RailN"; "RailS "]
       [[20; 0.1; 0.2]; [0; 0.3; 0.1]; [nan; 1; 1]; [10; 0; 0]])
  = Some (Some [0; 10; 20]).
Proof. vm_compute. reflexivity. Qed.

(** ** Text utilities *)

(** The replacement [escHtml] makes for one character of its argument. *)
Definition escChar (c : ascii) : string :=
  if Ascii.eqb c "&" then "&amp;"
  else if Ascii.eqb c "<" then "&lt;"
  else if Ascii.eqb c ">" then "&gt;"
  else if Ascii.eqb c (ascii_of_nat 34) then "&quot;"
  else String c EmptyString.

(** [escHtml(s)]: every ampersand, angle bracket and double quote is
    replaced by its entity. *)
Fixpoint escHtml (text : string) : string :=
  match text with
  | EmptyString => EmptyString
  | String c rest => (escChar c ++ escHtml rest)%string
  end.

(** [text.includes(key)]. *)
Fixpoint includes (text key : string) : bool :=
  if String.prefix key text then true
  else match text with
       | EmptyString => false
       | String _ rest => includes rest key
       end.

(** ** Suggestions for failed checks *)

(** A row of the results table, as far as the suggestions read it. *)
Record resultRow := { check : string; pass : bool }.

Definition suggest_distance : string :=
  "Verify column plumbness and anchor position; shim base plates or re-align support steel before final tightening.".
Definition suggest_baseline : string :=
  "Adjust rail seat elevation with shim packs/grout and re-shoot baseline elevations at the affected stations.".
Definition suggest_crossLevel : string :=
  "Correct cross-level by raising the low side or lowering the high side at the affected station(s). Re-check from the same datum on TOP OF RAIL.".
Definition suggest_span : string :=
  "Reconfirm runway gauge control lines and shift runway members to restore design span within tolerance.".
Definition suggest_straightness : string :=
  "Check beam alignment/stringline and adjust connection points to reduce centerline runout before remeasurement.".
Definition suggest_generic : string :=
  "Review this failed item with engineering, correct the geometry/elevation source, and remeasure before acceptance.".

(** [suggestionForRow(row)]. *)
Definition suggestionForRow (row : resultRow) : string :=
  let label := toLowerCase (check row) in
  if includes label "distance check" then suggest_distance
  else if includes label "baseline check" then suggest_baseline
  else if includes label "cross-level" then suggest_crossLevel
  else if includes label "span deviation" then suggest_span
  else if includes label "straightness" then suggest_straightness
  else suggest_generic.

Definition all_passed_item : string :=
  "<li>All checks passed. No adjustment actions are currently required.</li>".

(** One list item of [renderSuggestions]. *)
Definition suggestionItem (row : resultRow) : string :=
  ("<li><strong>" ++ escHtml (check row) ++ ":</strong> "
   ++ escHtml (suggestionForRow row) ++ "</li>")%string.

(** [renderSuggestions(rows)]: the markup stored in the suggestion list. *)
Definition renderSuggestions (rows : list resultRow) : string :=
  match filter (fun row => negb (pass row)) rows with
  | [] => all_passed_item
  | failures => String.concat EmptyString (map suggestionItem failures)
  end.

(** ** Zone table of the eccentricity tolerance *)

(** One line of the zone text, split at the commas: each part is given by
    what [Number] makes of it. *)
Definition zoneLine : Type := list number.

(** Body of the loop of [parseZones]: [None] is a skipped line. *)
Definition readZone (parts : zoneLine) : option zone :=
  match parts with
  | p0 :: p1 :: p2 :: _ =>
      let startFt := toNum p0 nan in
      let endFt := toNum p1 nan in
      let tolIn := toNum p2 nan in
      if isFinite startFt && isFinite endFt && isFinite tolIn
      then Some {| startFt := startFt; endFt := endFt; tolIn := tolIn |}
      else None
  | _ => None
  end.

Fixpoint readZones (lines : list zoneLine) : list zone :=
  match lines with
  | [] => []
  | parts :: rest =>
      match readZone parts with
      | Some z => z :: readZones rest
      | None => readZones rest
      end
  end.

(** [parseZones(text)] from the split lines on: [null] when no line gave a
    zone. *)
Definition parseZones (lines : list zoneLine) : option (list zone) :=
  match readZones lines with
  | [] => None
  | zs => Some zs
  end.

(** ** The later revision of the correction-amount formatter *)

(** [nearestFractionStringInches] of the runway-diagram revision, which reads
    its argument with [Number(valueIn) || 0]. *)
Definition nearestFractionStringInches_diagram (valueIn : number) : string :=
  s (nearestFraction (abs (or_else valueIn 0))).
(** ** Order facts about binary64 comparisons *)

Module FloatOrder.

Definition key : Type := (Z * Z * Z)%type.

(** A non-NaN [spec_float] is placed on a lexicographically ordered triple
    (class, exponent, mantissa); negative values mirror both components. *)
Definition fkey (f : spec_float) : key :=
  match f with
  | S754_zero _ => (0, 0, 0)%Z
  | S754_nan => (0, 0, 0)%Z
  | S754_infinity false => (2, 0, 0)%Z
  | S754_infinity true => (-2, 0, 0)%Z
  | S754_finite false m e => (1, e, Zpos m)%Z
  | S754_finite true m e => (-1, - e, Zneg m)%Z
  end.

Definition key_lt (a b : key) : Prop :=
  let '(a1, a2, a3) := a in
  let '(b1, b2, b3) := b in
  (a1 < b1 \/ (a1 = b1 /\ (a2 < b2 \/ (a2 = b2 /\ a3 < b3))))%Z.

Definition key_cmp (a b : key) : comparison :=
  let '(a1, a2, a3) := a in
  let '(b1, b2, b3) := b in
  match (a1 ?= b1)%Z with
  | Lt => Lt
  | Gt => Gt
  | Eq => match (a2 ?= b2)%Z with
          | Lt => Lt
          | Gt => Gt
          | Eq => (a3 ?= b3)%Z
          end
  end.

Definition not_nan (f : spec_float) : Prop := f <> S754_nan.

Lemma key_cmp_Lt a b : key_cmp a b = Lt <-> key_lt a b.
Proof.
  destruct a as [[a1 a2] a3], b as [[b1 b2] b3]; unfold key_cmp, key_lt.
  destruct (Z.compare_spec a1 b1); destruct (Z.compare_spec a2 b2);
    destruct (Z.compare_spec a3 b3); split; intro Hc; try discriminate;
    try reflexivity; lia.
Qed.

Lemma key_cmp_Gt a b : key_cmp a b = Gt <-> key_lt b a.
Proof.
  destruct a as [[a1 a2] a3], b as [[b1 b2] b3]; unfold key_cmp, key_lt.
  destruct (Z.compare_spec a1 b1); destruct (Z.compare_spec a2 b2);
    destruct (Z.compare_spec a3 b3); split; intro Hc; try discriminate;
    try reflexivity; lia.
Qed.

Lemma key_cmp_Eq a b : key_cmp a b = Eq <-> a = b.
Proof.
  destruct a as [[a1 a2] a3], b as [[b1 b2] b3]; unfold key_cmp.
  destruct (Z.compare_spec a1 b1); destruct (Z.compare_spec a2 b2);
    destruct (Z.compare_spec a3 b3); split; intro Hc; try discriminate;
    try reflexivity; try (inversion Hc; lia); subst; reflexivity.
Qed.

Lemma SFcompare_key f g :
  not_nan f -> not_nan g -> SFcompare f g = Some (key_cmp (fkey f) (fkey g)).
Proof.
  unfold not_nan; intros Hf Hg.
  destruct f as [s1 | s1 | | s1 m1 e1], g as [s2 | s2 | | s2 m2 e2];
    try congruence; try (destruct s1, s2; reflexivity);
    try (destruct s1; reflexivity); try (destruct s2; reflexivity).
  destruct s1, s2; cbn [SFcompare fkey key_cmp]; try reflexivity.
  change (-1 ?= -1)%Z with Eq; cbv iota.
  rewrite (Z.compare_opp e1 e2), (Z.compare_antisym e1 e2).
  destruct (e1 ?= e2)%Z; cbn; reflexivity.
Qed.

Definition key_eq (a b : key) : Prop :=
  let '(a1, a2, a3) := a in
  let '(b1, b2, b3) := b in
  (a1 = b1 /\ a2 = b2 /\ a3 = b3)%Z.

Lemma key_eq_iff a b : key_eq a b <-> a = b.
Proof.
  destruct a as [[a1 a2] a3], b as [[b1 b2] b3]; unfold key_eq; split.
  - intros (-> & -> & ->); reflexivity.
  - intros E; inversion E; auto.
Qed.

(** The key of a primitive float. *)
Definition K (x : float) : key := fkey (Prim2SF x).

Lemma SFcompare_refl f : not_nan f -> SFcompare f f = Some Eq.
Proof.
  intros Hf. rewrite (SFcompare_key f f Hf Hf). f_equal.
  apply key_cmp_Eq. reflexivity.
Qed.

Lemma is_nan_spec x : is_nan x = true <-> Prim2SF x = S754_nan.
Proof.
  unfold is_nan. rewrite eqb_spec. unfold SFeqb. split.
  - intros Hx. destruct (Prim2SF x) eqn:E; try reflexivity;
      rewrite SFcompare_refl in Hx by (unfold not_nan; congruence);
      discriminate.
  - intros ->. reflexivity.
Qed.

Lemma is_nan_false x : is_nan x = false <-> not_nan (Prim2SF x).
Proof.
  unfold not_nan. rewrite <- is_nan_spec.
  destruct (is_nan x); split; congruence.
Qed.

Lemma SFcompare_Some_nn f g c :
  SFcompare f g = Some c -> not_nan f /\ not_nan g.
Proof.
  unfold not_nan.
  destruct f as [? | ? | | ? ? ?], g as [? | ? | | ? ? ?]; cbn;
    intros E; split; congruence.
Qed.

Lemma ltb_nn x y : (x <? y) = true -> is_nan x = false /\ is_nan y = false.
Proof.
  rewrite ltb_spec, !is_nan_false. unfold SFltb.
  destruct (SFcompare (Prim2SF x) (Prim2SF y)) as [c |] eqn:E;
    [intros _; eapply SFcompare_Some_nn; eassumption | discriminate].
Qed.

Lemma leb_nn x y : (x <=? y) = true -> is_nan x = false /\ is_nan y = false.
Proof.
  rewrite leb_spec, !is_nan_false. unfold SFleb.
  destruct (SFcompare (Prim2SF x) (Prim2SF y)) as [c |] eqn:E;
    [intros _; eapply SFcompare_Some_nn; eassumption | discriminate].
Qed.

Lemma eqb_nn x y : (x =? y) = true -> is_nan x = false /\ is_nan y = false.
Proof.
  rewrite eqb_spec, !is_nan_false. unfold SFeqb.
  destruct (SFcompare (Prim2SF x) (Prim2SF y)) as [c |] eqn:E;
    [intros _; eapply SFcompare_Some_nn; eassumption | discriminate].
Qed.

Section Keys.
Variables x y : float.
Hypothesis Hx : is_nan x = false.
Hypothesis Hy : is_nan y = false.

Lemma compare_K : SFcompare (Prim2SF x) (Prim2SF y) = Some (key_cmp (K x) (K y)).
Proof. apply SFcompare_key; apply is_nan_false; assumption. Qed.

Lemma ltb_K : (x <? y) = true <-> key_lt (K x) (K y).
Proof.
  rewrite ltb_spec. unfold SFltb. rewrite compare_K, <- key_cmp_Lt.
  destruct (key_cmp (K x) (K y)); split; congruence.
Qed.

Lemma eqb_K : (x =? y) = true <-> key_eq (K x) (K y).
Proof.
  rewrite eqb_spec. unfold SFeqb. rewrite compare_K, key_eq_iff, <- key_cmp_Eq.
  destruct (key_cmp (K x) (K y)); split; congruence.
Qed.

Lemma leb_K : (x <=? y) = true <-> key_lt (K x) (K y) \/ key_eq (K x) (K y).
Proof.
  rewrite leb_spec. unfold SFleb.
  rewrite compare_K, key_eq_iff, <- key_cmp_Eq, <- key_cmp_Lt.
  destruct (key_cmp (K x) (K y)); split; intros; auto;
    try discriminate; destruct H; discriminate.
Qed.

Lemma ltb_false_K : (x <? y) = false <-> ~ key_lt (K x) (K y).
Proof. rewrite <- ltb_K. destruct (x <? y); split; congruence. Qed.

Lemma leb_false_K :
  (x <=? y) = false <-> ~ (key_lt (K x) (K y) \/ key_eq (K x) (K y)).
Proof. rewrite <- leb_K. destruct (x <=? y); split; congruence. Qed.

End Keys.

(** Unfolds the keys of the floats involved so that [lia] can finish. *)
Ltac key_lia :=
  unfold key_lt, key_eq in *;
  repeat match goal with
         | |- context [K ?x] =>
             let a := fresh "k" in let b := fresh "k" in let c := fresh "k" in
             destruct (K x) as [[a b] c]
         | H : context [K ?x] |- _ =>
             let a := fresh "k" in let b := fresh "k" in let c := fresh "k" in
             destruct (K x) as [[a b] c]
         end;
  lia.

Lemma ltb_trans x y z : (x <? y) = true -> (y <? z) = true -> (x <? z) = true.
Proof.
  intros H1 H2.
  destruct (ltb_nn _ _ H1) as [Hx Hy]; destruct (ltb_nn _ _ H2) as [_ Hz].
  rewrite ltb_K in * by assumption. key_lia.
Qed.

Lemma ltb_leb_trans x y z :
  (x <? y) = true -> (y <=? z) = true -> (x <? z) = true.
Proof.
  intros H1 H2.
  destruct (ltb_nn _ _ H1) as [Hx Hy]; destruct (leb_nn _ _ H2) as [_ Hz].
  rewrite ltb_K in * by assumption. rewrite leb_K in H2 by assumption.
  key_lia.
Qed.

Lemma leb_ltb_trans x y z :
  (x <=? y) = true -> (y <? z) = true -> (x <? z) = true.
Proof.
  intros H1 H2.
  destruct (leb_nn _ _ H1) as [Hx Hy]; destruct (ltb_nn _ _ H2) as [_ Hz].
  rewrite ltb_K in * by assumption. rewrite leb_K in H1 by assumption.
  key_lia.
Qed.

Lemma leb_trans x y z :
  (x <=? y) = true -> (y <=? z) = true -> (x <=? z) = true.
Proof.
  intros H1 H2.
  destruct (leb_nn _ _ H1) as [Hx Hy]; destruct (leb_nn _ _ H2) as [_ Hz].
  rewrite leb_K in * by assumption. key_lia.
Qed.

Lemma ltb_leb x y : (x <? y) = true -> (x <=? y) = true.
Proof.
  intros H1. destruct (ltb_nn _ _ H1) as [Hx Hy].
  rewrite ltb_K in H1 by assumption. rewrite leb_K by assumption. auto.
Qed.

Lemma ltb_irrefl x : (x <? x) = false.
Proof.
  destruct (x <? x) eqn:E; [| reflexivity].
  destruct (ltb_nn _ _ E) as [Hx _].
  rewrite ltb_K in E by assumption. key_lia.
Qed.

Lemma leb_refl x : is_nan x = false -> (x <=? x) = true.
Proof. intros Hx. rewrite leb_K by assumption. right. key_lia. Qed.

(** On numbers that are not NaN the order is total. *)
Lemma ltb_negb_leb x y :
  is_nan x = false -> is_nan y = false -> (x <? y) = negb (y <=? x).
Proof.
  intros Hx Hy.
  destruct (y <=? x) eqn:E; cbn.
  - rewrite leb_K in E by assumption. apply ltb_false_K; try assumption. key_lia.
  - rewrite leb_false_K in E by assumption. apply ltb_K; try assumption. key_lia.
Qed.

Lemma leb_negb_ltb x y :
  is_nan x = false -> is_nan y = false -> (x <=? y) = negb (y <? x).
Proof.
  intros Hx Hy. rewrite (ltb_negb_leb y x Hy Hx), negb_involutive. reflexivity.
Qed.

Lemma leb_ltb_eqb x y : (x <=? y) = (x <? y) || (x =? y).
Proof.
  rewrite leb_spec, ltb_spec, eqb_spec. unfold SFleb, SFltb, SFeqb.
  destruct (SFcompare (Prim2SF x) (Prim2SF y)) as [[ | | ] |]; reflexivity.
Qed.

Lemma leb_antisym_eqb x y :
  (x <=? y) = true -> (y <=? x) = true -> (x =? y) = true.
Proof.
  intros H1 H2. destruct (leb_nn _ _ H1) as [Hx Hy].
  rewrite leb_K in H1, H2 by assumption. apply eqb_K; try assumption. key_lia.
Qed.

End FloatOrder.

(** ** Shape of rounded results *)

Module FloatShape.

Import FloatOrder.

(** [carries s f]: [f] is a zero, a finite number or an infinity whose sign
    bit is [s]; in particular [f] is not NaN. *)
Definition carries (s : bool) (f : spec_float) : Prop :=
  match f with
  | S754_zero s' | S754_infinity s' | S754_finite s' _ _ => s' = s
  | S754_nan => False
  end.

(** Zeros and finite numbers, as [Number.isFinite] sees them. *)
Definition sf_finite (f : spec_float) : Prop :=
  match f with
  | S754_zero _ | S754_finite _ _ _ => True
  | _ => False
  end.

Lemma iter_pos_invariant {A} (P : A -> Prop) (f : A -> A) :
  (forall a, P a -> P (f a)) -> forall n a, P a -> P (iter_pos f n a).
Proof.
  intros Hf n; induction n as [n IH | n IH |]; intros a Ha; cbn; auto.
Qed.

Lemma shr_1_nonneg mrs : (0 <= shr_m mrs)%Z -> (0 <= shr_m (shr_1 mrs))%Z.
Proof.
  destruct mrs as [m r s]; cbn.
  destruct m as [| [p | p |] | p]; cbn; lia.
Qed.

Lemma shr_nonneg mrs e n :
  (0 <= shr_m mrs)%Z -> (0 <= shr_m (fst (shr mrs e n)))%Z.
Proof.
  intros Hm; destruct n; cbn; auto.
  apply iter_pos_invariant; auto using shr_1_nonneg.
Qed.

Lemma shr_fexp_nonneg m e l :
  (0 <= m)%Z -> (0 <= shr_m (fst (shr_fexp prec emax m e l)))%Z.
Proof.
  intros Hm; unfold shr_fexp; apply shr_nonneg.
  destruct l as [| [ | | ]]; assumption.
Qed.

Lemma round_nearest_even_nonneg m l :
  (0 <= m)%Z -> (0 <= round_nearest_even m l)%Z.
Proof.
  intros Hm; destruct l as [| [ | | ]]; cbn; try assumption; try lia.
  destruct (Z.even m); lia.
Qed.

Lemma binary_round_aux_carries sx mx ex lx :
  (0 <= mx)%Z -> carries sx (binary_round_aux prec emax sx mx ex lx).
Proof.
  intros Hm; unfold binary_round_aux.
  pose proof (shr_fexp_nonneg mx ex lx Hm) as H1.
  destruct (shr_fexp prec emax mx ex lx) as [mrs' e']; cbn [fst] in H1.
  pose proof (shr_fexp_nonneg _ e' loc_Exact
                (round_nearest_even_nonneg _ (loc_of_shr_record mrs') H1)) as H2.
  destruct (shr_fexp prec emax _ e' loc_Exact) as [mrs'' e'']; cbn [fst] in H2.
  destruct (shr_m mrs'') as [| m | m]; [reflexivity | | lia].
  destruct (e'' <=? emax - prec)%Z; reflexivity.
Qed.

Lemma binary_round_carries sx mx ex :
  carries sx (binary_round prec emax sx mx ex).
Proof.
  unfold binary_round.
  destruct (shl_align mx ex _) as [mz ez].
  apply binary_round_aux_carries; lia.
Qed.

Lemma binary_normalize_not_nan m e sz :
  not_nan (binary_normalize prec emax m e sz).
Proof.
  unfold not_nan; destruct m as [| m | m]; cbn; try discriminate; intros E.
  - pose proof (binary_round_carries false m e) as C. rewrite E in C. exact C.
  - pose proof (binary_round_carries true m e) as C. rewrite E in C. exact C.
Qed.

(** A result that is NaN or has a clear sign bit. *)
Definition pos_or_nan (f : spec_float) : Prop :=
  f = S754_nan \/ carries false f.

Lemma carries_not_nan s f : carries s f -> not_nan f.
Proof. unfold not_nan; intros C ->; exact C. Qed.

Lemma SFabs_pos_or_nan f : pos_or_nan (SFabs f).
Proof. destruct f; cbn; [right | right | left | right]; reflexivity. Qed.

Lemma SFmul_pos_or_nan f g :
  pos_or_nan f -> pos_or_nan g -> pos_or_nan (SFmul prec emax f g).
Proof.
  intros [-> | Cf] [-> | Cg]; try (left; destruct f; reflexivity);
    try (left; reflexivity).
  destruct f as [sf | sf | | sf mf ef], g as [sg | sg | | sg mg eg];
    cbn in Cf, Cg; subst; try contradiction; cbn;
    try (right; reflexivity); try (left; reflexivity).
  right. apply binary_round_aux_carries. lia.
Qed.

Lemma SFdiv_core_nonneg m1 e1 m2 e2 :
  (0 <= fst (fst (SFdiv_core_binary prec emax (Zpos m1) e1 (Zpos m2) e2)))%Z.
Proof.
  unfold SFdiv_core_binary.
  set (s := (_ - _ - _)%Z).
  set (m' := match s with Z0 => Zpos m1 | Zpos _ => Z.shiftl (Zpos m1) s
                     | Zneg _ => 0%Z end).
  assert (Hm' : (0 <= m')%Z).
  { subst m'; destruct s; try lia. apply Z.shiftl_nonneg; lia. }
  pose proof (Z.div_pos m' (Zpos m2) Hm' ltac:(lia)) as Hq.
  unfold Z.div in Hq.
  destruct (Z.div_eucl m' (Zpos m2)) as [q r]; exact Hq.
Qed.

Lemma SFdiv_pos_or_nan f g :
  pos_or_nan f -> pos_or_nan g -> pos_or_nan (SFdiv prec emax f g).
Proof.
  intros [-> | Cf] [-> | Cg]; try (left; destruct f; reflexivity);
    try (left; reflexivity).
  destruct f as [sf | sf | | sf mf ef], g as [sg | sg | | sg mg eg];
    cbn in Cf, Cg; subst; try contradiction; cbn [SFdiv xorb];
    try (right; reflexivity); try (left; reflexivity).
  pose proof (SFdiv_core_nonneg mf ef mg eg) as Hq.
  destruct (SFdiv_core_binary prec emax (Zpos mf) ef (Zpos mg) eg)
    as [[mz ez] lz]; cbn [fst] in Hq.
  right. apply binary_round_aux_carries. exact Hq.
Qed.

Lemma SFsub_finite_not_nan f g :
  sf_finite f -> sf_finite g -> not_nan (SFsub prec emax f g).
Proof.
  destruct f as [sf | sf | | sf mf ef], g as [sg | sg | | sg mg eg];
    cbn [sf_finite]; try contradiction; intros _ _; cbn [SFsub];
    try (unfold not_nan; discriminate).
  - destruct sf, sg; unfold not_nan; discriminate.
  - apply binary_normalize_not_nan.
Qed.

Lemma SFadd_finite_not_nan f g :
  sf_finite f -> sf_finite g -> not_nan (SFadd prec emax f g).
Proof.
  destruct f as [sf | sf | | sf mf ef], g as [sg | sg | | sg mg eg];
    cbn [sf_finite]; try contradiction; intros _ _; cbn [SFadd];
    try (unfold not_nan; discriminate).
  - destruct sf, sg; unfold not_nan; discriminate.
  - apply binary_normalize_not_nan.
Qed.

(** *** The same facts on primitive floats *)

Lemma Prim2SF_infinity : Prim2SF infinity = S754_infinity false.
Proof. reflexivity. Qed.

Lemma Prim2SF_zero : Prim2SF 0 = S754_zero false.
Proof. reflexivity. Qed.

Lemma is_finite_spec x : is_finite x = true <-> sf_finite (Prim2SF x).
Proof.
  unfold is_finite, is_infinity.
  rewrite eqb_spec, abs_spec, Prim2SF_infinity.
  destruct (is_nan x) eqn:N.
  - apply is_nan_spec in N. rewrite N. cbn. split; [discriminate | tauto].
  - apply is_nan_false in N. unfold not_nan in N.
    destruct (Prim2SF x) as [s | s | | s m e]; cbn; try tauto;
      split; try discriminate; try tauto.
Qed.

Lemma is_finite_not_nan x : is_finite x = true -> is_nan x = false.
Proof.
  unfold is_finite. destruct (is_nan x); [discriminate | reflexivity].
Qed.

Lemma sub_finite_not_nan x y :
  is_finite x = true -> is_finite y = true -> is_nan (x - y) = false.
Proof.
  intros Hx Hy. apply is_nan_false. rewrite sub_spec.
  apply SFsub_finite_not_nan; apply is_finite_spec; assumption.
Qed.

Lemma add_finite_not_nan x y :
  is_finite x = true -> is_finite y = true -> is_nan (x + y) = false.
Proof.
  intros Hx Hy. apply is_nan_false. rewrite add_spec.
  apply SFadd_finite_not_nan; apply is_finite_spec; assumption.
Qed.

Lemma is_nan_abs x : is_nan (abs x) = is_nan x.
Proof.
  destruct (is_nan x) eqn:N.
  - apply is_nan_spec. rewrite abs_spec. apply is_nan_spec in N.
    rewrite N. reflexivity.
  - apply is_nan_false. rewrite abs_spec. apply is_nan_false in N.
    unfold not_nan in *. destruct (Prim2SF x); cbn; congruence.
Qed.

(** A clear sign bit means the number is at least zero. *)
Lemma carries_false_leb r :
  carries false (Prim2SF r) -> (0 <=? r) = true.
Proof.
  intros C. rewrite leb_spec, Prim2SF_zero. unfold SFleb.
  destruct (Prim2SF r) as [s | s | | s m e]; cbn in C; subst;
    try contradiction; reflexivity.
Qed.

Lemma pos_or_nan_cases r :
  pos_or_nan (Prim2SF r) -> is_nan r = true \/ (0 <=? r) = true.
Proof.
  intros [N | C]; [left; apply is_nan_spec; exact N
                  | right; apply carries_false_leb; exact C].
Qed.

Lemma pos_or_nan_not_neg r : pos_or_nan (Prim2SF r) -> (r <? 0) = false.
Proof.
  intros P. destruct (pos_or_nan_cases r P) as [N | L].
  - destruct (r <? 0) eqn:E; [| reflexivity].
    apply ltb_nn in E. destruct E; congruence.
  - destruct (leb_nn _ _ L) as [H0 Hr].
    rewrite (ltb_negb_leb r 0 Hr H0), L. reflexivity.
Qed.

Lemma abs_pos_or_nan x : pos_or_nan (Prim2SF (abs x)).
Proof. rewrite abs_spec. apply SFabs_pos_or_nan. Qed.

Lemma mul_pos_or_nan x y :
  pos_or_nan (Prim2SF x) -> pos_or_nan (Prim2SF y) ->
  pos_or_nan (Prim2SF (x * y)).
Proof. rewrite mul_spec. apply SFmul_pos_or_nan. Qed.

Lemma div_pos_or_nan x y :
  pos_or_nan (Prim2SF x) -> pos_or_nan (Prim2SF y) ->
  pos_or_nan (Prim2SF (x / y)).
Proof. rewrite div_spec. apply SFdiv_pos_or_nan. Qed.

(** Two numbers that compare equal are at separation zero, or (two equal
    infinities) at a NaN separation. *)
Lemma sub_eqb x y :
  (x =? y) = true ->
  (exists s, Prim2SF (x - y) = S754_zero s) \/ Prim2SF (x - y) = S754_nan.
Proof.
  rewrite eqb_spec, sub_spec. unfold SFeqb, SF64sub.
  destruct (Prim2SF x) as [sx | sx | | sx mx ex],
           (Prim2SF y) as [sy | sy | | sy my ey]; cbn [SFcompare SFsub];
    try discriminate; try (destruct sx; discriminate);
    try (destruct sy; discriminate).
  - intros _. left. destruct sx, sy; cbn; eauto.
  - destruct sx, sy; try discriminate; auto.
  - destruct sx, sy; try discriminate;
      destruct (Z.compare_spec ex ey) as [-> | |]; try discriminate;
      change (Pos.compare_cont Eq mx my) with (Pos.compare mx my);
      destruct (Pos.compare_spec mx my) as [-> | |]; try discriminate;
      intros _; left; exists false; rewrite Z.min_id; unfold shl_align;
      rewrite ?Z.sub_diag; cbn [fst cond_Zopp]; rewrite ?Z.sub_diag;
      reflexivity.
Qed.

End FloatShape.


(** ** Sign of a difference of finite numbers *)

Module FloatSub.

Import FloatOrder FloatShape.

Local Open Scope Z_scope.

Lemma digits2_pos_bounds m :
  2 ^ (Zpos (digits2_pos m) - 1) <= Zpos m < 2 ^ Zpos (digits2_pos m).
Proof.
  induction m as [m IH | m IH |]; cbn [digits2_pos].
  - rewrite Pos2Z.inj_succ, Z.pow_succ_r by lia.
    replace (Z.succ (Zpos (digits2_pos m)) - 1)
      with (Z.succ (Zpos (digits2_pos m) - 1)) by lia.
    rewrite Z.pow_succ_r by lia. lia.
  - rewrite Pos2Z.inj_succ, Z.pow_succ_r by lia.
    replace (Z.succ (Zpos (digits2_pos m)) - 1)
      with (Z.succ (Zpos (digits2_pos m) - 1)) by lia.
    rewrite Z.pow_succ_r by lia. lia.
  - cbn. lia.
Qed.

(** What validity says about the mantissa and exponent of a finite number. *)
Lemma canonical_facts m e :
  canonical_mantissa prec emax m e = true ->
  -1074 <= e /\ Zpos (digits2_pos m) <= 53 /\
  (Zpos (digits2_pos m) = 53 \/ e = -1074).
Proof.
  unfold canonical_mantissa, fexp, SpecFloat.emin, prec, emax.
  intros H. apply Z.eqb_eq in H. lia.
Qed.

Lemma iter_xO_value m d : Zpos (Pos.iter xO m d) = Zpos m * 2 ^ Zpos d.
Proof.
  induction d as [| d IH] using Pos.peano_ind.
  - cbn. lia.
  - rewrite Pos.iter_succ, Pos2Z.inj_succ, Z.pow_succ_r by lia.
    rewrite Pos2Z.inj_xO, IH. lia.
Qed.

(** Aligning a mantissa to a smaller exponent multiplies it by the power of
    two in between. *)
Lemma shl_align_value m e e' :
  e' <= e -> Zpos (fst (shl_align m e e')) = Zpos m * 2 ^ (e - e').
Proof.
  intros H. unfold shl_align.
  destruct (e' - e) as [| p | p] eqn:E; cbn [fst].
  - replace (e - e') with 0 by lia. lia.
  - lia.
  - rewrite iter_xO_value. replace (e - e') with (Zpos p) by lia. reflexivity.
Qed.

Lemma shl_align_exponent m e e' :
  -1074 <= e -> -1074 <= e' -> -1074 <= snd (shl_align m e e').
Proof.
  intros He He'. unfold shl_align. destruct (e' - e); cbn [snd]; assumption.
Qed.

Lemma shr_1_half mrs : 0 <= shr_m mrs -> shr_m (shr_1 mrs) = shr_m mrs / 2.
Proof.
  destruct mrs as [m r s]; cbn [shr_m shr_1]. intros H.
  destruct m as [| [p | p |] | p]; cbn [shr_m]; try lia.
  - reflexivity.
  - rewrite Pos2Z.inj_xI. apply Z.div_unique with 1; lia.
  - rewrite Pos2Z.inj_xO. apply Z.div_unique with 0; lia.
  - reflexivity.
Qed.

Lemma pow2_xO n : 2 ^ Zpos n~0 = 2 ^ Zpos n * 2 ^ Zpos n.
Proof.
  replace (Zpos n~0) with (Zpos n + Zpos n) by lia. apply Z.pow_add_r; lia.
Qed.

Lemma pow2_xI n : 2 ^ Zpos n~1 = 2 * (2 ^ Zpos n * 2 ^ Zpos n).
Proof.
  replace (Zpos n~1) with (1 + (Zpos n + Zpos n)) by lia.
  rewrite !Z.pow_add_r by lia. reflexivity.
Qed.

Lemma iter_shr_1_value n :
  forall mrs, 0 <= shr_m mrs ->
    shr_m (iter_pos shr_1 n mrs) = shr_m mrs / 2 ^ Zpos n.
Proof.
  induction n as [n IH | n IH |]; intros mrs H; cbn [iter_pos].
  - assert (H1 : 0 <= shr_m (shr_1 mrs)) by (apply shr_1_nonneg; exact H).
    assert (H2 : 0 <= shr_m (iter_pos shr_1 n (shr_1 mrs)))
      by (apply iter_pos_invariant; auto using shr_1_nonneg).
    rewrite IH, IH, shr_1_half by assumption.
    assert (P : 0 < 2 ^ Zpos n) by (apply Z.pow_pos_nonneg; lia).
    rewrite !Z.div_div by lia. f_equal. rewrite pow2_xI. lia.
  - assert (H2 : 0 <= shr_m (iter_pos shr_1 n mrs))
      by (apply iter_pos_invariant; auto using shr_1_nonneg).
    rewrite IH, IH by assumption.
    assert (P : 0 < 2 ^ Zpos n) by (apply Z.pow_pos_nonneg; lia).
    rewrite Z.div_div by lia. f_equal. rewrite pow2_xO. reflexivity.
  - rewrite shr_1_half by exact H. reflexivity.
Qed.

(** Shifting a positive mantissa to its canonical exponent leaves it
    positive when the exponent is not below the smallest one. *)
Lemma shr_fexp_positive m e l :
  -1074 <= e ->
  0 < shr_m (fst (shr_fexp prec emax (Zpos m) e l)) /\
  -1074 <= snd (shr_fexp prec emax (Zpos m) e l).
Proof.
  intros He. unfold shr_fexp, shr, fexp, SpecFloat.emin, prec, emax.
  cbn [Zdigits2].
  pose proof (digits2_pos_bounds m) as [Hlo Hhi].
  set (d := Zpos (digits2_pos m)) in *.
  assert (Hm : shr_m (shr_record_of_loc (Zpos m) l) = Zpos m)
    by (destruct l as [| [ | | ]]; reflexivity).
  destruct (Z.max (d + e - 53) (3 - 1024 - 53) - e) as [| p | p] eqn:E;
    cbn [fst snd]; rewrite ?Hm; try (split; lia).
  rewrite iter_shr_1_value by (rewrite Hm; lia).
  rewrite Hm. split; [| lia].
  assert (Hp : Zpos p <= d - 1) by lia.
  apply Z.div_str_pos. split; [apply Z.pow_pos_nonneg; lia |].
  eapply Z.le_trans; [| exact Hlo]. apply Z.pow_le_mono_r; lia.
Qed.

Lemma round_nearest_even_ge m l : 0 < m -> 0 < round_nearest_even m l.
Proof.
  intros H. destruct l as [| [ | | ]]; cbn; try lia.
  destruct (Z.even m); lia.
Qed.

(** [strictly s f]: [f] is a finite number other than zero, or an infinity,
    with sign bit [s]. *)
Definition strictly (s : bool) (f : spec_float) : Prop :=
  match f with
  | S754_finite s' _ _ | S754_infinity s' => s' = s
  | _ => False
  end.

Lemma binary_round_aux_strictly s m e l :
  -1074 <= e -> strictly s (binary_round_aux prec emax s (Zpos m) e l).
Proof.
  intros He. unfold binary_round_aux.
  pose proof (shr_fexp_positive m e l He) as [H1 H1e].
  destruct (shr_fexp prec emax (Zpos m) e l) as [mrs' e']; cbn [fst snd] in *.
  pose proof (round_nearest_even_ge _ (loc_of_shr_record mrs') H1) as H2.
  destruct (round_nearest_even (shr_m mrs') (loc_of_shr_record mrs'))
    as [| q | q]; try lia.
  pose proof (shr_fexp_positive q e' loc_Exact H1e) as [H3 _].
  destruct (shr_fexp prec emax (Zpos q) e' loc_Exact) as [mrs'' e''];
    cbn [fst] in H3.
  destruct (shr_m mrs'') as [| r | r]; try lia.
  destruct (e'' <=? emax - prec); reflexivity.
Qed.

Lemma binary_round_strictly s m e :
  -1074 <= e -> strictly s (binary_round prec emax s m e).
Proof.
  intros He. unfold binary_round.
  pose proof (shl_align_exponent m e
                (fexp prec emax (Zpos (digits2_pos m) + e)) He) as Hz.
  destruct (shl_align m e _) as [mz ez]; cbn [snd] in Hz.
  apply binary_round_aux_strictly. apply Hz.
  unfold fexp, SpecFloat.emin, prec, emax. lia.
Qed.

(** Between canonical mantissas, the one with the smaller exponent is the
    smaller number. *)
Lemma aligned_order mx ex my ey :
  canonical_mantissa prec emax mx ex = true ->
  canonical_mantissa prec emax my ey = true ->
  ex < ey -> Zpos mx < Zpos my * 2 ^ (ey - ex).
Proof.
  intros Cx Cy L.
  destruct (canonical_facts mx ex Cx) as (Hex & Hdx & _).
  destruct (canonical_facts my ey Cy) as (Hey & _ & Hdy).
  pose proof (digits2_pos_bounds mx) as [_ Hx].
  pose proof (digits2_pos_bounds my) as [Hy _].
  assert (Dy : Zpos (digits2_pos my) = 53) by lia. rewrite Dy in Hy.
  assert (Px : 2 ^ Zpos (digits2_pos mx) <= 2 ^ 53)
    by (apply Z.pow_le_mono_r; lia).
  assert (P2 : 2 ^ 1 <= 2 ^ (ey - ex)) by (apply Z.pow_le_mono_r; lia).
  change (2 ^ (53 - 1)) with 4503599627370496 in Hy.
  change (2 ^ 53) with 9007199254740992 in Px.
  change (2 ^ 1) with 2 in P2. nia.
Qed.

(** The signed mantissas of two finite numbers, aligned to the smaller
    exponent. *)
Definition aligned (s : bool) (m : positive) (e ez : Z) : Z :=
  cond_Zopp s (Zpos (fst (shl_align m e ez))).

Lemma SFcompare_aligned sx mx ex sy my ey :
  canonical_mantissa prec emax mx ex = true ->
  canonical_mantissa prec emax my ey = true ->
  SFcompare (S754_finite sx mx ex) (S754_finite sy my ey)
  = Some (aligned sx mx ex (Z.min ex ey) ?= aligned sy my ey (Z.min ex ey)).
Proof.
  intros Cx Cy. unfold aligned.
  rewrite (shl_align_value mx ex (Z.min ex ey)) by lia.
  rewrite (shl_align_value my ey (Z.min ex ey)) by lia.
  assert (Px : 0 < 2 ^ (ex - Z.min ex ey)) by (apply Z.pow_pos_nonneg; lia).
  assert (Py : 0 < 2 ^ (ey - Z.min ex ey)) by (apply Z.pow_pos_nonneg; lia).
  cbn [SFcompare]. f_equal.
  change (Pos.compare_cont Eq mx my) with (Zpos mx ?= Zpos my).
  destruct (Z.compare_spec ex ey) as [E | L | G].
  - subst ey. rewrite Z.min_id, Z.sub_diag in *. change (2 ^ 0) with 1.
    rewrite !Z.mul_1_r.
    destruct sx, sy; cbn [cond_Zopp]; symmetry.
    + rewrite Z.compare_opp. apply Z.compare_antisym.
    + apply Z.compare_lt_iff. lia.
    + apply Z.compare_gt_iff. lia.
    + reflexivity.
  - pose proof (aligned_order mx ex my ey Cx Cy L) as O.
    replace (Z.min ex ey) with ex in * by lia.
    rewrite Z.sub_diag. change (2 ^ 0) with 1. rewrite Z.mul_1_r.
    destruct sx, sy; cbn [cond_Zopp]; symmetry;
      first [apply Z.compare_lt_iff | apply Z.compare_gt_iff]; lia.
  - pose proof (aligned_order my ey mx ex Cy Cx ltac:(lia)) as O.
    replace (Z.min ex ey) with ey in * by lia.
    rewrite Z.sub_diag. change (2 ^ 0) with 1. rewrite Z.mul_1_r.
    destruct sx, sy; cbn [cond_Zopp]; symmetry;
      first [apply Z.compare_lt_iff | apply Z.compare_gt_iff]; lia.
Qed.

Lemma SFltb_zero_strictly s f :
  strictly s f -> SFltb (S754_zero false) f = negb s.
Proof.
  destruct f as [s' | s' | | s' m e]; cbn; try contradiction;
    intros ->; destruct s; reflexivity.
Qed.

(** A difference of two valid finite numbers is above zero exactly when the
    subtrahend is the smaller one. *)
Lemma SFsub_positive f g :
  valid_binary f = true -> valid_binary g = true ->
  sf_finite f -> sf_finite g ->
  SFltb (S754_zero false) (SFsub prec emax f g) = SFltb g f.
Proof.
  intros Vf Vg Ff Fg.
  destruct f as [sx | sx | | sx mx ex], g as [sy | sy | | sy my ey];
    cbn [sf_finite] in Ff, Fg; try contradiction.
  - destruct sx, sy; reflexivity.
  - destruct sy; reflexivity.
  - destruct sx; reflexivity.
  - cbn [SpecFloat.valid_binary] in Vf, Vg. unfold bounded in Vf, Vg.
    apply andb_true_iff in Vf, Vg. destruct Vf as [Cx _], Vg as [Cy _].
    unfold SFltb at 2. rewrite (SFcompare_aligned sy my ey sx mx ex Cy Cx).
    cbn [SFsub]. rewrite (Z.min_comm ey ex).
    fold (aligned sx mx ex (Z.min ex ey)). fold (aligned sy my ey (Z.min ex ey)).
    set (X := aligned sx mx ex (Z.min ex ey)).
    set (Y := aligned sy my ey (Z.min ex ey)).
    assert (Hz : -1074 <= Z.min ex ey).
    { destruct (canonical_facts mx ex Cx) as (? & _).
      destruct (canonical_facts my ey Cy) as (? & _). lia. }
    destruct (Z.compare_spec Y X) as [E | L | G].
    + replace (X - Y) with 0 by lia. reflexivity.
    + destruct (X - Y) as [| p | p] eqn:D; try lia.
      cbn [binary_normalize].
      rewrite (SFltb_zero_strictly false); [reflexivity |].
      apply binary_round_strictly. exact Hz.
    + destruct (X - Y) as [| p | p] eqn:D; try lia.
      cbn [binary_normalize].
      rewrite (SFltb_zero_strictly true); [reflexivity |].
      apply binary_round_strictly. exact Hz.
Qed.

Local Open Scope float_scope.

Lemma sub_positive x y :
  is_finite x = true -> is_finite y = true -> (0 <? x - y) = (y <? x).
Proof.
  intros Fx Fy. rewrite !ltb_spec, sub_spec, Prim2SF_zero.
  apply SFsub_positive; try apply Prim2SF_valid; apply is_finite_spec;
    assumption.
Qed.

End FloatSub.

(** ** Exact value of a difference of finite numbers *)

Module FloatExact.

Import FloatOrder FloatShape FloatSub.

Local Open Scope Z_scope.

(** The value of a finite number, counted in units of [2^-1074], the
    smallest positive binary64 number; and the weight of its last mantissa
    bit in the same units. *)
Definition units (f : spec_float) : Z :=
  match f with
  | S754_finite s m e => cond_Zopp s (Zpos m * 2 ^ (e + 1074))
  | _ => 0
  end.

Definition quantum (f : spec_float) : Z :=
  match f with
  | S754_finite _ _ e => 2 ^ (e + 1074)
  | _ => 1
  end.

Lemma digits2_pos_shift m d :
  digits2_pos (Pos.iter xO m d) = (digits2_pos m + d)%positive.
Proof.
  induction d as [| d IH] using Pos.peano_ind.
  - cbn. rewrite Pos.add_1_r. reflexivity.
  - rewrite Pos.iter_succ. cbn [digits2_pos]. rewrite IH.
    rewrite Pos.add_succ_r. reflexivity.
Qed.

(** A number below a power of two has at most that many digits, and one
    that reaches a power of two has more. *)
Lemma digits2_pos_le m n : 0 <= n -> Zpos m < 2 ^ n -> Zpos (digits2_pos m) <= n.
Proof.
  intros Hn H. pose proof (digits2_pos_bounds m) as [Hlo _].
  destruct (Z_le_gt_dec (Zpos (digits2_pos m)) n) as [L | G]; [exact L |].
  exfalso. assert (P : 2 ^ n <= 2 ^ (Zpos (digits2_pos m) - 1))
    by (apply Z.pow_le_mono_r; lia). lia.
Qed.

Lemma digits2_pos_gt m n : 0 <= n -> 2 ^ n <= Zpos m -> n < Zpos (digits2_pos m).
Proof.
  intros Hn H. pose proof (digits2_pos_bounds m) as [_ Hhi].
  destruct (Z_lt_le_dec n (Zpos (digits2_pos m))) as [L | G]; [exact L |].
  exfalso. assert (P : 2 ^ Zpos (digits2_pos m) <= 2 ^ n)
    by (apply Z.pow_le_mono_r; lia). lia.
Qed.

(** The mantissa and exponent that [shr_fexp] leaves. *)
Lemma shr_fexp_spec m e l :
  shr_m (fst (shr_fexp prec emax (Zpos m) e l))
  = Zpos m / 2 ^ Z.max (fexp prec emax (Zpos (digits2_pos m) + e) - e) 0 /\
  snd (shr_fexp prec emax (Zpos m) e l)
  = e + Z.max (fexp prec emax (Zpos (digits2_pos m) + e) - e) 0.
Proof.
  unfold shr_fexp, shr. cbn [Zdigits2].
  assert (Hm : shr_m (shr_record_of_loc (Zpos m) l) = Zpos m)
    by (destruct l as [| [ | | ]]; reflexivity).
  destruct (fexp prec emax (Zpos (digits2_pos m) + e) - e) as [| p | p];
    cbn [fst snd Z.max].
  - rewrite Hm. change (2 ^ 0) with 1. rewrite Z.div_1_r. split; lia.
  - rewrite iter_shr_1_value by (rewrite Hm; lia). rewrite Hm.
    replace (Z.max (Zpos p) 0) with (Zpos p) by lia. split; reflexivity.
  - rewrite Hm. replace (Z.max (Zneg p) 0) with 0 by lia.
    change (2 ^ 0) with 1. rewrite Z.div_1_r. split; lia.
Qed.

Lemma shr_1_even mrs :
  0 <= shr_m mrs -> shr_r mrs = false -> shr_s mrs = false ->
  (2 | shr_m mrs) ->
  shr_r (shr_1 mrs) = false /\ shr_s (shr_1 mrs) = false.
Proof.
  destruct mrs as [m r s]; cbn [shr_m shr_r shr_s]. intros H -> -> [k Hk].
  destruct m as [| [p | p |] | p]; cbn; try (split; reflexivity); lia.
Qed.

(** Shifting out bits that are all zero loses nothing. *)
Lemma iter_shr_1_exact n :
  forall mrs,
    0 <= shr_m mrs -> shr_r mrs = false -> shr_s mrs = false ->
    (2 ^ Zpos n | shr_m mrs) ->
    shr_r (iter_pos shr_1 n mrs) = false /\
    shr_s (iter_pos shr_1 n mrs) = false.
Proof.
  assert (Hdiv : forall a b c, 0 < b -> 0 < c -> (b * c | a) -> (c | a / b)).
  { intros a b c Hb Hc [k Hk]. exists k. subst a.
    replace (k * (b * c)) with (k * c * b) by lia.
    rewrite Z.div_mul by lia. reflexivity. }
  induction n as [n IH | n IH |]; intros mrs H Hr Hs D; cbn [iter_pos].
  - assert (P : 0 < 2 ^ Zpos n) by (apply Z.pow_pos_nonneg; lia).
    rewrite pow2_xI in D.
    assert (D2 : (2 | shr_m mrs)).
    { destruct D as [k Hk]. exists (k * (2 ^ Zpos n * 2 ^ Zpos n)). lia. }
    destruct (shr_1_even mrs H Hr Hs D2) as [Hr1 Hs1].
    assert (H1 : 0 <= shr_m (shr_1 mrs)) by (apply shr_1_nonneg; exact H).
    assert (V1 : shr_m (shr_1 mrs) = shr_m mrs / 2) by (apply shr_1_half; exact H).
    assert (D1 : (2 ^ Zpos n * 2 ^ Zpos n | shr_m (shr_1 mrs))).
    { rewrite V1. apply Hdiv; try lia.
      replace (2 * (2 ^ Zpos n * 2 ^ Zpos n)) with (2 * (2 ^ Zpos n * 2 ^ Zpos n))
        by lia. exact D. }
    assert (Da : (2 ^ Zpos n | shr_m (shr_1 mrs))).
    { destruct D1 as [k Hk]. exists (k * 2 ^ Zpos n). lia. }
    destruct (IH (shr_1 mrs) H1 Hr1 Hs1 Da) as [Hr2 Hs2].
    assert (H2 : 0 <= shr_m (iter_pos shr_1 n (shr_1 mrs)))
      by (apply iter_pos_invariant; auto using shr_1_nonneg).
    apply IH; try assumption.
    rewrite iter_shr_1_value by assumption. apply Hdiv; try lia. exact D1.
  - assert (P : 0 < 2 ^ Zpos n) by (apply Z.pow_pos_nonneg; lia).
    rewrite pow2_xO in D.
    assert (Da : (2 ^ Zpos n | shr_m mrs)).
    { destruct D as [k Hk]. exists (k * 2 ^ Zpos n). lia. }
    destruct (IH mrs H Hr Hs Da) as [Hr2 Hs2].
    assert (H2 : 0 <= shr_m (iter_pos shr_1 n mrs))
      by (apply iter_pos_invariant; auto using shr_1_nonneg).
    apply IH; try assumption.
    rewrite iter_shr_1_value by assumption. apply Hdiv; try lia. exact D.
  - apply shr_1_even; try assumption.
Qed.

Lemma shr_fexp_exact m e :
  (2 ^ Z.max (fexp prec emax (Zpos (digits2_pos m) + e) - e) 0 | Zpos m) ->
  loc_of_shr_record (fst (shr_fexp prec emax (Zpos m) e loc_Exact)) = loc_Exact.
Proof.
  unfold shr_fexp, shr. cbn [Zdigits2 shr_record_of_loc].
  destruct (fexp prec emax (Zpos (digits2_pos m) + e) - e) as [| p | p];
    cbn [fst Z.max]; intros D; try reflexivity.
  replace (Z.max (Zpos p) 0) with (Zpos p) in D by lia.
  destruct (iter_shr_1_exact p {| shr_m := Zpos m; shr_r := false; shr_s := false |})
    as [Hr Hs]; cbn [shr_m shr_r shr_s]; try reflexivity; try lia; try exact D.
  destruct (iter_pos shr_1 p _) as [m' r' s']; cbn in *. subst. reflexivity.
Qed.

Lemma round_nearest_even_cases q l :
  round_nearest_even q l = q \/ round_nearest_even q l = q + 1.
Proof.
  destruct l as [| [ | | ]]; cbn; auto. destruct (Z.even q); auto.
Qed.

Lemma fexp_eq x : fexp prec emax x = Z.max (x - 53) (-1074).
Proof. reflexivity. Qed.

(** Rounding a positive mantissa that sits at or below its canonical
    exponent [E]: the mantissa kept is the quotient by the bits shifted out,
    or one more, and exactly the quotient when those bits are zero; when it
    reaches [2^53] it is halved and the exponent raised by one. *)
Lemma binary_round_aux_cases s mz ez :
  -1074 <= ez ->
  ez <= fexp prec emax (Zpos (digits2_pos mz) + ez) ->
  exists m1 k m',
    (m1 = Zpos mz / 2 ^ (fexp prec emax (Zpos (digits2_pos mz) + ez) - ez) \/
     m1 = Zpos mz / 2 ^ (fexp prec emax (Zpos (digits2_pos mz) + ez) - ez) + 1) /\
    ((2 ^ (fexp prec emax (Zpos (digits2_pos mz) + ez) - ez) | Zpos mz) ->
     m1 = Zpos mz / 2 ^ (fexp prec emax (Zpos (digits2_pos mz) + ez) - ez) /\
     k = 0) /\
    0 <= k /\ Zpos m' * 2 ^ k = m1 /\
    binary_round_aux prec emax s (Zpos mz) ez loc_Exact
    = if fexp prec emax (Zpos (digits2_pos mz) + ez) + k <=? emax - prec
      then S754_finite s m' (fexp prec emax (Zpos (digits2_pos mz) + ez) + k)
      else S754_infinity s.
Proof.
  intros Hez HE. set (E := fexp prec emax (Zpos (digits2_pos mz) + ez)) in *.
  assert (HE' : -1074 <= E) by (unfold E; rewrite fexp_eq; lia).
  assert (Hd : Zpos (digits2_pos mz) - 53 <= E - ez)
    by (unfold E; rewrite fexp_eq; lia).
  set (q := Zpos mz / 2 ^ (E - ez)).
  assert (Pw : 0 < 2 ^ (E - ez)) by (apply Z.pow_pos_nonneg; lia).
  assert (Hq53 : q < 2 ^ 53).
  { unfold q. apply Z.div_lt_upper_bound; [exact Pw |].
    pose proof (digits2_pos_bounds mz) as [_ Hhi].
    rewrite <- Z.pow_add_r by lia.
    eapply Z.lt_le_trans; [exact Hhi |]. apply Z.pow_le_mono_r; lia. }
  unfold binary_round_aux.
  pose proof (shr_fexp_spec mz ez loc_Exact) as [Hm1 He1].
  pose proof (shr_fexp_positive mz ez loc_Exact Hez) as [Hpos _].
  pose proof (shr_fexp_exact mz ez) as Hloc.
  fold E in Hm1, He1, Hloc.
  replace (Z.max (E - ez) 0) with (E - ez) in Hm1, He1, Hloc by lia.
  fold q in Hm1.
  destruct (shr_fexp prec emax (Zpos mz) ez loc_Exact) as [mrs' e'];
    cbn [fst snd] in *.
  replace e' with E by lia. clear He1.
  rewrite Hm1 in *.
  set (m1 := round_nearest_even q (loc_of_shr_record mrs')).
  assert (Hm1c : m1 = q \/ m1 = q + 1) by apply round_nearest_even_cases.
  assert (Hm1x : (2 ^ (E - ez) | Zpos mz) -> m1 = q).
  { intros D. unfold m1. rewrite (Hloc D). reflexivity. }
  destruct m1 as [| p1 | p1] eqn:Em1; try lia.
  pose proof (shr_fexp_spec p1 E loc_Exact) as [Hm2 He2].
  set (k := Z.max (fexp prec emax (Zpos (digits2_pos p1) + E) - E) 0) in *.
  assert (Hk : (Zpos p1 < 2 ^ 53 /\ k = 0) \/ (Zpos p1 = 2 ^ 53 /\ k = 1)).
  { destruct (Z_lt_le_dec (Zpos p1) (2 ^ 53)) as [L | G].
    - left. split; [exact L |].
      pose proof (digits2_pos_le p1 53 ltac:(lia) L).
      unfold k. rewrite fexp_eq. lia.
    - right. assert (Ep : Zpos p1 = 2 ^ 53) by lia. split; [exact Ep |].
      assert (Dp : Zpos (digits2_pos p1) = 54).
      { change (2 ^ 53) with (Zpos (Pos.iter xO xH 53)) in Ep.
        injection Ep as ->. reflexivity. }
      unfold k. rewrite fexp_eq, Dp. lia. }
  destruct (shr_fexp prec emax (Zpos p1) E loc_Exact) as [mrs'' e''];
    cbn [fst snd] in *.
  assert (Hv : shr_m mrs'' * 2 ^ k = Zpos p1 /\ 0 < shr_m mrs'').
  { rewrite Hm2. destruct Hk as [[_ ->] | [-> ->]].
    - change (2 ^ 0) with 1. rewrite Z.div_1_r. lia.
    - split; reflexivity. }
  destruct Hv as [Hv Hp2].
  destruct (shr_m mrs'') as [| m' | m'] eqn:Em2; try lia.
  exists (Zpos p1), k, m'. rewrite He2.
  split; [exact Hm1c | split; [| split; [unfold k; lia | split; [exact Hv |]]]].
  - intros D. split; [apply Hm1x; exact D |].
    destruct Hk as [[_ K] | [Ep _]]; [exact K |].
    specialize (Hm1x D). lia.
  - reflexivity.
Qed.

(** The exact value [V] and the weight [U] of the last bit kept, for a
    positive mantissa [m] at exponent [e]. *)
Definition exact_value (m : positive) (e : Z) : Z := Zpos m * 2 ^ (e + 1074).

Definition last_bit (m : positive) (e : Z) : Z :=
  2 ^ (fexp prec emax (Zpos (digits2_pos m) + e) + 1074).

Lemma binary_round_cases s m e :
  -1074 <= e ->
  exists m1 k m',
    (m1 = exact_value m e / last_bit m e \/
     m1 = exact_value m e / last_bit m e + 1) /\
    ((last_bit m e | exact_value m e) ->
     m1 = exact_value m e / last_bit m e /\ k = 0) /\
    0 <= k /\ Zpos m' * 2 ^ k = m1 /\
    binary_round prec emax s m e
    = if fexp prec emax (Zpos (digits2_pos m) + e) + k <=? emax - prec
      then S754_finite s m' (fexp prec emax (Zpos (digits2_pos m) + e) + k)
      else S754_infinity s.
Proof.
  intros He. unfold binary_round, exact_value, last_bit.
  set (E := fexp prec emax (Zpos (digits2_pos m) + e)).
  assert (HE : -1074 <= E) by (unfold E; rewrite fexp_eq; lia).
  assert (Hal : exists mz ez,
             shl_align m e E = (mz, ez) /\ -1074 <= ez /\ ez <= E /\
             Zpos (digits2_pos mz) + ez = Zpos (digits2_pos m) + e /\
             Zpos mz * 2 ^ (ez + 1074) = Zpos m * 2 ^ (e + 1074)).
  { unfold shl_align. destruct (E - e) as [| d | d] eqn:Ed.
    - exists m, e. repeat split; lia.
    - exists m, e. repeat split; lia.
    - exists (Pos.iter xO m d), E. split; [reflexivity |].
      split; [exact HE | split; [lia |]].
      rewrite digits2_pos_shift, iter_xO_value, Pos2Z.inj_add.
      split; [lia |].
      replace (e + 1074) with (Zpos d + (E + 1074)) by lia.
      rewrite (Z.pow_add_r 2 (Zpos d) (E + 1074)) by lia. ring. }
  destruct Hal as (mz & ez & -> & Hez & HezE & Hdig & Hval).
  assert (E' : fexp prec emax (Zpos (digits2_pos mz) + ez) = E)
    by (unfold E; rewrite Hdig; reflexivity).
  destruct (binary_round_aux_cases s mz ez Hez) as (m1 & k & m' & H1 & H2 & H3 & H4 & H5);
    [rewrite E'; exact HezE |].
  rewrite E' in *.
  assert (Pa : 0 < 2 ^ (ez + 1074)) by (apply Z.pow_pos_nonneg; lia).
  assert (Pb : 0 < 2 ^ (E - ez)) by (apply Z.pow_pos_nonneg; lia).
  assert (HU : 2 ^ (E + 1074) = 2 ^ (E - ez) * 2 ^ (ez + 1074)).
  { rewrite <- Z.pow_add_r by lia. f_equal. lia. }
  assert (Hq : Zpos m * 2 ^ (e + 1074) / 2 ^ (E + 1074) = Zpos mz / 2 ^ (E - ez)).
  { rewrite <- Hval, HU. apply Z.div_mul_cancel_r; lia. }
  exists m1, k, m'. rewrite Hq.
  split; [exact H1 | split; [| split; [exact H3 | split; [exact H4 | exact H5]]]].
  intros D. apply H2. rewrite <- Hval, HU in D.
  apply Z.mul_divide_cancel_r in D; [exact D | lia].
Qed.

(** A value whose bits below the last bit kept are zero is kept as it is,
    unless the exponent is beyond the largest one. *)
Lemma binary_round_exact s m e :
  -1074 <= e ->
  (last_bit m e | exact_value m e) ->
  fexp prec emax (Zpos (digits2_pos m) + e) <= emax - prec ->
  exists m' e',
    binary_round prec emax s m e = S754_finite s m' e' /\
    Zpos m' * 2 ^ (e' + 1074) = exact_value m e.
Proof.
  intros He D Hmax.
  destruct (binary_round_cases s m e He) as (m1 & k & m' & _ & H2 & _ & H4 & H5).
  destruct (H2 D) as [-> ->].
  rewrite Z.add_0_r in H5. change (2 ^ 0) with 1 in H4. rewrite Z.mul_1_r in H4.
  apply Z.leb_le in Hmax. rewrite Hmax in H5.
  exists m', (fexp prec emax (Zpos (digits2_pos m) + e)). split; [exact H5 |].
  rewrite H4. fold (last_bit m e).
  destruct D as [c Hc]. rewrite Hc, Z.div_mul; [reflexivity |].
  unfold last_bit. apply Z.pow_nonzero; [lia |]. rewrite fexp_eq. lia.
Qed.

(** The rounded value is not below the exact value cut at the last bit
    kept. *)
Lemma binary_round_lower s m e :
  -1074 <= e ->
  binary_round prec emax s m e = S754_infinity s \/
  exists m' e',
    binary_round prec emax s m e = S754_finite s m' e' /\
    exact_value m e / last_bit m e * last_bit m e <= Zpos m' * 2 ^ (e' + 1074).
Proof.
  intros He.
  destruct (binary_round_cases s m e He) as (m1 & k & m' & H1 & _ & H3 & H4 & H5).
  rewrite H5.
  destruct (fexp prec emax (Zpos (digits2_pos m) + e) + k <=? emax - prec);
    [right | left; reflexivity].
  exists m', (fexp prec emax (Zpos (digits2_pos m) + e) + k).
  split; [reflexivity |].
  assert (HE : -1074 <= fexp prec emax (Zpos (digits2_pos m) + e))
    by (rewrite fexp_eq; lia).
  replace (fexp prec emax (Zpos (digits2_pos m) + e) + k + 1074)
    with (k + (fexp prec emax (Zpos (digits2_pos m) + e) + 1074)) by lia.
  rewrite Z.pow_add_r by lia. fold (last_bit m e).
  assert (PU : 0 < last_bit m e)
    by (unfold last_bit; apply Z.pow_pos_nonneg; lia).
  rewrite Z.mul_assoc, H4. destruct H1 as [-> | ->]; nia.
Qed.

(** A representable value that is not above the exact value is not above
    the exact value cut at the last bit kept either. *)
Lemma round_down_ge m e n k :
  -1074 <= e -> -1074 <= k -> 0 <= n < 2 ^ 53 ->
  n * 2 ^ (k + 1074) <= exact_value m e ->
  n * 2 ^ (k + 1074) <= exact_value m e / last_bit m e * last_bit m e.
Proof.
  intros He Hk Hn HA. unfold last_bit in *.
  set (E := fexp prec emax (Zpos (digits2_pos m) + e)).
  assert (HE : -1074 <= E) by (unfold E; rewrite fexp_eq; lia).
  set (U := 2 ^ (E + 1074)). set (V := exact_value m e) in *.
  assert (PU : 0 < U) by (apply Z.pow_pos_nonneg; lia).
  destruct (Z_le_gt_dec E k) as [L | G].
  - assert (HkU : 2 ^ (k + 1074) = 2 ^ (k - E) * U).
    { unfold U. rewrite <- Z.pow_add_r by lia. f_equal. lia. }
    rewrite HkU, Z.mul_assoc in *.
    apply Z.mul_le_mono_nonneg_r; [lia |].
    apply Z.div_le_lower_bound; lia.
  - assert (EE : E = Zpos (digits2_pos m) + e - 53)
      by (unfold E in *; rewrite fexp_eq in *; lia).
    pose proof (digits2_pos_bounds m) as [Hlo _].
    assert (HV : 2 ^ 52 * U <= V).
    { unfold V, exact_value, U. rewrite <- (Z.pow_add_r 2 52 (E + 1074)) by lia.
      replace (52 + (E + 1074)) with ((Zpos (digits2_pos m) - 1) + (e + 1074))
        by lia.
      rewrite (Z.pow_add_r 2 (Zpos (digits2_pos m) - 1) (e + 1074)) by lia.
      apply Z.mul_le_mono_nonneg_r; [apply Z.pow_nonneg; lia | exact Hlo]. }
    assert (Hq : 2 ^ 52 <= V / U) by (apply Z.div_le_lower_bound; lia).
    assert (HA2 : n * 2 ^ (k + 1074) < 2 ^ 52 * U).
    { assert (P1 : 2 ^ (k + 1074) * 2 <= U).
      { unfold U. replace (E + 1074) with ((k + 1074) + (E - k)) by lia.
        rewrite (Z.pow_add_r 2 (k + 1074) (E - k)) by lia.
        apply Z.mul_le_mono_nonneg_l; [apply Z.pow_nonneg; lia |].
        apply (Z.pow_le_mono_r 2 1 (E - k)); lia. }
      assert (P0 : 0 < 2 ^ (k + 1074)) by (apply Z.pow_pos_nonneg; lia).
      change (2 ^ 53) with (2 ^ 52 * 2) in Hn. nia. }
    nia.
Qed.

(** A value that is a multiple of the last bit of a representable bound
    above it has all the bits it needs. *)
Lemma bounded_multiple_fits m e n k :
  -1074 <= e -> -1074 <= k -> k <= emax - prec -> 0 <= n < 2 ^ 53 ->
  exact_value m e <= n * 2 ^ (k + 1074) ->
  (2 ^ (k + 1074) | exact_value m e) ->
  (last_bit m e | exact_value m e) /\
  fexp prec emax (Zpos (digits2_pos m) + e) <= emax - prec.
Proof.
  intros He Hk Hmax Hn HB D. unfold last_bit.
  set (E := fexp prec emax (Zpos (digits2_pos m) + e)).
  assert (Le : E <= k).
  { unfold E. rewrite fexp_eq.
    pose proof (digits2_pos_bounds m) as [Hlo _].
    assert (HV : 2 ^ (Zpos (digits2_pos m) - 1 + (e + 1074)) <= exact_value m e).
    { unfold exact_value.
      rewrite (Z.pow_add_r 2 (Zpos (digits2_pos m) - 1) (e + 1074)) by lia.
      apply Z.mul_le_mono_nonneg_r; [apply Z.pow_nonneg; lia | exact Hlo]. }
    assert (HB2 : n * 2 ^ (k + 1074) < 2 ^ (53 + (k + 1074))).
    { rewrite (Z.pow_add_r 2 53 (k + 1074)) by lia.
      assert (P0 : 0 < 2 ^ (k + 1074)) by (apply Z.pow_pos_nonneg; lia). nia. }
    assert (Lt : Zpos (digits2_pos m) - 1 + (e + 1074) < 53 + (k + 1074)).
    { apply (Z.pow_lt_mono_r_iff 2); lia. }
    lia. }
  split; [| lia].
  assert (HE : -1074 <= E) by (unfold E; rewrite fexp_eq; lia).
  apply Z.divide_trans with (2 ^ (k + 1074)); [| exact D].
  exists (2 ^ (k - E)). rewrite <- Z.pow_add_r by lia. f_equal. lia.
Qed.

Lemma valid_finite_facts s m e :
  valid_binary (S754_finite s m e) = true ->
  canonical_mantissa prec emax m e = true /\
  -1074 <= e <= emax - prec /\ Zpos m < 2 ^ 53.
Proof.
  cbn [SpecFloat.valid_binary]. unfold bounded. intros V.
  apply andb_true_iff in V. destruct V as [C B]. apply Z.leb_le in B.
  destruct (canonical_facts m e C) as (He & Hd & _).
  split; [exact C | split; [lia |]].
  pose proof (digits2_pos_bounds m) as [_ Hhi].
  eapply Z.lt_le_trans; [exact Hhi |]. apply Z.pow_le_mono_r; lia.
Qed.

Lemma units_aligned s m e ez :
  -1074 <= ez -> ez <= e ->
  units (S754_finite s m e) = aligned s m e ez * 2 ^ (ez + 1074).
Proof.
  intros Hz Le. unfold units, aligned. rewrite (shl_align_value m e ez Le).
  replace (e + 1074) with ((e - ez) + (ez + 1074)) by lia.
  rewrite (Z.pow_add_r 2 (e - ez) (ez + 1074)) by lia.
  destruct s; cbn [cond_Zopp]; ring.
Qed.

(** Finite numbers compare as their exact values do. *)
Lemma SFcompare_units f g :
  valid_binary f = true -> valid_binary g = true ->
  sf_finite f -> sf_finite g ->
  SFcompare f g = Some (units f ?= units g).
Proof.
  intros Vf Vg Ff Fg.
  destruct f as [sx | sx | | sx mx ex], g as [sy | sy | | sy my ey];
    cbn [sf_finite] in Ff, Fg; try contradiction.
  - reflexivity.
  - destruct (valid_finite_facts _ _ _ Vg) as (_ & He & _).
    assert (P : 0 < Zpos my * 2 ^ (ey + 1074))
      by (apply Z.mul_pos_pos; [lia | apply Z.pow_pos_nonneg; lia]).
    cbn [SFcompare units]. f_equal. symmetry.
    destruct sy; cbn [cond_Zopp];
      [apply Z.compare_gt_iff | apply Z.compare_lt_iff]; lia.
  - destruct (valid_finite_facts _ _ _ Vf) as (_ & He & _).
    assert (P : 0 < Zpos mx * 2 ^ (ex + 1074))
      by (apply Z.mul_pos_pos; [lia | apply Z.pow_pos_nonneg; lia]).
    cbn [SFcompare units]. f_equal. symmetry.
    destruct sx; cbn [cond_Zopp];
      [apply Z.compare_lt_iff | apply Z.compare_gt_iff]; lia.
  - destruct (valid_finite_facts _ _ _ Vf) as (Cx & Hex & _).
    destruct (valid_finite_facts _ _ _ Vg) as (Cy & Hey & _).
    rewrite (SFcompare_aligned sx mx ex sy my ey Cx Cy).
    rewrite (units_aligned sx mx ex (Z.min ex ey)) by lia.
    rewrite (units_aligned sy my ey (Z.min ex ey)) by lia.
    assert (P : 0 < 2 ^ (Z.min ex ey + 1074)) by (apply Z.pow_pos_nonneg; lia).
    f_equal. symmetry.
    destruct (Z.compare_spec (aligned sx mx ex (Z.min ex ey))
                (aligned sy my ey (Z.min ex ey))) as [E | L | G].
    + rewrite E. apply Z.compare_refl.
    + apply Z.compare_lt_iff. nia.
    + apply Z.compare_gt_iff. nia.
Qed.

(** The difference of two finite numbers: the exact difference of their
    values, rounded. *)
Lemma SFsub_finite_finite sx mx ex sy my ey :
  valid_binary (S754_finite sx mx ex) = true ->
  valid_binary (S754_finite sy my ey) = true ->
  exists d,
    -1074 <= Z.min ex ey /\
    units (S754_finite sx mx ex) - units (S754_finite sy my ey)
    = d * 2 ^ (Z.min ex ey + 1074) /\
    SFsub prec emax (S754_finite sx mx ex) (S754_finite sy my ey)
    = binary_normalize prec emax d (Z.min ex ey) false.
Proof.
  intros Vf Vg.
  destruct (valid_finite_facts _ _ _ Vf) as (_ & Hex & _).
  destruct (valid_finite_facts _ _ _ Vg) as (_ & Hey & _).
  exists (aligned sx mx ex (Z.min ex ey) - aligned sy my ey (Z.min ex ey)).
  split; [lia | split; [| reflexivity]].
  rewrite (units_aligned sx mx ex (Z.min ex ey)) by lia.
  rewrite (units_aligned sy my ey (Z.min ex ey)) by lia. ring.
Qed.

(** A difference that is a multiple of the last bit of a representable
    bound on its magnitude is computed exactly. *)
Lemma SFsub_exact f g n k :
  valid_binary f = true -> valid_binary g = true ->
  sf_finite f -> sf_finite g ->
  -1074 <= k -> k <= emax - prec -> 0 <= n < 2 ^ 53 ->
  Z.abs (units f - units g) <= n * 2 ^ (k + 1074) ->
  (2 ^ (k + 1074) | units f - units g) ->
  sf_finite (SFsub prec emax f g) /\
  units (SFsub prec emax f g) = units f - units g.
Proof.
  intros Vf Vg Ff Fg Hk Hmax Hn HB HD.
  destruct f as [sx | sx | | sx mx ex], g as [sy | sy | | sy my ey];
    cbn [sf_finite] in Ff, Fg; try contradiction.
  - destruct sx, sy; cbn; auto.
  - cbn [SFsub units sf_finite]. split; [exact I |].
    destruct sy; cbn [negb cond_Zopp]; lia.
  - cbn [SFsub units sf_finite]. split; [exact I | lia].
  - destruct (SFsub_finite_finite sx mx ex sy my ey Vf Vg) as (d & Hz & Hd & ->).
    rewrite Hd in *.
    destruct d as [| p | p]; cbn [binary_normalize].
    + cbn. auto.
    + assert (Ev : exact_value p (Z.min ex ey) = Zpos p * 2 ^ (Z.min ex ey + 1074))
        by reflexivity.
      assert (P : 0 < 2 ^ (Z.min ex ey + 1074)) by (apply Z.pow_pos_nonneg; lia).
      rewrite Z.abs_eq in HB by nia.
      destruct (bounded_multiple_fits p (Z.min ex ey) n k Hz Hk Hmax Hn)
        as [D Hm]; [rewrite Ev; exact HB | rewrite Ev; exact HD |].
      destruct (binary_round_exact false p (Z.min ex ey) Hz D Hm)
        as (m' & e' & -> & Hv).
      cbn [sf_finite units cond_Zopp]. split; [exact I |].
      rewrite Hv. exact Ev.
    + assert (Ev : exact_value p (Z.min ex ey) = Zpos p * 2 ^ (Z.min ex ey + 1074))
        by reflexivity.
      assert (P : 0 < 2 ^ (Z.min ex ey + 1074)) by (apply Z.pow_pos_nonneg; lia).
      assert (Eneg : Zneg p * 2 ^ (Z.min ex ey + 1074)
                     = - (Zpos p * 2 ^ (Z.min ex ey + 1074))) by lia.
      rewrite Eneg in *. rewrite Z.abs_neq in HB by nia.
      rewrite Z.opp_involutive in HB. apply Z.divide_opp_r in HD.
      rewrite Z.opp_involutive in HD.
      destruct (bounded_multiple_fits p (Z.min ex ey) n k Hz Hk Hmax Hn)
        as [D Hm]; [rewrite Ev; exact HB | rewrite Ev; exact HD |].
      destruct (binary_round_exact true p (Z.min ex ey) Hz D Hm)
        as (m' & e' & -> & Hv).
      cbn [sf_finite units cond_Zopp]. split; [exact I |].
      rewrite Hv, Ev. reflexivity.
Qed.

(** A positive difference is not rounded below a representable value that
    it reaches. *)
Lemma SFsub_lower f g n k :
  valid_binary f = true -> valid_binary g = true ->
  sf_finite f -> sf_finite g ->
  -1074 <= k -> 0 <= n < 2 ^ 53 ->
  0 < n * 2 ^ (k + 1074) -> n * 2 ^ (k + 1074) <= units f - units g ->
  SFsub prec emax f g = S754_infinity false \/
  (sf_finite (SFsub prec emax f g) /\
   n * 2 ^ (k + 1074) <= units (SFsub prec emax f g)).
Proof.
  intros Vf Vg Ff Fg Hk Hn HA HD.
  destruct f as [sx | sx | | sx mx ex], g as [sy | sy | | sy my ey];
    cbn [sf_finite] in Ff, Fg; try contradiction.
  - cbn [units] in HD. lia.
  - right. cbn [SFsub units sf_finite]. split; [exact I |].
    cbn [units] in HD. destruct sy; cbn [negb cond_Zopp] in *; lia.
  - right. cbn [SFsub units sf_finite]. split; [exact I |].
    cbn [units] in HD. lia.
  - destruct (SFsub_finite_finite sx mx ex sy my ey Vf Vg) as (d & Hz & Hd & ->).
    rewrite Hd in *.
    assert (P : 0 < 2 ^ (Z.min ex ey + 1074)) by (apply Z.pow_pos_nonneg; lia).
    destruct d as [| p | p]; cbn [binary_normalize]; try nia.
    destruct (binary_round_lower false p (Z.min ex ey) Hz)
      as [-> | (m' & e' & -> & Hv)]; [left; reflexivity | right].
    cbn [sf_finite units cond_Zopp]. split; [exact I |].
    eapply Z.le_trans; [| exact Hv].
    apply round_down_ge; try assumption.
Qed.

Local Open Scope float_scope.

(** The exact value of a binary64 number in units of [2^-1074]. *)
Definition exact_units (x : float) : Z := units (Prim2SF x).

Lemma units_abs f : units (SFabs f) = Z.abs (units f).
Proof.
  destruct f as [s | s | | s m e]; cbn [SFabs units]; try reflexivity.
  assert (P : (0 <= Zpos m * 2 ^ (e + 1074))%Z)
    by (apply Z.mul_nonneg_nonneg; [lia | apply Z.pow_nonneg; lia]).
  destruct s; cbn [cond_Zopp]; lia.
Qed.

Lemma abs_units x : exact_units (abs x) = Z.abs (exact_units x).
Proof. unfold exact_units. rewrite abs_spec. apply units_abs. Qed.

Lemma compare_units x y :
  is_finite x = true -> is_finite y = true ->
  SFcompare (Prim2SF x) (Prim2SF y)
  = Some (exact_units x ?= exact_units y)%Z.
Proof.
  intros Fx Fy. apply SFcompare_units; try apply Prim2SF_valid;
    apply is_finite_spec; assumption.
Qed.

Lemma ltb_units x y :
  is_finite x = true -> is_finite y = true ->
  (x <? y) = (exact_units x <? exact_units y)%Z.
Proof.
  intros Fx Fy. rewrite ltb_spec. unfold SFltb, Z.ltb.
  rewrite (compare_units x y Fx Fy). reflexivity.
Qed.

Lemma leb_units x y :
  is_finite x = true -> is_finite y = true ->
  (x <=? y) = (exact_units x <=? exact_units y)%Z.
Proof.
  intros Fx Fy. rewrite leb_spec. unfold SFleb, Z.leb.
  rewrite (compare_units x y Fx Fy).
  destruct (exact_units x ?= exact_units y)%Z; reflexivity.
Qed.

(** [x - y] is exact when the exact difference is a multiple of the last
    bit of a finite number [c] that bounds its magnitude. *)
Lemma sub_exact x y c :
  is_finite x = true -> is_finite y = true -> is_finite c = true ->
  (Z.abs (exact_units x - exact_units y) <= Z.abs (exact_units c))%Z ->
  (quantum (Prim2SF c) | exact_units x - exact_units y)%Z ->
  is_finite (x - y) = true /\
  exact_units (x - y) = (exact_units x - exact_units y)%Z.
Proof.
  intros Fx Fy Fc HB HD. unfold exact_units in *.
  rewrite (is_finite_spec (x - y)), sub_spec. unfold SF64sub.
  apply is_finite_spec in Fx, Fy, Fc.
  pose proof (Prim2SF_valid c) as Vc.
  destruct (Prim2SF c) as [sc | sc | | sc mc ec]; cbn [sf_finite] in Fc;
    try contradiction.
  - apply (SFsub_exact _ _ 0 (-1074)); try apply Prim2SF_valid;
      try assumption; try (cbn; lia).
  - destruct (valid_finite_facts _ _ _ Vc) as (_ & He & Hm).
    apply (SFsub_exact _ _ (Zpos mc) ec); try apply Prim2SF_valid;
      try assumption; try lia.
    rewrite units_abs in HB || cbn [units] in HB.
    assert (P : (0 <= Zpos mc * 2 ^ (ec + 1074))%Z)
      by (apply Z.mul_nonneg_nonneg; [lia | apply Z.pow_nonneg; lia]).
    destruct sc; cbn [cond_Zopp] in HB; lia.
Qed.

(** [x - y] is not rounded below a positive finite number [c] that the
    exact difference reaches. *)
Lemma sub_lower x y c :
  is_finite x = true -> is_finite y = true -> is_finite c = true ->
  (0 < exact_units c)%Z ->
  (exact_units c <= exact_units x - exact_units y)%Z ->
  (x - y <? c) = false.
Proof.
  intros Fx Fy Fc Hc HD.
  destruct (is_finite (x - y)) eqn:Fr.
  - rewrite (ltb_units _ _ Fr Fc). apply Z.ltb_ge.
    unfold exact_units in *. rewrite sub_spec. unfold SF64sub.
    apply is_finite_spec in Fx, Fy, Fc.
    pose proof (Prim2SF_valid c) as Vc.
    destruct (Prim2SF c) as [sc | sc | | sc mc ec]; cbn [sf_finite] in Fc;
      try contradiction; cbn [units] in Hc, HD |- *; try lia.
    destruct (valid_finite_facts _ _ _ Vc) as (_ & He & Hm).
    destruct sc; cbn [cond_Zopp] in *.
    { assert (P : (0 <= Zpos mc * 2 ^ (ec + 1074))%Z)
        by (apply Z.mul_nonneg_nonneg; [lia | apply Z.pow_nonneg; lia]).
      lia. }
    destruct (SFsub_lower (Prim2SF x) (Prim2SF y) (Zpos mc) ec)
      as [Hinf | [_ Hlow]]; try apply Prim2SF_valid; try assumption; try lia.
    apply is_finite_spec in Fr. rewrite sub_spec in Fr. unfold SF64sub in Fr.
    rewrite Hinf in Fr. contradiction.
  - rewrite ltb_spec, sub_spec. unfold SF64sub.
    apply is_finite_spec in Fx, Fy, Fc.
    pose proof (Prim2SF_valid c) as Vc.
    destruct (Prim2SF c) as [sc | sc | | sc mc ec] eqn:Ec;
      cbn [sf_finite] in Fc; try contradiction;
      unfold exact_units in Hc, HD; rewrite ?Ec in Hc, HD;
      cbn [units] in Hc, HD; try lia.
    destruct (valid_finite_facts _ _ _ Vc) as (_ & He & Hm).
    destruct sc; cbn [cond_Zopp] in *.
    { assert (P : (0 <= Zpos mc * 2 ^ (ec + 1074))%Z)
        by (apply Z.mul_nonneg_nonneg; [lia | apply Z.pow_nonneg; lia]).
      lia. }
    destruct (SFsub_lower (Prim2SF x) (Prim2SF y) (Zpos mc) ec)
      as [Hinf | [Hfin _]]; try apply Prim2SF_valid; try assumption; try lia.
    + rewrite Hinf. reflexivity.
    + exfalso. assert (T : is_finite (x - y) = true).
      { apply is_finite_spec. rewrite sub_spec. exact Hfin. }
      congruence.
Qed.

End FloatExact.
(** * Properties *)

Import FloatOrder FloatShape.

Local Open Scope list_scope.
Local Open Scope float_scope.

(** ** Nearest entry of a table: the loop keeps the first minimum *)

Section FirstMinimum.

Variable A : Type.
Variable d : A -> number.

Definition keep_nearer (best f : A) : A := if d f <? d best then f else best.

(** [best] sits at index [k] of the entries seen so far, none of them is
    nearer, and all the ones before it are strictly farther. *)
Definition first_min (seen : list A) (k : nat) (best : A) : Prop :=
  nth_error seen k = Some best /\
  (forall j g, nth_error seen j = Some g -> (d best <=? d g) = true) /\
  (forall j g, nth_error seen j = Some g -> (j < k)%nat -> (d best <? d g) = true).

Lemma first_min_step seen k best f :
  is_nan (d f) = false ->
  (forall g, In g seen -> is_nan (d g) = false) ->
  first_min seen k best ->
  exists k', first_min (seen ++ [f]) k' (keep_nearer best f).
Proof.
  intros Nf Nseen (Hk & Hle & Hlt). unfold keep_nearer.
  assert (Nb : is_nan (d best) = false)
    by (apply Nseen; eapply nth_error_In; eassumption).
  destruct (d f <? d best) eqn:E.
  - exists (List.length seen). repeat split.
    + rewrite nth_error_app2, Nat.sub_diag by lia. reflexivity.
    + intros j g Hj.
      destruct (Nat.lt_ge_cases j (List.length seen)) as [Lj | Lj].
      * rewrite nth_error_app1 in Hj by assumption.
        apply ltb_leb. eapply ltb_leb_trans; [exact E | eapply Hle; exact Hj].
      * rewrite nth_error_app2 in Hj by assumption.
        destruct (j - List.length seen)%nat as [| [| ?]]; cbn in Hj;
          try discriminate.
        injection Hj as <-. apply leb_refl; assumption.
    + intros j g Hj Lj. rewrite nth_error_app1 in Hj by assumption.
      eapply ltb_leb_trans; [exact E | eapply Hle; exact Hj].
  - exists k. repeat split.
    + rewrite nth_error_app1; [assumption |].
      apply nth_error_Some; congruence.
    + intros j g Hj.
      destruct (Nat.lt_ge_cases j (List.length seen)) as [Lj | Lj].
      * rewrite nth_error_app1 in Hj by assumption. eapply Hle; exact Hj.
      * rewrite nth_error_app2 in Hj by assumption.
        destruct (j - List.length seen)%nat as [| [| ?]]; cbn in Hj;
          try discriminate.
        injection Hj as <-. rewrite leb_negb_ltb, E by assumption. reflexivity.
    + intros j g Hj Lj.
      assert (Lk : (k < List.length seen)%nat)
        by (apply nth_error_Some; congruence).
      rewrite nth_error_app1 in Hj by lia. eapply Hlt; eassumption.
Qed.

Lemma first_min_fold rest :
  forall seen k best,
    (forall g, In g (seen ++ rest) -> is_nan (d g) = false) ->
    first_min seen k best ->
    exists k', first_min (seen ++ rest) k' (fold_left keep_nearer rest best).
Proof.
  induction rest as [| f rest IH]; intros seen k best Nn Inv.
  - rewrite app_nil_r. exists k. exact Inv.
  - cbn [fold_left].
    destruct (first_min_step seen k best f) as [k1 Inv1]; try assumption.
    + apply Nn. apply in_or_app. right. left. reflexivity.
    + intros g Hg. apply Nn. apply in_or_app. left. exact Hg.
    + replace (seen ++ f :: rest) with ((seen ++ [f]) ++ rest) in *
        by (rewrite <- app_assoc; reflexivity).
      apply (IH (seen ++ [f]) k1); assumption.
Qed.

End FirstMinimum.

(** ** Correction-amount formatter *)

Import FloatSub FloatExact.

Lemma is_finite_abs x : is_finite (abs x) = is_finite x.
Proof.
  destruct (is_finite x) eqn:E.
  - apply is_finite_spec. apply is_finite_spec in E. rewrite abs_spec.
    destruct (Prim2SF x); cbn in *; auto.
  - destruct (is_finite (abs x)) eqn:E'; [| reflexivity].
    apply is_finite_spec in E'. rewrite abs_spec in E'.
    assert (F : sf_finite (Prim2SF x)) by (destruct (Prim2SF x); cbn in *; auto).
    apply is_finite_spec in F. congruence.
Qed.

Lemma abs_not_finite x :
  is_finite x = false -> abs x = infinity \/ abs x = nan.
Proof.
  intros E.
  assert (F : ~ sf_finite (Prim2SF x))
    by (intros F; apply is_finite_spec in F; congruence).
  destruct (Prim2SF x) as [sx | sx | | sx m e] eqn:P; cbn in F; try tauto.
  - left. apply Prim2SF_inj. rewrite abs_spec, P. reflexivity.
  - right. apply Prim2SF_inj. rewrite abs_spec, P. reflexivity.
Qed.

Lemma toNum_finite n fallback :
  is_finite fallback = true -> is_finite (toNum n fallback) = true.
Proof.
  intros F. unfold toNum, isFinite. destruct (is_finite n) eqn:E; assumption.
Qed.

Lemma fracMap_values_finite :
  forall g, In g fracMap -> is_finite (val g) = true.
Proof.
  assert (H : forallb (fun g => is_finite (val g)) fracMap = true)
    by (vm_compute; reflexivity).
  intros g Hg. rewrite forallb_forall in H. apply H. exact Hg.
Qed.

Lemma frac_dist_not_nan a g :
  is_finite a = true -> In g fracMap -> is_nan (frac_dist a g) = false.
Proof.
  intros Fa Hg. unfold frac_dist. rewrite is_nan_abs.
  apply sub_finite_not_nan; [apply fracMap_values_finite; exact Hg | exact Fa].
Qed.

(** For a finite magnitude the loop ends on the first entry of the table at
    minimal distance. *)
Lemma nearestFraction_first_min a :
  is_finite a = true ->
  exists k, first_min frac (frac_dist a) fracMap k (nearestFraction a).
Proof.
  intros Fa. unfold nearestFraction.
  change fracMap with ([frac0] ++ tl fracMap).
  change (fold_left (nearest_step a) ([frac0] ++ tl fracMap) frac0)
    with (fold_left (keep_nearer frac (frac_dist a)) (tl fracMap)
            (keep_nearer frac (frac_dist a) frac0 frac0)).
  unfold keep_nearer at 2. rewrite ltb_irrefl.
  apply (first_min_fold frac (frac_dist a) (tl fracMap) [frac0] O frac0).
  - intros g Hg. apply frac_dist_not_nan; assumption.
  - repeat split.
    + intros j g Hj. destruct j as [| [| j]]; cbn in Hj; try discriminate.
      injection Hj as <-. apply leb_refl. apply frac_dist_not_nan; [assumption |].
      left. reflexivity.
    + intros j g _ Hj. lia.
Qed.

(** When the input is not a finite number the magnitude searched is [0] and
    the first entry is returned; measured against an infinite or NaN
    magnitude no entry of the table is nearer than another. *)
Lemma frac_dist_degenerate a g g' :
  a = infinity \/ a = nan -> In g fracMap -> In g' fracMap ->
  (frac_dist a g <? frac_dist a g') = false.
Proof.
  intros Ha Hg Hg'.
  assert (H : forall a0, a0 = infinity \/ a0 = nan ->
            forallb (fun x => forallb (fun x' =>
              negb (frac_dist a0 x <? frac_dist a0 x')) fracMap) fracMap = true)
    by (intros a0 [-> | ->]; vm_compute; reflexivity).
  specialize (H a Ha). rewrite forallb_forall in H.
  specialize (H g Hg). rewrite forallb_forall in H.
  specialize (H g' Hg'). destruct (frac_dist a g <? frac_dist a g');
    [discriminate | reflexivity].
Qed.

(** The exact distance of a table entry to a magnitude, in units of
    [2^-1074]. *)
Definition exact_dist (a : number) (f : frac) : Z :=
  Z.abs (exact_units (val f) - exact_units a).

(** The magnitudes for which the computed distances order the entries as
    the exact distances do: those below [2^49]. *)
Definition exact_range : number := 562949953421312.

Lemma fracMap_exact_values :
  forall g, In g fracMap ->
    (0 <= exact_units (val g))%Z /\ (2 ^ 1070 | exact_units (val g))%Z.
Proof.
  assert (H : forallb (fun g => (0 <=? exact_units (val g))%Z &&
                                (exact_units (val g) mod 2 ^ 1070 =? 0)%Z)
                fracMap = true) by (vm_compute; reflexivity).
  intros g Hg. rewrite forallb_forall in H. specialize (H g Hg).
  apply andb_true_iff in H. destruct H as [H1 H2].
  apply Z.leb_le in H1. apply Z.eqb_eq in H2.
  split; [exact H1 |]. apply Z.mod_divide; [| exact H2].
  apply Z.pow_nonzero; lia.
Qed.

Lemma in_range_finite v :
  (abs v <? exact_range) = true -> is_finite v = true.
Proof.
  intros L. apply is_finite_spec. rewrite ltb_spec, abs_spec in L.
  destruct (Prim2SF v) as [sv | sv | | sv mv ev]; cbn [sf_finite SFabs] in *;
    auto; vm_compute in L; discriminate L.
Qed.

(** Below [2^49] the last mantissa bit of a magnitude weighs at most a
    sixteenth, the step of the table. *)
Lemma in_range_quantum a :
  is_finite a = true -> (0 <= exact_units a < 2 ^ 1123)%Z ->
  (quantum (Prim2SF a) | 2 ^ 1070)%Z /\
  (quantum (Prim2SF a) | exact_units a)%Z.
Proof.
  intros Fa L. unfold exact_units in *.
  pose proof (Prim2SF_valid a) as V.
  destruct (Prim2SF a) as [sa | sa | | sa ma ea]; cbn [quantum units] in *;
    try (split; [apply Z.divide_1_l | apply Z.divide_0_r]).
  destruct (valid_finite_facts _ _ _ V) as (C & He & _).
  destruct (canonical_facts ma ea C) as (_ & _ & Hd).
  assert (Le : (ea + 1074 <= 1070)%Z).
  { destruct Hd as [Hd | Hd]; [| lia].
    assert (P0 : (0 < Zpos ma * 2 ^ (ea + 1074))%Z)
      by (apply Z.mul_pos_pos; [lia | apply Z.pow_pos_nonneg; lia]).
    destruct sa; cbn [cond_Zopp] in L; [lia |].
    - destruct (Z_le_gt_dec (ea + 1074) 1070) as [? | G]; [assumption |].
      exfalso. pose proof (digits2_pos_bounds ma) as [Hlo _].
      rewrite Hd in Hlo.
      assert (P1 : (2 ^ 1071 <= 2 ^ (ea + 1074))%Z)
        by (apply Z.pow_le_mono_r; lia).
      assert (P2 : (2 ^ (53 - 1) * 2 ^ 1071 <= Zpos ma * 2 ^ (ea + 1074))%Z)
        by (apply Z.mul_le_mono_nonneg; lia).
      change (2 ^ (53 - 1) * 2 ^ 1071)%Z with (2 ^ 1123)%Z in P2. lia. }
  split.
  - exists (2 ^ (1070 - (ea + 1074)))%Z.
    rewrite <- Z.pow_add_r by lia. f_equal. lia.
  - destruct sa; cbn [cond_Zopp].
    + exists (- Zpos ma)%Z. lia.
    + exists (Zpos ma). reflexivity.
Qed.

Section ExactNearest.

Variable a : number.
Hypothesis a_finite : is_finite a = true.
Hypothesis a_nonneg : (0 <= exact_units a)%Z.
Hypothesis a_range : (exact_units a < 2 ^ 1123)%Z.

(** An entry not above twice the magnitude: its distance is computed
    exactly. *)
Lemma near_entry_exact g :
  In g fracMap -> (exact_units (val g) <= 2 * exact_units a)%Z ->
  is_finite (frac_dist a g) = true /\
  exact_units (frac_dist a g) = exact_dist a g.
Proof.
  intros Hg HT. unfold frac_dist, exact_dist.
  destruct (fracMap_exact_values g Hg) as [T0 TD].
  destruct (in_range_quantum a a_finite (conj a_nonneg a_range)) as [Q1 Q2].
  destruct (sub_exact (val g) a a) as [Fr Er];
    try assumption; try (apply fracMap_values_finite; exact Hg); try lia.
  - apply Z.divide_sub_r; [| exact Q2].
    eapply Z.divide_trans; [exact Q1 | exact TD].
  - rewrite is_finite_abs, abs_units, Er. split; [exact Fr | reflexivity].
Qed.

Lemma first_entry_exact :
  is_finite (frac_dist a frac0) = true /\
  exact_units (frac_dist a frac0) = exact_units a.
Proof.
  destruct (near_entry_exact frac0) as [F E].
  - left. reflexivity.
  - change (exact_units (val frac0)) with 0%Z. lia.
  - split; [exact F |]. rewrite E. unfold exact_dist.
    change (exact_units (val frac0)) with 0%Z. lia.
Qed.

(** An entry above twice the magnitude: its computed distance is not below
    that of the first entry, which is the magnitude itself. *)
Lemma far_entry_not_nearer g :
  In g fracMap -> (2 * exact_units a < exact_units (val g))%Z ->
  (frac_dist a g <? frac_dist a frac0) = false.
Proof.
  intros Hg HT. destruct first_entry_exact as [F0 E0].
  pose proof (fracMap_values_finite g Hg) as Fg.
  unfold frac_dist at 1.
  destruct (is_finite (val g - a)) eqn:Fr.
  - rewrite ltb_units by (rewrite ?is_finite_abs; assumption).
    rewrite abs_units, E0. apply Z.ltb_ge.
    destruct (Z.eq_dec (exact_units a) 0) as [Z0 | NZ]; [lia |].
    pose proof (sub_lower (val g) a a Fg a_finite a_finite
                  ltac:(lia) ltac:(lia)) as L.
    rewrite (ltb_units _ _ Fr a_finite) in L. apply Z.ltb_ge in L. lia.
  - destruct (abs_not_finite _ Fr) as [-> | ->].
    + rewrite ltb_spec.
      destruct (Prim2SF (frac_dist a frac0)) as [? | [|] | | ? ? ?];
        reflexivity.
    + rewrite ltb_spec.
      destruct (Prim2SF (frac_dist a frac0)); reflexivity.
Qed.

(** Below [2^49] the entry the loop ends on is the closest entry of the
    table in exact arithmetic, the first one among equally close ones. *)
Lemma nearestFraction_exact :
  exists k,
    nth_error fracMap k = Some (nearestFraction a) /\
    (forall g, In g fracMap ->
       (exact_dist a (nearestFraction a) <= exact_dist a g)%Z) /\
    (forall j g, nth_error fracMap j = Some g -> (j < k)%nat ->
       (exact_dist a (nearestFraction a) < exact_dist a g)%Z).
Proof.
  destruct (nearestFraction_first_min a a_finite) as (k & Hk & Hle & Hlt).
  set (b := nearestFraction a) in *.
  assert (Hb : In b fracMap) by (eapply nth_error_In; exact Hk).
  destruct first_entry_exact as [F0 E0].
  assert (H0 : nth_error fracMap 0 = Some frac0) by reflexivity.
  assert (Tb : (exact_units (val b) <= 2 * exact_units a)%Z).
  { destruct (Z_le_gt_dec (exact_units (val b)) (2 * exact_units a))
      as [L | G]; [exact L | exfalso].
    destruct k as [| k].
    - rewrite H0 in Hk. injection Hk as Eb. rewrite <- Eb in G.
      change (exact_units (val frac0)) with 0%Z in G. lia.
    - pose proof (Hlt O frac0 H0 ltac:(lia)) as L.
      rewrite (far_entry_not_nearer b Hb ltac:(lia)) in L. discriminate L. }
  destruct (near_entry_exact b Hb Tb) as [Fb Eb].
  assert (Near : forall j g, nth_error fracMap j = Some g ->
            (exact_units (val g) <= 2 * exact_units a)%Z ->
            (exact_dist a b <= exact_dist a g)%Z /\
            ((j < k)%nat -> (exact_dist a b < exact_dist a g)%Z)).
  { intros j g Hj Tg.
    assert (Hg : In g fracMap) by (eapply nth_error_In; exact Hj).
    destruct (near_entry_exact g Hg Tg) as [Fg Eg].
    rewrite <- Eb, <- Eg. split.
    - pose proof (Hle j g Hj) as L. rewrite (leb_units _ _ Fb Fg) in L.
      apply Z.leb_le in L. exact L.
    - intros Lj. pose proof (Hlt j g Hj Lj) as L.
      rewrite (ltb_units _ _ Fb Fg) in L. apply Z.ltb_lt in L. exact L. }
  assert (D0 : (exact_dist a b <= exact_units a)%Z).
  { destruct (Near O frac0 H0) as [L _].
    - change (exact_units (val frac0)) with 0%Z. lia.
    - unfold exact_dist at 2 in L.
      change (exact_units (val frac0)) with 0%Z in L. lia. }
  assert (Far : forall g, In g fracMap ->
            (2 * exact_units a < exact_units (val g))%Z ->
            (exact_dist a b < exact_dist a g)%Z).
  { intros g Hg Tg. unfold exact_dist at 2. lia. }
  exists k. split; [exact Hk | split].
  - intros g Hg. destruct (In_nth_error _ _ Hg) as [j Hj].
    destruct (Z_le_gt_dec (exact_units (val g)) (2 * exact_units a))
      as [L | G].
    + apply (Near j g Hj L).
    + apply Z.lt_le_incl. apply Far; [exact Hg | lia].
  - intros j g Hj Lj.
    assert (Hg : In g fracMap) by (eapply nth_error_In; exact Hj).
    destruct (Z_le_gt_dec (exact_units (val g)) (2 * exact_units a))
      as [L | G].
    + apply (Near j g Hj L). exact Lj.
    + apply Far; [exact Hg | lia].
Qed.

End ExactNearest.

(** C5 (amended). For every input of magnitude below [2^49],
    [nearestFractionStringInches] returns the label of the entry of the
    18-entry table that is closest to [abs(valueIn)] by absolute difference,
    exactly, and the first such entry on a tie.  For every input whatsoever
    it returns the label of the entry whose distance
    [Math.abs(f.val - abs)], as binary64 arithmetic computes it, is smallest:
    no entry has a strictly smaller computed distance, every entry before
    the chosen one has a strictly larger one, and whenever [valueIn] is not
    NaN the chosen computed distance is at most every other one.  On the
    three inputs of the spec the labels are the quarter inch, the zero and
    the largest entry; at 1e17, where every computed distance is 1e17, the
    label is the zero. *)
Theorem nearestFraction_closest_first :
  (forall valueIn : number,
      (abs valueIn <? exact_range) = true ->
      exists k f,
        nth_error fracMap k = Some f /\
        nearestFractionStringInches valueIn = s f /\
        (forall g, In g fracMap ->
           (exact_dist (abs valueIn) f <= exact_dist (abs valueIn) g)%Z) /\
        (forall j g, nth_error fracMap j = Some g -> (j < k)%nat ->
           (exact_dist (abs valueIn) f < exact_dist (abs valueIn) g)%Z)) /\
  (forall valueIn : number,
      exists k f,
        nth_error fracMap k = Some f /\
        nearestFractionStringInches valueIn = s f /\
        (forall j g, nth_error fracMap j = Some g ->
           (frac_dist (abs valueIn) g <? frac_dist (abs valueIn) f) = false) /\
        (forall j g, nth_error fracMap j = Some g -> (j < k)%nat ->
           (frac_dist (abs valueIn) f <? frac_dist (abs valueIn) g) = true) /\
        (is_nan valueIn = false ->
         forall j g, nth_error fracMap j = Some g ->
           (frac_dist (abs valueIn) f <=? frac_dist (abs valueIn) g) = true)) /\
  exact_units exact_range = (2 ^ 49 * 2 ^ 1074)%Z /\
  List.length fracMap = 18%nat /\
  nearestFractionStringInches 0.26 = ("1/4" ++ inch_mark)%string /\
  nearestFractionStringInches 0.0 = ("0" ++ inch_mark)%string /\
  nearestFractionStringInches 10.0 = ("3" ++ inch_mark)%string /\
  nearestFractionStringInches 1e17 = ("0" ++ inch_mark)%string /\
  forallb (fun g => frac_dist 1e17 g =? 1e17) fracMap = true.
Proof.
  split.
  { intros valueIn L.
    pose proof (in_range_finite valueIn L) as F.
    assert (Fa : is_finite (abs valueIn) = true) by (rewrite is_finite_abs; exact F).
    assert (Fr : is_finite exact_range = true) by reflexivity.
    assert (N : (0 <= exact_units (abs valueIn))%Z)
      by (rewrite abs_units; apply Z.abs_nonneg).
    assert (R : (exact_units (abs valueIn) < 2 ^ 1123)%Z).
    { rewrite (ltb_units _ _ Fa Fr) in L. apply Z.ltb_lt in L.
      replace (exact_units exact_range) with (2 ^ 1123)%Z in L
        by (vm_compute; reflexivity).
      exact L. }
    destruct (nearestFraction_exact (abs valueIn) Fa N R) as (k & Hk & Hle & Hlt).
    exists k, (nearestFraction (abs valueIn)).
    split; [exact Hk | split; [| split; [exact Hle | exact Hlt]]].
    unfold nearestFractionStringInches, toNum, isFinite. rewrite F.
    reflexivity. }
  split; [| repeat split; vm_compute; reflexivity].
  intros valueIn. unfold nearestFractionStringInches, toNum, isFinite.
  destruct (is_finite valueIn) eqn:F.
  - assert (Fa : is_finite (abs valueIn) = true) by (rewrite is_finite_abs; exact F).
    destruct (nearestFraction_first_min (abs valueIn) Fa) as (k & Hk & Hle & Hlt).
    exists k, (nearestFraction (abs valueIn)). repeat split; try assumption.
    + intros j g Hj.
      rewrite ltb_negb_leb, (Hle j g Hj); [reflexivity | |];
        apply frac_dist_not_nan; try assumption;
        eapply nth_error_In; eassumption.
    + intros _ j g Hj. exact (Hle j g Hj).
  - exists O, frac0.
    assert (E : nearestFraction (abs 0) = frac0) by (vm_compute; reflexivity).
    rewrite E. repeat split.
    + intros j g Hj. apply frac_dist_degenerate.
      * apply abs_not_finite; exact F.
      * eapply nth_error_In; exact Hj.
      * left; reflexivity.
    + intros j g _ Hj. lia.
    + intros N j g Hj.
      destruct (abs_not_finite valueIn F) as [I | I].
      * rewrite I.
        assert (H : forallb (fun x => frac_dist infinity frac0 <=? frac_dist infinity x)
                      fracMap = true) by (vm_compute; reflexivity).
        rewrite forallb_forall in H. apply H. eapply nth_error_In; exact Hj.
      * rewrite <- is_nan_abs, I in N. discriminate N.
Qed.

(** C5, counterexample. At 1e17 the entry returned is the first one, at the
    exact distance 1e17, although the last entry, 3, is nearer by 3: the
    entry returned is not the closest one by absolute difference. *)
Lemma nearestFraction_large_counterexample :
  ~ (forall g, In g fracMap ->
       Z.le (exact_dist (abs 1e17) (nearestFraction (abs (toNum 1e17 0))))
            (exact_dist (abs 1e17) g)).
Proof.
  intros H.
  specialize (H {| val := 3.0; s := ("3" ++ inch_mark)%string |}).
  assert (Hin : In {| val := 3.0; s := ("3" ++ inch_mark)%string |} fracMap)
    by (unfold fracMap; repeat (try (left; reflexivity); right)).
  specialize (H Hin). vm_compute in H. apply H. reflexivity.
Qed.

(** ** Rate of change per 20 ft *)

Section RateOfChange.

Variable stationFt : list number.
Variable i : nat.

(** A point the inner loop can select: another index, at a separation that
    is not [<= 0], whose distance to the 20 ft reference is below the initial
    [bestDx = Infinity]. *)
Definition candidate (j : nat) : Prop :=
  j <> i /\
  (separation stationFt i j <=? 0) = false /\
  (diffTo20 stationFt i j <? infinity) = true.

(** [j] is the first candidate below [n] at minimal distance to the
    reference. *)
Definition selected (n j : nat) : Prop :=
  (j < n)%nat /\ candidate j /\
  (forall k, (k < n)%nat -> candidate k ->
     (diffTo20 stationFt i j <=? diffTo20 stationFt i k) = true) /\
  (forall k, (k < j)%nat -> candidate k ->
     (diffTo20 stationFt i j <? diffTo20 stationFt i k) = true).

Definition scan_inv (n : nat) (st : scan_state) : Prop :=
  match fst st with
  | None => snd st = infinity /\ forall j, (j < n)%nat -> ~ candidate j
  | Some b => selected n b /\ snd st = diffTo20 stationFt i b
  end.

Lemma candidate_not_nan j : candidate j -> is_nan (diffTo20 stationFt i j) = false.
Proof. intros (_ & _ & H). apply ltb_nn in H. tauto. Qed.

Lemma scan_step_inv n st :
  scan_inv n st -> scan_inv (S n) (scan_step stationFt i st n).
Proof.
  destruct st as [bestJ bestDx]. unfold scan_inv, scan_step; cbn [fst snd].
  intros Inv.
  destruct (Nat.eqb_spec n i) as [-> | Hni].
  { (* j === i: continue *)
    destruct bestJ as [b |]; cbn [fst snd].
    - destruct Inv as ((Hb & Cb & Hmin & Hfirst) & ->). split; [| reflexivity].
      repeat split; try assumption; try lia; try apply Cb.
      intros k Hk Ck. destruct (Nat.eq_dec k i) as [-> | Hki].
      + destruct Ck as (Ck & _). congruence.
      + apply Hmin; [lia | exact Ck].
    - destruct Inv as (-> & Hnone). split; [reflexivity |].
      intros j Hj Cj. destruct (Nat.eq_dec j i) as [-> | Hji].
      + destruct Cj as (Cj & _). congruence.
      + apply (Hnone j); [lia | exact Cj]. }
  destruct (separation stationFt i n <=? 0) eqn:Hsep.
  { (* dx <= 0: continue *)
    destruct bestJ as [b |]; cbn [fst snd].
    - destruct Inv as ((Hb & Cb & Hmin & Hfirst) & ->). split; [| reflexivity].
      repeat split; try assumption; try lia; try apply Cb.
      intros k Hk Ck. destruct (Nat.eq_dec k n) as [-> | Hkn].
      + destruct Ck as (_ & Ck & _). congruence.
      + apply Hmin; [lia | exact Ck].
    - destruct Inv as (-> & Hnone). split; [reflexivity |].
      intros j Hj Cj. destruct (Nat.eq_dec j n) as [-> | Hjn].
      + destruct Cj as (_ & Cj & _). congruence.
      + apply (Hnone j); [lia | exact Cj]. }
  destruct (diffTo20 stationFt i n <? bestDx) eqn:Hlt; cbn [fst snd].
  - (* a strictly better neighbour *)
    split; [| reflexivity].
    destruct bestJ as [b |]; cbn [fst snd] in Inv.
    + destruct Inv as ((Hb & Cb & Hmin & Hfirst) & ->).
      assert (Cn : candidate n).
      { repeat split; try assumption.
        eapply ltb_trans; [exact Hlt | apply Cb]. }
      repeat split; try assumption; try lia; try apply Cn.
      * intros k Hk Ck. destruct (Nat.eq_dec k n) as [-> | Hkn].
        -- apply leb_refl. apply candidate_not_nan. exact Cn.
        -- apply ltb_leb. eapply ltb_leb_trans; [exact Hlt |].
           apply Hmin; [lia | exact Ck].
      * intros k Hk Ck. eapply ltb_leb_trans; [exact Hlt |].
        apply Hmin; [lia | exact Ck].
    + destruct Inv as (-> & Hnone).
      assert (Cn : candidate n) by (repeat split; assumption).
      repeat split; try assumption; try lia; try apply Cn.
      * intros k Hk Ck. destruct (Nat.eq_dec k n) as [-> | Hkn].
        -- apply leb_refl. apply candidate_not_nan. exact Cn.
        -- exfalso. apply (Hnone k); [lia | exact Ck].
      * intros k Hk Ck. exfalso. apply (Hnone k); [lia | exact Ck].
  - (* not better: keep the state *)
    destruct bestJ as [b |]; cbn [fst snd] in *.
    + destruct Inv as ((Hb & Cb & Hmin & Hfirst) & ->). split; [| reflexivity].
      repeat split; try assumption; try lia; try apply Cb.
      intros k Hk Ck. destruct (Nat.eq_dec k n) as [-> | Hkn].
      * rewrite leb_negb_ltb, Hlt; [reflexivity | |];
          apply candidate_not_nan; assumption.
      * apply Hmin; [lia | exact Ck].
    + destruct Inv as (-> & Hnone). split; [reflexivity |].
      intros j Hj Cj. destruct (Nat.eq_dec j n) as [-> | Hjn].
      * destruct Cj as (_ & _ & Cj). congruence.
      * apply (Hnone j); [lia | exact Cj].
Qed.

Lemma scan_invariant n : scan_inv n (scan stationFt n i).
Proof.
  unfold scan. induction n as [| n IH].
  - cbn. split; [reflexivity | intros j Hj; lia].
  - rewrite seq_S, fold_left_app. cbn [fold_left Nat.add].
    apply scan_step_inv. exact IH.
Qed.

End RateOfChange.

Lemma rateOfChange_length stationFt y :
  List.length (rateOfChangePer20ft stationFt y) = List.length y.
Proof. unfold rateOfChangePer20ft. rewrite length_map, length_seq. reflexivity. Qed.

Lemma rateOfChange_nth stationFt y i :
  (i < List.length y)%nat ->
  nth_error (rateOfChangePer20ft stationFt y) i = Some (rate_at stationFt y i).
Proof.
  intros Hi. unfold rateOfChangePer20ft.
  rewrite nth_error_map, nth_error_nth' with (d := O) by (rewrite length_seq; exact Hi).
  rewrite seq_nth by exact Hi. reflexivity.
Qed.

(** The entry of point [i], read off the state the scan ends in. *)
Lemma rate_at_cases stationFt y i :
  (exists j, selected stationFt i (List.length y) j /\
             rate_at stationFt y i = per20 stationFt y i j) \/
  ((forall j, (j < List.length y)%nat -> ~ candidate stationFt i j) /\
   rate_at stationFt y i = 0).
Proof.
  pose proof (scan_invariant stationFt i (List.length y)) as Inv.
  unfold rate_at, scan_inv in *.
  destruct (fst (scan stationFt (List.length y) i)) as [b |].
  - left. exists b. split; [apply Inv | reflexivity].
  - right. split; [apply Inv | reflexivity].
Qed.

(** What the scan leaves for point [i] of a series of [n] values: the rate
    towards the first candidate nearest to the 20 ft reference, or [0] when
    there is no candidate. *)
Definition rate_outcome (stationFt y : list number) (i : nat) : Prop :=
  (exists j,
      selected stationFt i (List.length y) j /\
      nth_error (rateOfChangePer20ft stationFt y) i
      = Some (abs (at_index y i - at_index y j)
              * (20 / abs (at_index stationFt i - at_index stationFt j)))) \/
  ((forall j, (j < List.length y)%nat -> ~ candidate stationFt i j) /\
   nth_error (rateOfChangePer20ft stationFt y) i = Some 0).

(** C1 (amended). For every series, the rate at point [i] comes from a scan
    of all other points [j] that leaves out the points at zero separation and
    the points whose distance to the reference [abs(abs(s_i - s_j) - 20)] is
    not below [+Infinity]; among the remaining candidates the one with the
    least distance is taken, the first in input order on ties, and the rate
    is [abs(v_i - v_j) * (20 / abs(s_i - s_j))]; with no candidate the rate
    is [0]. *)
Theorem rateOfChange_nearest_to_reference :
  forall (stationFt y : list number) (i : nat),
    (i < List.length y)%nat -> rate_outcome stationFt y i.
Proof.
  intros stationFt y i Hi. unfold rate_outcome.
  rewrite (rateOfChange_nth stationFt y i Hi).
  destruct (rate_at_cases stationFt y i) as [(j & Hsel & E) | (Hnone & E)].
  - left. exists j. split; [exact Hsel |]. rewrite E. reflexivity.
  - right. split; [exact Hnone |]. rewrite E. reflexivity.
Qed.

Lemma rateOfChange_nearest_to_reference_witness :
  (2 < List.length [0; 0; 0.3]%float)%nat /\ rate_outcome [0; 10; 20] [0; 0; 0.3] 2.
Proof.
  split; [cbn; lia |].
  apply (rateOfChange_nearest_to_reference [0; 10; 20] [0; 0; 0.3] 2).
  cbn; lia.
Defined.

(** The claim as the spec words it: every other point at a separation that is
    not zero takes part in the minimisation. *)
Definition neighbour (stationFt : list number) (i j : nat) : Prop :=
  j <> i /\ (separation stationFt i j <=? 0) = false.

Definition nearest_neighbour (stationFt : list number) (n i j : nat) : Prop :=
  (j < n)%nat /\ neighbour stationFt i j /\
  (forall k, (k < n)%nat -> neighbour stationFt i k ->
     (diffTo20 stationFt i j <=? diffTo20 stationFt i k) = true) /\
  (forall k, (k < j)%nat -> neighbour stationFt i k ->
     (diffTo20 stationFt i j <? diffTo20 stationFt i k) = true).

Definition rate_as_specified (stationFt y : list number) (i : nat) : Prop :=
  (forall j, nearest_neighbour stationFt (List.length y) i j ->
     nth_error (rateOfChangePer20ft stationFt y) i
     = Some (per20 stationFt y i j)) /\
  ((forall j, (j < List.length y)%nat -> ~ neighbour stationFt i j) ->
   nth_error (rateOfChangePer20ft stationFt y) i = Some 0).

(** C1, counterexample. Two finite stations whose separation overflows: the
    second point is the only neighbour of the first and is at non-zero
    separation, so the stated rule selects it and asks for
    [Infinity * (20 / Infinity)], which is NaN; the code never selects a
    point whose distance to the reference is not below [Infinity] and
    returns [0]. *)
Lemma rateOfChange_overflow_counterexample :
  ~ rate_as_specified [1e308; -1e308] [1e308; -1e308] 0.
Proof.
  intros [H _]. specialize (H 1%nat).
  assert (N : nearest_neighbour [1e308; -1e308] 2 0 1).
  { repeat split.
    - lia.
    - lia.
    - intros k Hk [Hk0 _].
      assert (k = 1%nat) as -> by lia. vm_compute. reflexivity.
    - intros k Hk [Hk0 _]. lia. }
  specialize (H N).
  apply (f_equal (fun o => match o with Some r => is_nan r | None => false end))
    in H.
  vm_compute in H. discriminate H.
Qed.

(** *** Shape of the returned array *)

Lemma per20_pos_or_nan stationFt y i j :
  pos_or_nan (Prim2SF (per20 stationFt y i j)).
Proof.
  unfold per20, separation. apply mul_pos_or_nan.
  - apply abs_pos_or_nan.
  - apply div_pos_or_nan.
    + right. vm_compute. reflexivity.
    + apply abs_pos_or_nan.
Qed.

Lemma rate_at_not_negative stationFt y i :
  is_nan (rate_at stationFt y i) = true \/ (0 <=? rate_at stationFt y i) = true.
Proof.
  unfold rate_at. destruct (fst (scan stationFt (List.length y) i)) as [b |].
  - apply pos_or_nan_cases. apply per20_pos_or_nan.
  - right. vm_compute. reflexivity.
Qed.

(** Two stations that compare equal never make a candidate. *)
Lemma shared_position_not_candidate stationFt i j :
  (at_index stationFt i =? at_index stationFt j) = true ->
  ~ candidate stationFt i j.
Proof.
  intros E (_ & Hsep & Hdiff).
  destruct (sub_eqb _ _ E) as [[sg Z] | N].
  - assert (L : (separation stationFt i j <=? 0) = true).
    { unfold separation. rewrite leb_spec, abs_spec, Z. reflexivity. }
    congruence.
  - assert (L : (diffTo20 stationFt i j <? infinity) = false).
    { unfold diffTo20, separation.
      rewrite ltb_spec, abs_spec, sub_spec, abs_spec, N. reflexivity. }
    congruence.
Qed.

(** C10 (amended). [rateOfChangePer20ft] returns an array of the length of
    the value array; no entry is negative: each one is at least [0] or is
    NaN; and entry [i] is [0] whenever every other point shares the station
    position of point [i]. *)
Theorem rateOfChange_shape :
  forall stationFt y : list number,
    List.length (rateOfChangePer20ft stationFt y) = List.length y /\
    (forall r, In r (rateOfChangePer20ft stationFt y) ->
       is_nan r = true \/ (0 <=? r) = true) /\
    (forall i, (i < List.length y)%nat ->
       (forall j, (j < List.length y)%nat -> j <> i ->
          (at_index stationFt i =? at_index stationFt j) = true) ->
       nth_error (rateOfChangePer20ft stationFt y) i = Some 0).
Proof.
  intros stationFt y. split; [apply rateOfChange_length | split].
  - intros r Hr. unfold rateOfChangePer20ft in Hr.
    apply in_map_iff in Hr. destruct Hr as (i & <- & _).
    apply rate_at_not_negative.
  - intros i Hi Hshared. rewrite (rateOfChange_nth stationFt y i Hi).
    destruct (rate_at_cases stationFt y i) as [(j & Hsel & _) | (_ & E)].
    + exfalso. destruct Hsel as (Hj & Cj & _).
      apply (shared_position_not_candidate stationFt i j); [| exact Cj].
      apply Hshared; [exact Hj | apply Cj].
    + rewrite E. reflexivity.
Qed.

(** The invariant as the spec words it, for finite arrays of equal length. *)
Definition rates_nonnegative_as_specified (stationFt y : list number) : Prop :=
  forallb isFinite stationFt = true ->
  forallb isFinite y = true ->
  List.length stationFt = List.length y ->
  forall r, In r (rateOfChangePer20ft stationFt y) -> (0 <=? r) = true.

(** C10, counterexample. Two stations one subnormal step apart carrying the
    same value: [20 / dx] overflows to [Infinity], [abs(dy)] is [0], and the
    entry [0 * Infinity] is NaN, which is not [>= 0]. *)
Lemma rateOfChange_nan_counterexample :
  ~ rates_nonnegative_as_specified [0; 5e-324] [1; 1].
Proof.
  intros H.
  specialize (H eq_refl eq_refl eq_refl nan).
  assert (I : In nan (rateOfChangePer20ft [0; 5e-324] [1; 1]))
    by (vm_compute; left; reflexivity).
  specialize (H I). vm_compute in H. discriminate H.
Qed.

(** ** Per-point pass decision *)

(** C2. The magnitude check of a point is [abs(value) <= tolerance], with the
    boundary included: it holds exactly when [abs(value)] is below the
    tolerance or equal to it.  [0.30] against [0.25] fails and [0.25] against
    [0.25] passes.  The values and tolerances the two call sites compare have
    gone through [toNum], so they are finite, and on them the highlight
    decision of the cross-level diagram, [abs(value) > tolerance], is the
    negation of the pass decision. *)
Theorem magnitude_pass_inclusive :
  (forall value tol : number,
      magPass value tol = (abs value <? tol) || (abs value =? tol)) /\
  (forall data tol rateTol i,
      nMagPass (evaluateRow data tol rateTol i)
      = (abs (at_index (sd_railN data) i) <=? tol) /\
      sMagPass (evaluateRow data tol rateTol i)
      = (abs (at_index (sd_railS data) i) <=? tol)) /\
  (forall valueRaw tolRaw stationFt : number,
      let value := toNum valueRaw 0 in
      let tol := toNum tolRaw 0.375 in
      crossLevelFail tol {| Pt.stationFt := stationFt; Pt.valueIn := value |}
      = negb (magPass value tol)) /\
  magPass 0.30 0.25 = false /\
  magPass 0.25 0.25 = true /\
  magPass (-0.25) 0.25 = true.
Proof.
  split; [| split; [| split; [| repeat split; vm_compute; reflexivity]]].
  - intros value tol. unfold magPass. apply leb_ltb_eqb.
  - intros data tol rateTol i. split; reflexivity.
  - intros valueRaw tolRaw stationFt value tol.
    unfold crossLevelFail, magPass, gtb; cbn [Pt.valueIn].
    apply ltb_negb_leb.
    + apply is_finite_not_nan. apply toNum_finite. reflexivity.
    + rewrite is_nan_abs. apply is_finite_not_nan. apply toNum_finite.
      reflexivity.
Qed.

(** ** Guards of the station grid *)

Lemma stationOffsets_nonpositive_length fuel lengthFt spacingFt :
  (lengthFt <=? 0) = true -> stationOffsets (S fuel) lengthFt spacingFt = Some [].
Proof.
  intros L. unfold stationOffsets; cbn [stationOffsets_from].
  destruct (leb_nn _ _ L) as [Nl N0].
  rewrite (ltb_negb_leb 0 lengthFt N0 Nl), L. reflexivity.
Qed.

(** With a positive length and spacing [0] the loop variable never moves. *)
Lemma stationOffsets_zero_spacing_runs_on fuel :
  stationOffsets fuel 60 0 = None.
Proof.
  unfold stationOffsets. induction fuel as [| fuel IH]; [reflexivity |].
  cbn [stationOffsets_from].
  change (0 <? 60) with true. change (0 + 0) with 0. cbv iota.
  rewrite IH. reflexivity.
Qed.

(** The evaluation reads the spacing again, without the guard of
    [buildLayout]: with two columns, the design distance 60 on both sides and
    the spacing field set to 0, [collectCrossLevelSeries] never returns. *)
Lemma collectCrossLevelSeries_zero_spacing_runs_on fuel cross :
  collectCrossLevelSeries fuel 2 0 (fun _ => 60) (fun _ => 60) cross = None.
Proof.
  unfold collectCrossLevelSeries, segments.
  change (toNum 2 0) with 2. change (toNum 0 10) with 0.
  destruct fuel as [| fuel]; [reflexivity |].
  cbn [segments_from]. change (1 <? 2) with true. cbv iota.
  change (1 + 1) with 2.
  destruct fuel as [| fuel]; [reflexivity |].
  cbn [segments_from]. change (2 <? 2) with false. cbv iota.
  cbn [option_map collect_segments].
  change (Math_min [toNum 60 0; toNum 60 0]) with 60.
  rewrite stationOffsets_zero_spacing_runs_on. reflexivity.
Qed.

(** C3. What the claim asks for, an empty sequence for every non-positive
    length or spacing, holds of [stationOffsets] for every [lengthFt <= 0],
    whatever the spacing, and the form builders answer a non-positive
    spacing before any grid is built: [buildSurveyStations] shows a status
    message when the length or the spacing is [<= 0], and [buildLayout] when
    the spacing is [<= 0] (or there are fewer than 2 columns).
    [stationOffsets] itself has no such guard: with the length 60 and the
    spacing 0 it never returns, however many iterations it is given. *)
Theorem grid_guards :
  (forall fuel lengthFt spacingFt,
      (lengthFt <=? 0) = true ->
      stationOffsets (S fuel) lengthFt spacingFt = Some []) /\
  (forall fuel startRaw lenRaw stepRaw,
      (toNum lenRaw 0 <=? 0) = true \/ (toNum stepRaw 10 <=? 0) = true ->
      buildSurveyStations fuel startRaw lenRaw stepRaw
      = Some (Rejected buildSurveyStations_message)) /\
  (forall fuel columnsRaw spacingRaw,
      (toNum columnsRaw 0 <? 2) = true \/ (toNum spacingRaw 0 <=? 0) = true ->
      buildLayout fuel columnsRaw spacingRaw
      = Some (Rejected buildLayout_message)) /\
  (forall fuel, stationOffsets fuel 60 0 = None) /\
  stationOffsets 1 0 10 = Some [] /\
  stationOffsets 1 (-60) 0 = Some [] /\
  buildSurveyStations 0 0 60 0 = Some (Rejected buildSurveyStations_message) /\
  buildSurveyStations 0 0 (-5) 10 = Some (Rejected buildSurveyStations_message) /\
  buildLayout 0 3 0 = Some (Rejected buildLayout_message).
Proof.
  split; [| split; [| split; [| split;
    [| repeat split; vm_compute; reflexivity]]]].
  - intros fuel lengthFt spacingFt. apply stationOffsets_nonpositive_length.
  - intros fuel startRaw lenRaw stepRaw H. unfold buildSurveyStations.
    destruct H as [-> | ->]; rewrite ?orb_true_r; reflexivity.
  - intros fuel columnsRaw spacingRaw H.
    unfold buildLayout, buildLayout_rejects.
    destruct H as [-> | ->]; rewrite ?orb_true_r; reflexivity.
  - intros fuel. apply stationOffsets_zero_spacing_runs_on.
Qed.

(** C3, counterexample. For the positive length [60] and the non-positive
    spacing [0] the grid builder returns no list at all, however many
    iterations it is given: the loop variable stays at [0], below [60]. *)
Lemma stationOffsets_zero_spacing_counterexample :
  ~ (exists fuel, stationOffsets fuel 60 0 = Some []).
Proof.
  intros [fuel H]. rewrite stationOffsets_zero_spacing_runs_on in H.
  discriminate H.
Qed.

(** ** Tolerance resolution *)

Lemma find_first_match {A} (f : A -> bool) pre z post :
  Forall (fun a => f a = false) pre -> f z = true ->
  find f (pre ++ z :: post) = Some z.
Proof.
  induction 1 as [| a pre Ha _ IH]; intros Hz; cbn.
  - rewrite Hz. reflexivity.
  - rewrite Ha. apply IH. exact Hz.
Qed.

Lemma find_no_match {A} (f : A -> bool) l :
  Forall (fun a => f a = false) l -> find f l = None.
Proof.
  induction 1 as [| a l Ha _ IH]; cbn; [reflexivity |].
  rewrite Ha. exact IH.
Qed.

Lemma last_map_Some {A} (l : list A) (z : A) :
  last (map Some (l ++ [z])) None = Some z.
Proof.
  induction l as [| a l IH]; [reflexivity |].
  cbn [app map]. cbn [last]. destruct (map Some (l ++ [z])) eqn:E.
  - destruct l; discriminate E.
  - exact IH.
Qed.

(** The two zones of the spec's example. *)
Definition example_zones : list zone :=
  [ {| startFt := 0; endFt := 50; tolIn := 0.25 |};
    {| startFt := 50; endFt := 100; tolIn := 0.5 |} ].

(** C4 (amended). Membership in a zone is [startFt <= position <= endFt],
    both ends included, and both resolution functions return the tolerance of
    the first zone in input order that contains the position.  For a position
    that no zone contains they differ: [tolAt] returns the fallback its caller
    passes, while the chart's [tolAtStation] returns the tolerance of the last
    zone ([0] when there is no zone).  With the zones (0,50,0.25) and
    (50,100,0.5): position 25 resolves to 0.25, 75 to 0.5, the shared end 50
    to the first zone's 0.25, and 150 to the caller's fallback in [tolAt] and
    to 0.5 in [tolAtStation]. *)
Theorem tolerance_first_zone :
  (forall ft z, in_zone ft z = (startFt z <=? ft) && (ft <=? endFt z)) /\
  (forall ft pre z post fallbackTol,
      Forall (fun z' => in_zone ft z' = false) pre ->
      in_zone ft z = true ->
      tolAt ft (Some (pre ++ z :: post)) fallbackTol = tolIn z /\
      tolAtStation (Some (ZonesWindow (pre ++ z :: post))) ft = tolIn z) /\
  (forall ft zs fallbackTol,
      Forall (fun z' => in_zone ft z' = false) zs ->
      tolAt ft (Some zs) fallbackTol = fallbackTol) /\
  (forall ft zs zlast,
      Forall (fun z' => in_zone ft z' = false) (zs ++ [zlast]) ->
      tolAtStation (Some (ZonesWindow (zs ++ [zlast]))) ft = tolIn zlast) /\
  (forall ft fallbackTol,
      tolAt ft None fallbackTol = fallbackTol /\
      tolAtStation (Some (ZonesWindow [])) ft = 0) /\
  (forall fallbackTol,
      tolAt 25 (Some example_zones) fallbackTol = 0.25 /\
      tolAt 75 (Some example_zones) fallbackTol = 0.5 /\
      tolAt 50 (Some example_zones) fallbackTol = 0.25 /\
      tolAt 150 (Some example_zones) fallbackTol = fallbackTol) /\
  tolAtStation (Some (ZonesWindow example_zones)) 25 = 0.25 /\
  tolAtStation (Some (ZonesWindow example_zones)) 75 = 0.5 /\
  tolAtStation (Some (ZonesWindow example_zones)) 50 = 0.25 /\
  tolAtStation (Some (ZonesWindow example_zones)) 150 = 0.5.
Proof.
  split; [reflexivity |].
  split.
  { intros ft pre z post fb Hpre Hz. unfold tolAt, tolAtStation.
    rewrite (find_first_match (in_zone ft) pre z post Hpre Hz). auto. }
  split.
  { intros ft zs fb Hzs. unfold tolAt.
    rewrite (find_no_match (in_zone ft) zs Hzs). reflexivity. }
  split.
  { intros ft zs zlast Hzs. unfold tolAtStation.
    rewrite (find_no_match (in_zone ft) _ Hzs), last_map_Some. reflexivity. }
  split; [intros; split; reflexivity |].
  split; [intros fb; repeat split; vm_compute; reflexivity |].
  repeat split; vm_compute; reflexivity.
Qed.

(** C4, counterexample. Position 150 lies in neither zone of the example;
    called with the fallback 0.75, [tolAt] answers 0.75 while [tolAtStation]
    answers the last zone's 0.5: the two resolution paths do not share one
    fallback. *)
Lemma tolerance_fallback_counterexample :
  ~ (tolAt 150 (Some example_zones) 0.75
     = tolAtStation (Some (ZonesWindow example_zones)) 150).
Proof.
  intros E. apply (f_equal (fun t => t =? 0.75)) in E.
  vm_compute in E. discriminate E.
Qed.

(** ** Half range of the chart's Y axis *)

Lemma is_nan_nan : is_nan nan = true.
Proof. reflexivity. Qed.

Lemma max2_not_nan a b :
  is_nan (max2 a b) = false -> is_nan a = false /\ is_nan b = false.
Proof.
  unfold max2. destruct (is_nan a), (is_nan b); cbn [orb];
    rewrite ?is_nan_nan; intros H; try discriminate H; auto.
Qed.

Lemma max2_bounds a b :
  is_nan (max2 a b) = false ->
  (a <=? max2 a b) = true /\ (b <=? max2 a b) = true.
Proof.
  intros N. destruct (max2_not_nan a b N) as [Na Nb].
  unfold max2. rewrite Na, Nb; cbn [orb].
  destruct (a <? b) eqn:Lab.
  - split; [apply ltb_leb; exact Lab | apply leb_refl; exact Nb].
  - destruct (b <? a) eqn:Lba.
    + split; [apply leb_refl; exact Na | apply ltb_leb; exact Lba].
    + assert (Hab : (a <=? b) = true) by (rewrite leb_negb_ltb, Lba; auto).
      assert (Hba : (b <=? a) = true) by (rewrite leb_negb_ltb, Lab; auto).
      destruct (get_sign a); split; auto using leb_refl.
Qed.

Lemma fold_max2_bounds xs :
  forall acc,
    is_nan (fold_left max2 xs acc) = false ->
    (acc <=? fold_left max2 xs acc) = true /\
    (forall x, In x xs -> (x <=? fold_left max2 xs acc) = true).
Proof.
  induction xs as [| x xs IH]; intros acc N; cbn [fold_left] in *.
  - split; [apply leb_refl; exact N | intros x []].
  - destruct (IH (max2 acc x) N) as [Hacc Hxs].
    destruct (leb_nn _ _ Hacc) as [Nm _].
    destruct (max2_bounds acc x Nm) as [Ha Hx].
    split; [eapply leb_trans; eassumption |].
    intros x' [<- | Hin]; [eapply leb_trans; eassumption | apply Hxs; exact Hin].
Qed.

Lemma seriesMaxAbs_fold y :
  seriesMaxAbs y = fold_left max2 (map abs y) 0.
Proof.
  unfold seriesMaxAbs. generalize 0 as acc.
  induction y as [| v y IH]; intros acc; cbn; [reflexivity | apply IH].
Qed.

Lemma seriesMaxAbs_nonneg y :
  is_nan (seriesMaxAbs y) = false -> (0 <=? seriesMaxAbs y) = true.
Proof.
  rewrite seriesMaxAbs_fold. intros N.
  destruct (fold_max2_bounds _ 0 N) as [H _]. exact H.
Qed.

Lemma eqb_sym x y : (x =? y) = (y =? x).
Proof.
  destruct (x =? y) eqn:E.
  - destruct (eqb_nn _ _ E) as [Nx Ny]. symmetry.
    rewrite eqb_K in * by assumption. key_lia.
  - destruct (y =? x) eqn:E'; [| reflexivity].
    destruct (eqb_nn _ _ E') as [Ny Nx].
    rewrite eqb_K in E' by assumption.
    assert (E2 : (x =? y) = true) by (apply eqb_K; try assumption; key_lia).
    congruence.
Qed.

(** A product with [1.25] that is neither zero nor NaN, of a factor that is
    at least zero, is above zero. *)
Lemma scaled_positive m :
  (0 <=? m) = true -> truthy (m * 1.25) = true -> (0 <? m * 1.25) = true.
Proof.
  unfold truthy. intros L T.
  apply negb_true_iff, orb_false_iff in T. destruct T as [Z N].
  assert (C : carries false (Prim2SF (m * 1.25))).
  { assert (P : pos_or_nan (Prim2SF (m * 1.25))).
    { rewrite mul_spec. rewrite leb_spec, Prim2SF_zero in L.
      rewrite eqb_spec, mul_spec, Prim2SF_zero in Z.
      unfold SF64mul in *.
      destruct (Prim2SF m) as [sm | sm | | sm mm em];
        try discriminate L.
      - cbn in Z. discriminate Z.
      - destruct sm; [discriminate L |]. right. reflexivity.
      - destruct sm; [discriminate L |].
        apply SFmul_pos_or_nan; right; reflexivity. }
    destruct P as [P | P]; [| exact P].
    apply is_nan_spec in P. congruence. }
  pose proof (carries_false_leb _ C) as L'.
  rewrite leb_ltb_eqb, eqb_sym, Z, orb_false_r in L'. exact L'.
Qed.

(** C7 (amended). The half range of the straightness chart is
    [max(seriesMaxAbs(railN), seriesMaxAbs(railS), tol) * 1.25]; only when
    that product is zero or NaN is it replaced by [1.0].  The half range is
    therefore never zero and never NaN, and it is above zero; it is not
    bounded below by [1.0].  The eccentricity chart scales its own maximum
    the same way. *)
Theorem chart_half_range :
  forall (railN railS : list number) (tol : number),
    let product :=
      Math_max [seriesMaxAbs railN; seriesMaxAbs railS; tol] * 1.25 in
    yAbsMax railN railS tol
    = (if (product =? 0) || is_nan product then 1 else product) /\
    (yAbsMax railN railS tol =? 0) = false /\
    is_nan (yAbsMax railN railS tol) = false /\
    (0 <? yAbsMax railN railS tol) = true /\
    (forall eccN zones,
        let maxTol := match zones with
                      | Some zs => Math_max (map tolIn zs)
                      | None => 0.75
                      end in
        let eccProduct := Math_max [seriesMaxAbs eccN; maxTol] * 1.25 in
        eccAbsMax eccN zones
        = if (eccProduct =? 0) || is_nan eccProduct then 1 else eccProduct).
Proof.
  intros railN railS tol product.
  assert (Shape : yAbsMax railN railS tol
                  = if (product =? 0) || is_nan product then 1 else product).
  { unfold yAbsMax, or_else, truthy. fold product.
    destruct ((product =? 0) || is_nan product); reflexivity. }
  split; [exact Shape |].
  assert (Pos : (0 <? yAbsMax railN railS tol) = true).
  { rewrite Shape.
    destruct ((product =? 0) || is_nan product) eqn:T; [reflexivity |].
    assert (Tr : truthy product = true) by (unfold truthy; rewrite T; reflexivity).
    apply scaled_positive; [| exact Tr].
    apply orb_false_iff in T. destruct T as [_ N].
    assert (Nm : is_nan (Math_max [seriesMaxAbs railN; seriesMaxAbs railS; tol])
                 = false).
    { destruct (is_nan (Math_max _)) eqn:E; [| reflexivity].
      apply is_nan_spec in E. subst product.
      assert (N' : Prim2SF (Math_max [seriesMaxAbs railN; seriesMaxAbs railS; tol]
                            * 1.25) = S754_nan)
        by (rewrite mul_spec, E; reflexivity).
      apply is_nan_spec in N'. congruence. }
    unfold Math_max in *.
    destruct (fold_max2_bounds _ _ Nm) as [_ Hin].
    specialize (Hin (seriesMaxAbs railN) (or_introl eq_refl)).
    destruct (leb_nn _ _ Hin) as [Ns _].
    eapply leb_trans; [apply seriesMaxAbs_nonneg; exact Ns | exact Hin]. }
  destruct (ltb_nn _ _ Pos) as [_ Ny].
  split; [| split; [exact Ny | split; [exact Pos |]]].
  - rewrite eqb_sym. pose proof (ltb_leb _ _ Pos) as L.
    destruct (0 =? yAbsMax railN railS tol) eqn:E; [| reflexivity].
    destruct (ltb_nn _ _ Pos) as [N0 _].
    rewrite ltb_K in Pos by assumption. rewrite eqb_K in E by assumption.
    key_lia.
  - intros eccN zones maxTol eccProduct.
    unfold eccAbsMax, or_else, truthy. fold maxTol. fold eccProduct.
    destruct ((eccProduct =? 0) || is_nan eccProduct); reflexivity.
Qed.

(** C7, counterexample. Deviations 0.1 and 0.05 against the tolerance 0.25
    give the half range 0.3125, which is below 1.0. *)
Lemma chart_half_range_counterexample :
  ~ ((1 <=? yAbsMax [0.1] [0.05] 0.25) = true).
Proof. vm_compute. discriminate. Qed.

(** ** Station grid: which stations a span gets *)

Section CountedLoop.

(** Both grid loops test the loop variable, emit a value for it and advance
    it by the spacing. *)
Variable test : number -> bool.
Variable emit : number -> number.

Fixpoint counted_loop (fuel : nat) (x step : number) : option (list number) :=
  match fuel with
  | O => None
  | S fuel' =>
      if test x then
        option_map (cons (emit x)) (counted_loop fuel' (x + step) step)
      else Some []
  end.

Lemma running_station_shift x step k :
  running_station (x + step) step k = running_station x step (S k).
Proof.
  induction k as [| k IH]; [reflexivity |].
  cbn [running_station] in *. rewrite IH. reflexivity.
Qed.

(** [n] is the number of rounds of the loop from [x]: the test holds for the
    first [n] values of the loop variable and fails for the next one. *)
Definition rounds (x step : number) (n : nat) : Prop :=
  (forall k, (k < n)%nat -> test (running_station x step k) = true) /\
  test (running_station x step n) = false.

Definition emitted (x step : number) (n : nat) : list number :=
  map (fun k => emit (running_station x step k)) (seq 0 n).

Lemma emitted_shift x step n :
  emitted x step (S n) = emit x :: emitted (x + step) step n.
Proof.
  unfold emitted. cbn [seq map running_station]. f_equal.
  rewrite <- seq_shift, map_map. apply map_ext.
  intros k. rewrite running_station_shift. reflexivity.
Qed.

Lemma counted_loop_rounds fuel :
  forall x step n,
    rounds x step n -> (n < fuel)%nat ->
    counted_loop fuel x step = Some (emitted x step n).
Proof.
  induction fuel as [| fuel IH]; intros x step n [Hlt Hstop] Hn; [lia |].
  cbn [counted_loop]. destruct n as [| n].
  - cbn in Hstop. rewrite Hstop. reflexivity.
  - pose proof (Hlt O ltac:(lia)) as T0. cbn in T0. rewrite T0.
    rewrite emitted_shift.
    rewrite (IH (x + step) step n); [reflexivity | | lia].
    split.
    + intros k Hk. rewrite running_station_shift. apply Hlt. lia.
    + rewrite running_station_shift. exact Hstop.
Qed.


End CountedLoop.










(** ** Degenerate inputs of the renderers *)

Lemma max2_choice a b :
  is_nan a = false -> is_nan b = false -> max2 a b = a \/ max2 a b = b.
Proof.
  intros Na Nb. unfold max2. rewrite Na, Nb; cbn [orb].
  destruct (a <? b), (b <? a), (get_sign a); auto.
Qed.

Lemma min2_choice a b :
  is_nan a = false -> is_nan b = false -> min2 a b = a \/ min2 a b = b.
Proof.
  intros Na Nb. unfold min2. rewrite Na, Nb; cbn [orb].
  destruct (a <? b), (b <? a), (get_sign a); auto.
Qed.

Lemma min2_bounds a b :
  is_nan a = false -> is_nan b = false ->
  (min2 a b <=? a) = true /\ (min2 a b <=? b) = true.
Proof.
  intros Na Nb. unfold min2. rewrite Na, Nb; cbn [orb].
  destruct (a <? b) eqn:Lab.
  - split; [apply leb_refl; exact Na | apply ltb_leb; exact Lab].
  - destruct (b <? a) eqn:Lba.
    + split; [apply ltb_leb; exact Lba | apply leb_refl; exact Nb].
    + assert (Hab : (a <=? b) = true) by (rewrite leb_negb_ltb, Lba; auto).
      assert (Hba : (b <=? a) = true) by (rewrite leb_negb_ltb, Lab; auto).
      destruct (get_sign a); split; auto using leb_refl.
Qed.

Definition all_not_nan (xs : list number) : Prop :=
  Forall (fun x => is_nan x = false) xs.

Lemma fold_max2_in xs :
  forall acc, is_nan acc = false -> all_not_nan xs ->
    In (fold_left max2 xs acc) (acc :: xs).
Proof.
  induction xs as [| x xs IH]; intros acc Na Nxs; cbn [fold_left].
  - left. reflexivity.
  - inversion Nxs as [| ? ? Nx Nrest]; subst.
    destruct (max2_choice acc x Na Nx) as [E | E]; rewrite E.
    + destruct (IH acc Na Nrest) as [H | H]; [left | right; right]; exact H.
    + destruct (IH x Nx Nrest) as [H | H];
        [right; left | right; right]; exact H.
Qed.

Lemma fold_min2_in xs :
  forall acc, is_nan acc = false -> all_not_nan xs ->
    In (fold_left min2 xs acc) (acc :: xs).
Proof.
  induction xs as [| x xs IH]; intros acc Na Nxs; cbn [fold_left].
  - left. reflexivity.
  - inversion Nxs as [| ? ? Nx Nrest]; subst.
    destruct (min2_choice acc x Na Nx) as [E | E]; rewrite E.
    + destruct (IH acc Na Nrest) as [H | H]; [left | right; right]; exact H.
    + destruct (IH x Nx Nrest) as [H | H];
        [right; left | right; right]; exact H.
Qed.

Lemma fold_min2_bounds xs :
  forall acc, is_nan acc = false -> all_not_nan xs ->
    (fold_left min2 xs acc <=? acc) = true /\
    (forall x, In x xs -> (fold_left min2 xs acc <=? x) = true).
Proof.
  induction xs as [| x xs IH]; intros acc Na Nxs; cbn [fold_left].
  - split; [apply leb_refl; exact Na | intros x []].
  - inversion Nxs as [| ? ? Nx Nrest]; subst.
    destruct (min2_bounds acc x Na Nx) as [Ha Hx].
    destruct (leb_nn _ _ Ha) as [Nm _].
    destruct (IH (min2 acc x) Nm Nrest) as [Hacc Hxs].
    split; [eapply leb_trans; eassumption |].
    intros x' [<- | Hin]; [eapply leb_trans; eassumption | apply Hxs; exact Hin].
Qed.

Lemma all_finite_not_nan xs :
  Forall (fun x => is_finite x = true) xs -> all_not_nan xs.
Proof.
  intros F. eapply Forall_impl; [| exact F].
  intros x. apply is_finite_not_nan.
Qed.

Lemma finite_between_infinities x :
  is_finite x = true -> (neg_infinity <? x) = true /\ (x <? infinity) = true.
Proof.
  intros F. apply is_finite_spec in F. rewrite !ltb_spec.
  change (Prim2SF neg_infinity) with (S754_infinity true).
  change (Prim2SF infinity) with (S754_infinity false).
  destruct (Prim2SF x) as [sx | sx | | sx m e]; cbn in F; try contradiction;
    split; reflexivity.
Qed.

(** The largest and the smallest of finitely many finite numbers are among
    them. *)
Lemma Math_max_in xs :
  xs <> [] -> Forall (fun x => is_finite x = true) xs -> In (Math_max xs) xs.
Proof.
  intros Hne F. unfold Math_max.
  pose proof (all_finite_not_nan xs F) as N.
  destruct (fold_max2_in xs neg_infinity eq_refl N) as [E | H]; [| exact H].
  exfalso. destruct xs as [| x xs]; [congruence |].
  assert (Nr : is_nan (fold_left max2 (x :: xs) neg_infinity) = false)
    by (rewrite <- E; reflexivity).
  destruct (fold_max2_bounds _ _ Nr) as [_ Hin].
  specialize (Hin x (or_introl eq_refl)). rewrite <- E in Hin.
  inversion F as [| ? ? Fx _]; subst.
  destruct (finite_between_infinities x Fx) as [Lx _].
  pose proof (leb_ltb_trans _ _ _ Hin Lx) as C.
  rewrite ltb_irrefl in C. discriminate C.
Qed.

Lemma Math_min_in xs :
  xs <> [] -> Forall (fun x => is_finite x = true) xs -> In (Math_min xs) xs.
Proof.
  intros Hne F. unfold Math_min.
  pose proof (all_finite_not_nan xs F) as N.
  destruct (fold_min2_in xs infinity eq_refl N) as [E | H]; [| exact H].
  exfalso. destruct xs as [| x xs]; [congruence |].
  destruct (fold_min2_bounds (x :: xs) infinity eq_refl N) as [_ Hin].
  specialize (Hin x (or_introl eq_refl)). rewrite <- E in Hin.
  inversion F as [| ? ? Fx _]; subst.
  destruct (finite_between_infinities x Fx) as [_ Lx].
  pose proof (ltb_leb_trans _ _ _ Lx Hin) as C.
  rewrite ltb_irrefl in C. discriminate C.
Qed.

Lemma span_not_nan xs :
  xs <> [] -> Forall (fun x => is_finite x = true) xs ->
  is_nan (Math_max xs - Math_min xs) = false.
Proof.
  intros Hne F. rewrite Forall_forall in F.
  apply sub_finite_not_nan; apply F;
    [apply Math_max_in | apply Math_min_in]; try assumption;
    apply Forall_forall; exact F.
Qed.

Lemma max2_from_neg_infinity x :
  is_finite x = true -> max2 neg_infinity x = x.
Proof.
  intros F. unfold max2. change (is_nan neg_infinity) with false.
  rewrite (is_finite_not_nan x F); cbn [orb].
  rewrite (proj1 (finite_between_infinities x F)). reflexivity.
Qed.

(** [Math.max(floor, d)] for a positive finite [floor] and a number [d]
    that is not NaN: at least [floor], hence not zero. *)
Lemma floored_span minSpan d :
  (0 <? minSpan) = true -> is_finite minSpan = true -> is_nan d = false ->
  (minSpan <=? Math_max [minSpan; d]) = true /\
  (Math_max [minSpan; d] =? 0) = false.
Proof.
  intros Pos Fm Nd.
  assert (E : Math_max [minSpan; d] = max2 minSpan d).
  { unfold Math_max; cbn [fold_left].
    rewrite (max2_from_neg_infinity minSpan Fm). reflexivity. }
  rewrite E. destruct (ltb_nn _ _ Pos) as [N0 Nm].
  assert (Nr : is_nan (max2 minSpan d) = false).
  { destruct (max2_choice minSpan d Nm Nd) as [-> | ->]; assumption. }
  destruct (max2_bounds minSpan d Nr) as [Hm _].
  split; [exact Hm |].
  pose proof (ltb_leb_trans _ _ _ Pos Hm) as P.
  destruct (max2 minSpan d =? 0) eqn:Z; [| reflexivity].
  rewrite ltb_K in P by assumption. rewrite eqb_K in Z by assumption.
  key_lia.
Qed.

(** A span of zero is replaced by the floor itself. *)
Lemma floored_zero_span minSpan hi lo :
  (0 <? minSpan) = true -> is_finite minSpan = true ->
  is_finite hi = true -> (hi =? lo) = true ->
  Math_max [minSpan; hi - lo] = minSpan.
Proof.
  intros Pos Fm Fh E.
  destruct (sub_eqb hi lo E) as [[sg Z] | N].
  - unfold Math_max; cbn [fold_left].
    destruct (ltb_nn _ _ Pos) as [_ Nm].
    rewrite (max2_from_neg_infinity minSpan Fm).
    unfold max2. rewrite Nm; cbn [orb].
    assert (Nd : is_nan (hi - lo) = false)
      by (apply is_nan_false; rewrite Z; unfold not_nan; discriminate).
    rewrite Nd.
    assert (Lt : (hi - lo <? minSpan) = true).
    { rewrite ltb_spec, Z. rewrite ltb_spec, Prim2SF_zero in Pos.
      destruct (Prim2SF minSpan) as [sm | sm | | sm mm em]; destruct sg;
        exact Pos. }
    assert (Gt : (minSpan <? hi - lo) = false).
    { destruct (ltb_nn _ _ Lt) as [Nx Ny].
      rewrite ltb_negb_leb, (ltb_leb _ _ Lt) by assumption. reflexivity. }
    rewrite Gt, Lt. reflexivity.
  - exfalso.
    assert (Fl : is_finite lo = true).
    { apply is_finite_spec. apply is_finite_spec in Fh.
      rewrite eqb_spec in E. unfold SFeqb in E.
      destruct (Prim2SF hi) as [sh | sh | | sh mh eh]; cbn in Fh;
        try contradiction;
        destruct (Prim2SF lo) as [sl | sl | | sl ml el]; cbn; auto;
        cbn in E; try discriminate E; destruct sl; discriminate E. }
    pose proof (sub_finite_not_nan hi lo Fh Fl) as Nn.
    apply is_nan_false in Nn. contradiction.
Qed.

Definition beam_missing_message : string :=
  "Eccentricity requires BeamN/BeamS. Provide BeamN & BeamS columns in CSV.".

(** A grid loop whose variable passes its test and is not moved by the
    step never ends. *)
Lemma gridLines_stuck v limit step :
  (v <=? limit) = true -> v + step = v ->
  forall fuel, gridLines fuel v limit step = None.
Proof.
  intros L E fuel. induction fuel as [| fuel IH]; [reflexivity |].
  cbn [gridLines]. rewrite L, E, IH. reflexivity.
Qed.

(** Two stations at 1e18 make a series of zero span whose first grid line,
    at 1e18, is not moved by adding 50: the chart is never finished. *)
Lemma chart_grid_runs_on fuel series yMin yMax w highlightMax :
  buildChartSvg fuel [1e18; 1e18] series yMin yMax w highlightMax = None.
Proof.
  unfold buildChartSvg, xGrid.
  change (Math_ceil (Math_min [1e18; 1e18] / 50) * 50) with 1e18.
  change (Math_max [1e18; 1e18]) with 1e18.
  rewrite (gridLines_stuck 1e18 1e18 50 eq_refl eq_refl). reflexivity.
Qed.

Lemma gridLines_loop fuel :
  forall v limit step,
    gridLines fuel v limit step
    = counted_loop (fun x => x <=? limit) (fun x => x) fuel v step.
Proof.
  induction fuel as [| fuel IH]; intros; cbn; [reflexivity |].
  rewrite IH. reflexivity.
Qed.

(** The x grid of a chart has [n] lines: the loop variable, started at
    [Math.ceil(xMin / 50) * 50], passes the test [x <= xMax] [n] times and
    then fails it.  Likewise for the y grid. *)
Definition xGrid_rounds (stationFt : list number) (n : nat) : Prop :=
  rounds (fun x => x <=? Math_max stationFt)
    (Math_ceil (Math_min stationFt / 50) * 50) 50 n.

Definition yGrid_rounds (yMin yMax : number) (n : nat) : Prop :=
  rounds (fun y => y <=? yMax) (Math_ceil (yMin / 0.5) * 0.5) 0.5 n.

(** Once both grid loops come to a value past their limit, the chart is
    produced, with one grid line per round. *)
Lemma chart_produced fuel stationFt series yMin yMax w highlightMax nx ny :
  xGrid_rounds stationFt nx -> yGrid_rounds yMin yMax ny ->
  (nx < fuel)%nat -> (ny < fuel)%nat ->
  exists c,
    buildChartSvg fuel stationFt series yMin yMax w highlightMax = Some c /\
    List.length (ch_xGrid c) = nx /\ List.length (ch_yGrid c) = ny.
Proof.
  intros Rx Ry Hx Hy. unfold buildChartSvg, xGrid, yGrid.
  rewrite !gridLines_loop.
  rewrite (counted_loop_rounds _ _ fuel _ 50 nx Rx Hx).
  rewrite (counted_loop_rounds _ _ fuel _ 0.5 ny Ry Hy).
  eexists. split; [reflexivity |].
  cbn [ch_xGrid ch_yGrid]. unfold emitted. rewrite !length_map, !length_seq.
  split; reflexivity.
Qed.

(** C9 (amended). The renderers answer degenerate inputs with a placeholder
    document that carries an explanatory message: the cross-level diagram
    for an empty point series, the charts for missing survey data, and the
    eccentricity chart for a beam channel without a finite entry; these
    answers are given before any loop is entered.  For finite station
    positions the horizontal span is floored, so the scale never divides by
    zero: the cross-level diagram uses [max(1, maxFt - minFt)], which is at
    least 1, and [1] itself when the span is zero; the chart uses
    [max(1e-6, xMax - xMin)], which is at least 1e-6, and [1e-6] itself when
    the span is zero.  A diagram or chart that is produced is drawn with that
    span, and a chart is produced once both of its grid loops come to a value
    past their limit. *)
Theorem renderers_degenerate_inputs :
  (forall tolRaw,
      buildCrossLevelDiagramSvgString tolRaw []
      = EmptySvg "No cross-level data available.") /\
  (forall fuel tolRaw zones,
      buildStraightnessCharts fuel None tolRaw
      = Some (EmptySvg "No survey data.") /\
      buildEccentricityChart fuel None zones
      = Some (EmptySvg "No survey data.")) /\
  (forall fuel d zones,
      hasBeamN (sd_beamN d) = false ->
      buildEccentricityChart fuel (Some d) zones
      = Some (EmptySvg beam_missing_message)) /\
  (forall pts,
      pts <> [] ->
      Forall (fun p => is_finite (Pt.stationFt p) = true) pts ->
      (1 <=? diagram_spanFt pts) = true /\
      (diagram_spanFt pts =? 0) = false /\
      ((Math_max (map Pt.stationFt pts) =? Math_min (map Pt.stationFt pts)) = true ->
       diagram_spanFt pts = 1)) /\
  (forall stationFt,
      stationFt <> [] ->
      Forall (fun x => is_finite x = true) stationFt ->
      (1e-6 <=? chart_xSpan stationFt) = true /\
      (chart_xSpan stationFt =? 0) = false /\
      ((Math_max stationFt =? Math_min stationFt) = true ->
       chart_xSpan stationFt = 1e-6)) /\
  (forall tolRaw pts c,
      buildCrossLevelDiagramSvgString tolRaw pts = CrossLevelSvg c ->
      cl_spanFt c = diagram_spanFt pts) /\
  (forall fuel stationFt series yMin yMax w highlightMax c,
      buildChartSvg fuel stationFt series yMin yMax w highlightMax = Some c ->
      ch_xSpan c = chart_xSpan stationFt) /\
  (forall fuel stationFt series yMin yMax w highlightMax nx ny,
      xGrid_rounds stationFt nx -> yGrid_rounds yMin yMax ny ->
      (nx < fuel)%nat -> (ny < fuel)%nat ->
      exists c,
        buildChartSvg fuel stationFt series yMin yMax w highlightMax = Some c /\
        List.length (ch_xGrid c) = nx /\ List.length (ch_yGrid c) = ny) /\
  diagram_spanFt [{| Pt.stationFt := 40; Pt.valueIn := 0.5 |}] = 1 /\
  chart_xSpan [40; 40] = 1e-6 /\
  option_map (fun c => (ch_xSpan c, ch_xGrid c, ch_yGrid c))
    (buildChartSvg 6 [40; 40] [[0.1; 0.2]] (-1) 1 None true)
  = Some (1e-6, [], [-1; -0.5; 0; 0.5; 1]).
Proof.
  split; [reflexivity |].
  split; [intros; split; reflexivity |].
  split.
  { intros fuel d zones H. unfold buildEccentricityChart. rewrite H.
    reflexivity. }
  split.
  { intros pts Hne F. unfold diagram_spanFt.
    assert (Hne' : map Pt.stationFt pts <> [])
      by (destruct pts; [congruence | discriminate]).
    assert (F' : Forall (fun x => is_finite x = true) (map Pt.stationFt pts))
      by (apply Forall_map; exact F).
    pose proof (span_not_nan _ Hne' F') as Nd.
    destruct (floored_span 1 _ eq_refl eq_refl Nd) as [H1 H2].
    split; [exact H1 | split; [exact H2 |]].
    intros E. apply floored_zero_span; try reflexivity; try exact E.
    rewrite Forall_forall in F'. apply F'. apply Math_max_in; try assumption.
    apply Forall_forall; exact F'. }
  split.
  { intros stationFt Hne F. unfold chart_xSpan.
    pose proof (span_not_nan _ Hne F) as Nd.
    destruct (floored_span 1e-6 _ eq_refl eq_refl Nd) as [H1 H2].
    split; [exact H1 | split; [exact H2 |]].
    intros E. apply floored_zero_span; try reflexivity; try exact E.
    rewrite Forall_forall in F. apply F. apply Math_max_in; try assumption.
    apply Forall_forall; exact F. }
  split.
  { intros tolRaw pts c H. unfold buildCrossLevelDiagramSvgString in H.
    destruct pts as [| p pts]; [discriminate H |].
    injection H as <-. reflexivity. }
  split.
  { intros fuel stationFt series yMin yMax w highlightMax c H.
    unfold buildChartSvg in H.
    destruct (xGrid fuel stationFt); [| discriminate H].
    destruct (yGrid fuel yMin yMax); [| discriminate H].
    injection H as <-. reflexivity. }
  split.
  { intros. eapply chart_produced; eassumption. }
  repeat split; vm_compute; reflexivity.
Qed.

(** C9, counterexample. Two stations at the same position make a series of
    zero span; the chart renderer divides by 1e-6 there, not by 1. *)
Lemma chart_span_counterexample :
  ~ (chart_xSpan [40; 40] = 1).
Proof.
  intros E. apply (f_equal (fun x => x =? 1)) in E.
  vm_compute in E. discriminate E.
Qed.

(** ** CSV import: dropped rows, order, and what the engine receives *)

Import FloatSub.

Definition keys_finite (l : list (number * nat)) : Prop :=
  Forall (fun a => is_finite (fst a) = true) l.

(** Stations in ascending order. *)
Definition ascending (l : list number) : Prop :=
  Sorted (fun a b => (a <=? b) = true) l.

Lemma insert_by_perm b l : Permutation (insert_by b l) (b :: l).
Proof.
  induction l as [| a l IH]; cbn [insert_by]; [reflexivity |].
  destruct (gtb (comparator a b) 0); [reflexivity |].
  rewrite IH. apply perm_swap.
Qed.

Lemma sort_by_station_perm_from l :
  forall acc, Permutation (fold_left (fun sorted b => insert_by b sorted) l acc)
                (acc ++ l).
Proof.
  induction l as [| b l IH]; intros acc; cbn [fold_left].
  - rewrite app_nil_r. reflexivity.
  - rewrite IH, insert_by_perm.
    change (b :: acc) with ([b] ++ acc).
    rewrite (Permutation_app_comm [b] acc), <- app_assoc. reflexivity.
Qed.

Lemma sort_by_station_perm l : Permutation (sort_by_station l) l.
Proof. apply (sort_by_station_perm_from l []). Qed.

(** On finite stations the comparator is positive exactly when its first
    argument is the larger station. *)
Lemma comparator_positive a b :
  is_finite (fst a) = true -> is_finite (fst b) = true ->
  gtb (comparator a b) 0 = (fst b <? fst a).
Proof. intros Fa Fb. unfold gtb, comparator. apply sub_positive; assumption. Qed.

Lemma insert_by_sorted b l :
  is_finite (fst b) = true -> keys_finite l ->
  ascending (map fst l) -> ascending (map fst (insert_by b l)).
Proof.
  intros Fb Fl S. unfold ascending in *.
  induction l as [| a l IH]; cbn [insert_by map].
  - repeat constructor.
  - inversion Fl as [| ? ? Fa Fl']; subst.
    inversion S as [| ? ? S' Hd]; subst.
    destruct (gtb (comparator a b) 0) eqn:L;
      rewrite (comparator_positive a b Fa Fb) in L; cbn [map].
    + constructor; [exact S |]. constructor. apply ltb_leb. exact L.
    + specialize (IH Fl' S').
      constructor; [exact IH |].
      assert (Hab : (fst a <=? fst b) = true).
      { rewrite leb_negb_ltb by (apply is_finite_not_nan; assumption).
        apply negb_true_iff. exact L. }
      destruct l as [| a' l]; cbn [insert_by map] in *.
      * constructor. exact Hab.
      * inversion Fl' as [| ? ? Fa' _]; subst.
        destruct (gtb (comparator a' b) 0); cbn [map]; constructor;
          [exact Hab | inversion Hd; assumption].
Qed.

Lemma sort_by_station_sorted_from l :
  forall acc,
    keys_finite l -> keys_finite acc -> ascending (map fst acc) ->
    ascending (map fst (fold_left (fun sorted b => insert_by b sorted) l acc)).
Proof.
  induction l as [| b l IH]; intros acc Fl Fa S; cbn [fold_left];
    [exact S |].
  inversion Fl as [| ? ? Fb Fl']; subst.
  apply IH; [exact Fl' | | apply insert_by_sorted; assumption].
  unfold keys_finite.
  rewrite (Forall_forall _ (insert_by b acc)). intros x Hx.
  apply (Permutation_in _ (insert_by_perm b acc)) in Hx.
  destruct Hx as [<- | Hx]; [exact Fb |].
  unfold keys_finite in Fa. rewrite Forall_forall in Fa. apply Fa. exact Hx.
Qed.

Lemma sort_by_station_sorted l :
  keys_finite l -> ascending (map fst (sort_by_station l)).
Proof.
  intros F. apply sort_by_station_sorted_from; [exact F | constructor |].
  constructor.
Qed.

(** *** The arrays read back through the sorted index list *)

Lemma map_nth_seq {A} (l : list A) (d : A) :
  map (fun i => nth i l d) (seq 0 (List.length l)) = l.
Proof.
  induction l as [| a l IH]; [reflexivity |].
  cbn [List.length seq map nth]. f_equal.
  rewrite <- seq_shift, map_map. exact IH.
Qed.

Lemma combine_seq_lookup (l : list number) :
  forall start,
    Forall (fun vi => (start <= snd vi)%nat /\
                      nth (snd vi - start) l nan = fst vi)
           (combine l (seq start (List.length l))).
Proof.
  induction l as [| v l IH]; intros start; cbn; constructor.
  - cbn. rewrite Nat.sub_diag. split; [lia | reflexivity].
  - eapply Forall_impl; [| apply (IH (S start))].
    intros [v' i] [Hi Hv]; cbn [fst snd] in *. split; [lia |].
    replace (i - start)%nat with (S (i - S start)) by lia. exact Hv.
Qed.

Lemma sorted_stations stationFt :
  sorted_by (station_order stationFt) stationFt nan
  = map fst (sort_by_station
               (combine stationFt (seq 0 (List.length stationFt)))).
Proof.
  unfold sorted_by, station_order. rewrite map_map.
  apply map_ext_in. intros [v i] Hin.
  apply (Permutation_in _ (sort_by_station_perm _)) in Hin.
  pose proof (combine_seq_lookup stationFt 0) as F.
  rewrite Forall_forall in F. destruct (F _ Hin) as [_ Hv]; cbn [fst snd] in *.
  rewrite Nat.sub_0_r in Hv. exact Hv.
Qed.

Lemma station_order_perm stationFt :
  Permutation (station_order stationFt) (seq 0 (List.length stationFt)).
Proof.
  unfold station_order. rewrite sort_by_station_perm.
  assert (E : forall (l : list number) (s : list nat),
             List.length l = List.length s -> map snd (combine l s) = s).
  { induction l as [| a l IH]; intros [| i s] H; cbn in *; try lia;
      [reflexivity |]. f_equal. apply IH. lia. }
  rewrite E by (rewrite length_seq; reflexivity). reflexivity.
Qed.

(** The row the import keeps for a CSV row whose required cells are finite. *)
Definition keptRow (iSt iRn iRs : nat) (iBn iBs : option nat) (r : csvRow)
  : surveyRow :=
  {| row_st := cell r iSt; row_rn := cell r iRn; row_rs := cell r iRs;
     row_bn := option_map (fun i => toNum (cell r i) 0) iBn;
     row_bs := option_map (fun i => toNum (cell r i) 0) iBs |}.

Definition rowValid (iSt iRn iRs : nat) (r : csvRow) : bool :=
  isFinite (cell r iSt) && isFinite (cell r iRn) && isFinite (cell r iRs).

Lemma toNum_nan_finite x : isFinite (toNum x nan) = isFinite x.
Proof.
  unfold toNum, isFinite. destruct (is_finite x) eqn:E; [exact E | reflexivity].
Qed.

Lemma toNum_nan_id x : isFinite x = true -> toNum x nan = x.
Proof. unfold toNum. intros ->. reflexivity. Qed.

Lemma readRow_spec iSt iRn iRs iBn iBs r :
  readRow iSt iRn iRs iBn iBs r
  = if rowValid iSt iRn iRs r then Some (keptRow iSt iRn iRs iBn iBs r)
    else None.
Proof.
  unfold readRow, rowValid. rewrite !toNum_nan_finite.
  destruct (isFinite (cell r iSt)) eqn:E1; [| reflexivity].
  destruct (isFinite (cell r iRn)) eqn:E2; [| reflexivity].
  destruct (isFinite (cell r iRs)) eqn:E3; [| reflexivity].
  cbn. unfold keptRow. rewrite !toNum_nan_id by assumption. reflexivity.
Qed.

Lemma readRows_filter iSt iRn iRs iBn iBs rows :
  readRows iSt iRn iRs iBn iBs rows
  = map (keptRow iSt iRn iRs iBn iBs) (filter (rowValid iSt iRn iRs) rows).
Proof.
  induction rows as [| r rows IH]; [reflexivity |].
  cbn [readRows filter]. rewrite readRow_spec.
  destruct (rowValid iSt iRn iRs r); cbn [map]; rewrite IH; reflexivity.
Qed.

Lemma readRows_stations_finite iSt iRn iRs iBn iBs rows :
  Forall (fun x => is_finite x = true)
    (map row_st (readRows iSt iRn iRs iBn iBs rows)).
Proof.
  rewrite readRows_filter, map_map. apply Forall_forall. intros x Hx.
  apply in_map_iff in Hx. destruct Hx as (r & <- & Hr).
  apply filter_In in Hr. destruct Hr as [_ V]. unfold rowValid in V.
  apply andb_true_iff in V. destruct V as [V _].
  apply andb_true_iff in V. destruct V as [V _]. exact V.
Qed.

Definition noRow : surveyRow :=
  {| row_st := nan; row_rn := nan; row_rs := nan;
     row_bn := None; row_bs := None |}.

Lemma sorted_by_map {A B} (f : A -> B) order (l : list A) (d : A) (d' : B) :
  d' = f d -> sorted_by order (map f l) d' = map f (sorted_by order l d).
Proof.
  intros ->. unfold sorted_by. rewrite map_map. apply map_ext.
  intros i. apply map_nth.
Qed.

Lemma nth_map_default {A B} (f : A -> B) (l : list A) (d : A) (d' : B) i :
  d' = f d -> nth i (map f l) d' = f (nth i l d).
Proof. intros ->. apply map_nth. Qed.

(** The parsed data, read back row by row, is the list of accepted rows
    taken in station order. *)
Lemma rows_of_sorted order accepted hasBeam :
  rows_of {| sd_stationFt := sorted_by order (map row_st accepted) nan;
             sd_railN := sorted_by order (map row_rn accepted) nan;
             sd_railS := sorted_by order (map row_rs accepted) nan;
             sd_beamN := sorted_by order (map row_bn accepted) None;
             sd_beamS := sorted_by order (map row_bs accepted) None;
             sd_hasBeam := hasBeam |}
  = sorted_by order accepted noRow.
Proof.
  unfold rows_of; cbn [sd_stationFt sd_railN sd_railS sd_beamN sd_beamS].
  rewrite (sorted_by_map row_st order accepted noRow nan eq_refl).
  rewrite (sorted_by_map row_rn order accepted noRow nan eq_refl).
  rewrite (sorted_by_map row_rs order accepted noRow nan eq_refl).
  rewrite (sorted_by_map row_bn order accepted noRow None eq_refl).
  rewrite (sorted_by_map row_bs order accepted noRow None eq_refl).
  rewrite length_map.
  set (sortedRows := sorted_by order accepted noRow).
  transitivity (map (fun i => nth i sortedRows noRow)
                  (seq 0 (List.length sortedRows)));
    [| apply map_nth_seq].
  apply map_ext. intros i.
  rewrite (nth_map_default row_st sortedRows noRow nan i eq_refl).
  rewrite (nth_map_default row_rn sortedRows noRow nan i eq_refl).
  rewrite (nth_map_default row_rs sortedRows noRow nan i eq_refl).
  rewrite (nth_map_default row_bn sortedRows noRow None i eq_refl).
  rewrite (nth_map_default row_bs sortedRows noRow None i eq_refl).
  destruct (nth i sortedRows noRow); reflexivity.
Qed.

Lemma sorted_by_perm {A} order (l : list A) (d : A) :
  Permutation order (seq 0 (List.length l)) ->
  Permutation (sorted_by order l d) l.
Proof.
  intros P. unfold sorted_by.
  rewrite (Permutation_map (fun i => nth i l d) P). rewrite map_nth_seq.
  reflexivity.
Qed.

(** What the handler leaves behind once the parse has returned [d],
    according to the way the chart call on [d] ends. *)
Definition handed_to_charts
  (charts : surveyData -> option (outcome surveyStatus))
  (headers : list string) (rows : list csvRow) (d : surveyData) : Prop :=
  (forall status,
      charts d = Some (Returned status) ->
      onParseSurvey charts headers rows
      = Some {| st_surveyData := Some d; st_status := status |}) /\
  (forall msg,
      charts d = Some (Threw msg) ->
      onParseSurvey charts headers rows
      = Some {| st_surveyData := None; st_status := StatusParseError msg |}) /\
  (charts d = None -> onParseSurvey charts headers rows = None).

(** What the import leaves behind for given column positions: with fewer
    than two valid rows an error message and no survey data, and no chart
    call; otherwise the parse returns survey data whose rows are exactly the
    valid rows, in ascending station order, and the chart call is made on
    that data. *)
Definition import_outcome (headers : list string) (rows : list csvRow)
  (iSt iRn iRs : nat) : Prop :=
  let valid := filter (rowValid iSt iRn iRs) rows in
  let accepted :=
    map (keptRow iSt iRn iRs (idx headers "beamn") (idx headers "beams")) valid in
  ((List.length valid < 2)%nat ->
   parseSurveyData headers rows = ParseError too_few_rows_message /\
   forall charts,
     onParseSurvey charts headers rows
     = Some {| st_surveyData := None;
               st_status := StatusParseError too_few_rows_message |}) /\
  ((2 <= List.length valid)%nat ->
   exists d,
     parseSurveyData headers rows = Parsed d /\
     Permutation (rows_of d) accepted /\
     ascending (sd_stationFt d) /\
     List.length (sd_stationFt d) = List.length valid /\
     forall charts, handed_to_charts charts headers rows d).

(** C8. For an import whose header line has the three required columns
    (and, as [parseCsv] guarantees with a header line, at least one data
    row), a row is dropped exactly when its station or one of its two rail
    cells is not a finite number; the parsed series consists of exactly the
    remaining rows, reordered ascending by station, and it is this series
    that the chart call receives; with fewer than two remaining rows the
    handler reports the message of the thrown error, makes no chart call and
    leaves no survey data at all.  After the chart call the handler keeps
    the series when the call returns and clears it when the call throws. *)
Theorem csv_import_valid_rows_sorted :
  forall (headers : list string) (rows : list csvRow) (iSt iRn iRs : nat),
    rows <> [] ->
    idx headers "stationft" = Some iSt ->
    idx headers "railn" = Some iRn ->
    idx headers "rails" = Some iRs ->
    import_outcome headers rows iSt iRn iRs.
Proof.
  intros headers rows iSt iRn iRs Hrows HSt HRn HRs.
  unfold import_outcome.
  set (iBn := idx headers "beamn"). set (iBs := idx headers "beams").
  set (valid := filter (rowValid iSt iRn iRs) rows).
  set (accepted := map (keptRow iSt iRn iRs iBn iBs) valid).
  assert (Hacc : readRows iSt iRn iRs iBn iBs rows = accepted)
    by apply readRows_filter.
  assert (Hlen : List.length (map row_st accepted) = List.length valid)
    by (unfold accepted; rewrite !length_map; reflexivity).
  assert (Hparse :
    parseSurveyData headers rows
    = if Nat.ltb (List.length valid) 2 then ParseError too_few_rows_message
      else
        let order := station_order (map row_st accepted) in
        Parsed {| sd_stationFt := sorted_by order (map row_st accepted) nan;
                  sd_railN := sorted_by order (map row_rn accepted) nan;
                  sd_railS := sorted_by order (map row_rs accepted) nan;
                  sd_beamN := sorted_by order (map row_bn accepted) None;
                  sd_beamS := sorted_by order (map row_bs accepted) None;
                  sd_hasBeam := match iBn, iBs with
                                | Some _, Some _ => true
                                | _, _ => false
                                end |}).
  { unfold parseSurveyData.
    destruct headers as [| h hs]; [discriminate HSt |].
    destruct rows as [| r rs]; [congruence |].
    rewrite HSt, HRn, HRs. fold iBn iBs.
    cbv zeta. rewrite Hacc, Hlen. reflexivity. }
  split.
  - intros Hfew.
    assert (E : Nat.ltb (List.length valid) 2 = true)
      by (apply Nat.ltb_lt; exact Hfew).
    split; [rewrite Hparse, E; reflexivity |].
    intros charts. unfold onParseSurvey. rewrite Hparse, E. reflexivity.
  - intros Hmany.
    assert (E : Nat.ltb (List.length valid) 2 = false)
      by (apply Nat.ltb_ge; exact Hmany).
    rewrite E in Hparse. cbv zeta in Hparse.
    eexists. split; [exact Hparse |].
    split; [| split; [| split]].
    + rewrite rows_of_sorted. apply sorted_by_perm.
      rewrite <- (length_map row_st accepted). apply station_order_perm.
    + cbn [sd_stationFt]. rewrite sorted_stations.
      apply sort_by_station_sorted.
      unfold keys_finite. apply Forall_forall. intros [v i] Hin.
      apply in_combine_l in Hin. cbn [fst].
      pose proof (readRows_stations_finite iSt iRn iRs iBn iBs rows) as F.
      rewrite Hacc, Forall_forall in F. apply F. exact Hin.
    + cbn [sd_stationFt]. unfold sorted_by. rewrite length_map.
      rewrite (Permutation_length (station_order_perm _)), length_seq.
      exact Hlen.
    + intros charts. unfold handed_to_charts, onParseSurvey.
      rewrite Hparse. repeat split.
      * intros status ->. reflexivity.
      * intros msg ->. reflexivity.
      * intros ->. reflexivity.
Qed.

(** With the chart call as modelled, parsed data is kept, under the status
    that counts its stations, as soon as both charts are drawn. *)
Lemma import_kept_when_charts_drawn fuel tolRaw zones headers rows d r :
  parseSurveyData headers rows = Parsed d ->
  renderSurveyCharts fuel tolRaw zones (Some d) = Some r ->
  onParseSurvey (chartsCall fuel tolRaw zones) headers rows
  = Some {| st_surveyData := Some d;
            st_status := StatusParsed (List.length (sd_stationFt d))
                                      (sd_hasBeam d) |}.
Proof.
  intros Hp Hr. unfold onParseSurvey, chartsCall. rewrite Hp, Hr.
  cbn [option_map]. unfold renderSurveyCharts in Hr.
  destruct (buildStraightnessCharts fuel (Some d) tolRaw); [| discriminate Hr].
  destruct (buildEccentricityChart fuel (Some d) zones); [| discriminate Hr].
  injection Hr as <-. reflexivity.
Qed.

(** An import of two valid rows at station 1e18: the parse returns them, and
    the chart call made on them never returns, so neither does the handler,
    however many iterations the grid loops are given. *)
Lemma import_at_1e18_runs_on fuel tolRaw zones :
  onParseSurvey (chartsCall fuel tolRaw zones)
    ["StationFt"; "RailN"; "RailS"]%string [[1e18; 0; 0]; [1e18; 0; 0]]
  = None.
Proof.
  unfold onParseSurvey.
  replace (parseSurveyData ["StationFt"; "RailN"; "RailS"]%string
             [[1e18; 0; 0]; [1e18; 0; 0]])
    with (Parsed {| sd_stationFt := [1e18; 1e18];
                    sd_railN := [0; 0]; sd_railS := [0; 0];
                    sd_beamN := [None; None]; sd_beamS := [None; None];
                    sd_hasBeam := false |})
    by (vm_compute; reflexivity).
  unfold chartsCall, renderSurveyCharts, buildStraightnessCharts.
  cbn [sd_stationFt]. rewrite chart_grid_runs_on. reflexivity.
Qed.

Lemma csv_import_valid_rows_sorted_witness :
  import_outcome ["StationFt"; "RailN"; "RailS"]%string
    [[20; 0.1; 0.2]; [0; 0.3; 0.1]; [nan; 1; 1]; [10; 0; 0]] 0 1 2.
Proof.
  apply (csv_import_valid_rows_sorted
           ["StationFt"; "RailN"; "RailS"]%string
           [[20; 0.1; 0.2]; [0; 0.3; 0.1]; [nan; 1; 1]; [10; 0; 0]] 0 1 2).
  - discriminate.
  - reflexivity.
  - reflexivity.
  - reflexivity.
Defined.

(** * Further properties of the evaluation and the charts *)

(** ** Aggregate pass of the survey table *)

Lemma passAll_forallb ok rows : passAll ok rows = forallb ok rows.
Proof.
  unfold passAll.
  assert (G : forall acc, fold_left (fun a r => a && ok r) rows acc
                          = acc && forallb ok rows).
  { induction rows as [| r rows IH]; intros acc; cbn [fold_left forallb].
    - rewrite andb_true_r. reflexivity.
    - rewrite IH, andb_assoc. reflexivity. }
  rewrite G. reflexivity.
Qed.

(** X1. The rail N line of the survey passes as a whole exactly when every
    station passes both its magnitude check [abs(railN[i]) <= tol] and its
    rate check [rateN[i] <= rateTol]; one failing station fails the line. *)
Theorem survey_line_passes_iff_every_station :
  forall (data : surveyData) (tol rateTol : number),
    passAll nOK (evaluateRows data tol rateTol) = true <->
    (forall i, (i < List.length (sd_stationFt data))%nat ->
       (abs (at_index (sd_railN data) i) <=? tol) = true /\
       (adjacentRate (sd_stationFt data) (sd_railN data) i <=? rateTol) = true).
Proof.
  intros data tol rateTol. rewrite passAll_forallb, forallb_forall.
  unfold evaluateRows. split.
  - intros H i Hi.
    specialize (H (evaluateRow data tol rateTol i)).
    assert (I : In (evaluateRow data tol rateTol i)
                  (map (evaluateRow data tol rateTol)
                     (seq 0 (List.length (sd_stationFt data))))).
    { apply in_map. apply in_seq. lia. }
    specialize (H I). cbn [evaluateRow nOK] in H.
    apply andb_true_iff in H. exact H.
  - intros H r Hr. apply in_map_iff in Hr. destruct Hr as (i & <- & Hi).
    apply in_seq in Hi. cbn [evaluateRow nOK]. apply andb_true_iff.
    apply H. lia.
Qed.

(** ** Largest magnitude of a series *)

Lemma max2_is_nan a b : is_nan (max2 a b) = is_nan a || is_nan b.
Proof.
  destruct (is_nan a || is_nan b) eqn:E.
  - unfold max2. rewrite E. reflexivity.
  - apply orb_false_iff in E. destruct E as [Na Nb].
    destruct (max2_choice a b Na Nb) as [-> | ->]; assumption.
Qed.

Lemma fold_max2_is_nan xs :
  forall acc, is_nan (fold_left max2 xs acc) = is_nan acc || existsb is_nan xs.
Proof.
  induction xs as [| x xs IH]; intros acc; cbn [fold_left existsb].
  - rewrite orb_false_r. reflexivity.
  - rewrite IH, max2_is_nan, orb_assoc. reflexivity.
Qed.

Lemma existsb_is_nan_abs y : existsb is_nan (map abs y) = existsb is_nan y.
Proof.
  induction y as [| v y IH]; [reflexivity |].
  cbn [map existsb]. rewrite is_nan_abs, IH. reflexivity.
Qed.

Lemma all_not_nan_existsb y : existsb is_nan y = false -> all_not_nan y.
Proof.
  induction y as [| v y IH]; cbn [existsb]; intros H; constructor.
  - apply orb_false_iff in H. tauto.
  - apply IH. apply orb_false_iff in H. tauto.
Qed.

Lemma abs_nonneg x : is_nan x = false -> (0 <=? abs x) = true.
Proof.
  intros N. destruct (pos_or_nan_cases (abs x) (abs_pos_or_nan x)) as [H | H];
    [| exact H].
  rewrite is_nan_abs in H. congruence.
Qed.

Lemma seriesMaxAbs_is_nan y : is_nan (seriesMaxAbs y) = existsb is_nan y.
Proof.
  rewrite seriesMaxAbs_fold, fold_max2_is_nan, existsb_is_nan_abs.
  reflexivity.
Qed.

Lemma seriesMaxAbs_bounds y :
  existsb is_nan y = false ->
  (forall v, In v y -> (abs v <=? seriesMaxAbs y) = true) /\
  In (seriesMaxAbs y) (0 :: map abs y) /\
  (0 <=? seriesMaxAbs y) = true.
Proof.
  intros E. pose proof (seriesMaxAbs_is_nan y) as N. rewrite E in N.
  split; [| split].
  - intros v Hv. pose proof N as N'. rewrite seriesMaxAbs_fold in N' |- *.
    destruct (fold_max2_bounds _ _ N') as [_ H]. apply H. apply in_map. exact Hv.
  - rewrite seriesMaxAbs_fold. apply fold_max2_in; [reflexivity |].
    apply all_not_nan_existsb. rewrite existsb_is_nan_abs. exact E.
  - apply seriesMaxAbs_nonneg. exact N.
Qed.

(** X2. [seriesMaxAbs] is NaN exactly when the series holds a NaN.
    Otherwise it is an upper bound of every [abs(v)], it is [0] or one of
    those magnitudes, and it is at least [0]; an empty series gives [0]. *)
Theorem seriesMaxAbs_is_largest_magnitude :
  forall y : list number,
    is_nan (seriesMaxAbs y) = existsb is_nan y /\
    seriesMaxAbs [] = 0 /\
    (existsb is_nan y = false ->
     (forall v, In v y -> (abs v <=? seriesMaxAbs y) = true) /\
     In (seriesMaxAbs y) (0 :: map abs y) /\
     (0 <=? seriesMaxAbs y) = true).
Proof.
  intros y.
  split; [apply seriesMaxAbs_is_nan | split; [reflexivity |]].
  apply seriesMaxAbs_bounds.
Qed.

(** ** The highlighted point of a chart series *)

Section Highlight.

Variable ys : list number.

(** State of the scan after the first [n] entries. *)
Definition highlight_inv (n : nat) (st : nat * number) : Prop :=
  let '(maxIdx, maxAbs) := st in
  (0 <=? maxAbs) = true /\
  (forall j, (j < n)%nat -> (abs (nth j ys nan) <=? maxAbs) = true) /\
  (forall j, (j < maxIdx)%nat -> (abs (nth j ys nan) <? maxAbs) = true) /\
  (n = O -> maxIdx = O /\ maxAbs = 0) /\
  ((0 < n)%nat ->
   (maxIdx < n)%nat /\ (maxAbs =? abs (nth maxIdx ys nan)) = true).

Definition highlight_step (st : nat * number) (iy : nat * number)
  : nat * number :=
  if gtb (abs (snd iy)) (snd st) then (fst iy, abs (snd iy)) else st.

Lemma highlight_step_inv n st :
  (n < List.length ys)%nat -> is_nan (nth n ys nan) = false ->
  highlight_inv n st ->
  highlight_inv (S n) (highlight_step st (n, nth n ys nan)).
Proof.
  destruct st as [maxIdx maxAbs]. unfold highlight_inv, highlight_step, gtb.
  cbn [fst snd]. intros Hn Ny (H0 & Hle & Hlt & Hempty & Hnon).
  set (a := abs (nth n ys nan)).
  assert (Na : is_nan a = false) by (unfold a; rewrite is_nan_abs; exact Ny).
  destruct (leb_nn _ _ H0) as [_ Nm].
  destruct (maxAbs <? a) eqn:L.
  - split; [eapply leb_trans; [exact H0 | apply ltb_leb; exact L] |].
    split; [| split; [| split; [intros; lia |]]].
    + intros j Hj. destruct (Nat.eq_dec j n) as [-> | Hjn].
      * apply leb_refl. exact Na.
      * apply ltb_leb. eapply leb_ltb_trans; [apply Hle; lia | exact L].
    + intros j Hj. eapply leb_ltb_trans; [apply Hle; lia | exact L].
    + intros _. split; [lia |]. fold a. rewrite leb_ltb_eqb in *.
      destruct (a =? a) eqn:E; [reflexivity |].
      pose proof (leb_refl a Na) as R. rewrite leb_ltb_eqb, ltb_irrefl, E in R.
      discriminate R.
  - assert (Ha : (a <=? maxAbs) = true)
      by (rewrite leb_negb_ltb, L by assumption; reflexivity).
    split; [exact H0 |].
    split; [| split; [exact Hlt | split; [intros; lia |]]].
    + intros j Hj. destruct (Nat.eq_dec j n) as [-> | Hjn];
        [exact Ha | apply Hle; lia].
    + intros _. destruct n as [| n].
      * destruct (Hempty eq_refl) as [-> ->]. split; [lia |].
        fold a. apply leb_antisym_eqb; [apply abs_nonneg; exact Ny | exact Ha].
      * destruct (Hnon ltac:(lia)) as [Hi He]. split; [lia | exact He].
Qed.

Lemma combine_seq_snoc (l : list number) (y : number) :
  combine (seq 0 (List.length (l ++ [y]))) (l ++ [y])
  = combine (seq 0 (List.length l)) l ++ [(List.length l, y)].
Proof.
  rewrite length_app. cbn [List.length]. rewrite Nat.add_1_r, seq_S.
  cbn [Nat.add].
  assert (G : forall (a : list nat) (b : list number) a' b',
             List.length a = List.length b ->
             combine (a ++ a') (b ++ b') = combine a b ++ combine a' b').
  { induction a as [| x a IH]; intros [| z b] a' b' H; cbn in *; try lia;
      [reflexivity |]. f_equal. apply IH. lia. }
  rewrite G by (rewrite length_seq; reflexivity). reflexivity.
Qed.

End Highlight.

Lemma maxAbsIndex_invariant ys :
  all_not_nan ys -> highlight_inv ys (List.length ys) (maxAbsIndex ys).
Proof.
  induction ys as [| y ys IH] using rev_ind; intros N.
  - cbn. repeat split; intros; try lia; reflexivity.
  - unfold maxAbsIndex. rewrite combine_seq_snoc, fold_left_app.
    cbn [fold_left].
    change (fold_left _ (combine (seq 0 (List.length ys)) ys) (O, 0))
      with (maxAbsIndex ys).
    unfold all_not_nan in N. apply Forall_app in N. destruct N as [Nys Ny].
    inversion Ny as [| ? ? Ny' _]; subst.
    specialize (IH Nys).
    assert (Ext : forall n st, (n <= List.length ys)%nat ->
              highlight_inv ys n st -> highlight_inv (ys ++ [y]) n st).
    { intros n [i m] Hn (H0 & Hle & Hlt & He & Hnon). unfold highlight_inv.
      split; [exact H0 |].
      split; [| split; [| split; [exact He |]]].
      - intros j Hj. rewrite app_nth1 by lia. apply Hle. exact Hj.
      - intros j Hj. destruct n as [| n].
        + destruct (He eq_refl) as [-> _]. lia.
        + destruct (Hnon ltac:(lia)) as [Hi _].
          rewrite app_nth1 by lia. apply Hlt. exact Hj.
      - intros Hp. destruct (Hnon Hp) as [Hi E]. split; [exact Hi |].
        rewrite app_nth1 by lia. exact E. }
    pose proof (Ext _ _ (Nat.le_refl _) IH) as IH'.
    pose proof (highlight_step_inv (ys ++ [y]) (List.length ys) (maxAbsIndex ys))
      as Step.
    rewrite nth_middle in Step.
    rewrite length_app. cbn [List.length]. rewrite Nat.add_1_r.
    apply Step; [rewrite length_app; cbn; lia | exact Ny' | exact IH'].
Qed.

(** X3. On a series without NaN and with at least one entry, the point a
    chart highlights is the first one of largest magnitude: its index is in
    range, the label value equals the magnitude at that index, no entry has a
    larger magnitude, every earlier entry has a strictly smaller one, and
    the label value equals [seriesMaxAbs] of the series. *)
Theorem chart_highlight_is_first_maximum :
  forall ys : list number,
    existsb is_nan ys = false -> ys <> [] ->
    let '(maxIdx, maxAbs) := maxAbsIndex ys in
    (maxIdx < List.length ys)%nat /\
    (maxAbs =? abs (at_index ys maxIdx)) = true /\
    (forall v, In v ys -> (abs v <=? maxAbs) = true) /\
    (forall j, (j < maxIdx)%nat -> (abs (at_index ys j) <? maxAbs) = true) /\
    (maxAbs =? seriesMaxAbs ys) = true.
Proof.
  intros ys E Hne.
  pose proof (maxAbsIndex_invariant ys (all_not_nan_existsb ys E)) as Inv.
  destruct (maxAbsIndex ys) as [maxIdx maxAbs]. unfold highlight_inv in Inv.
  destruct Inv as (H0 & Hle & Hlt & _ & Hnon).
  assert (Hpos : (0 < List.length ys)%nat)
    by (destruct ys; [congruence | cbn; lia]).
  destruct (Hnon Hpos) as [Hi He].
  assert (Hall : forall v, In v ys -> (abs v <=? maxAbs) = true).
  { intros v Hv. destruct (In_nth ys v nan Hv) as (j & Hj & <-).
    apply Hle. exact Hj. }
  split; [exact Hi | split; [exact He | split; [exact Hall |
    split; [exact Hlt |]]]].
  destruct (seriesMaxAbs_bounds ys E) as (Hb & Hin & _).
  apply leb_antisym_eqb.
  - eapply leb_trans.
    + rewrite leb_ltb_eqb, He, orb_true_r. reflexivity.
    + apply Hb. apply nth_In. exact Hi.
  - destruct Hin as [<- | Hin]; [exact H0 |].
    apply in_map_iff in Hin. destruct Hin as (v & <- & Hv). apply Hall. exact Hv.
Qed.

Lemma chart_highlight_is_first_maximum_witness :
  let '(maxIdx, maxAbs) := maxAbsIndex [0.1; -0.4; 0.4] in
  (maxIdx < List.length [0.1; -0.4; 0.4]%float)%nat /\
  (maxAbs =? abs (at_index [0.1; -0.4; 0.4] maxIdx)) = true /\
  (forall v, In v [0.1; -0.4; 0.4] -> (abs v <=? maxAbs) = true) /\
  (forall j, (j < maxIdx)%nat ->
     (abs (at_index [0.1; -0.4; 0.4] j) <? maxAbs) = true) /\
  (maxAbs =? seriesMaxAbs [0.1; -0.4; 0.4]) = true.
Proof.
  apply (chart_highlight_is_first_maximum [0.1; -0.4; 0.4]).
  - reflexivity.
  - discriminate.
Defined.

(** ** Rate of change between adjacent stations *)

Lemma ltb_zero_carries r : (0 <? r) = true -> carries false (Prim2SF r).
Proof.
  rewrite ltb_spec, Prim2SF_zero. unfold SFltb.
  destruct (Prim2SF r) as [sr | sr | | sr m e]; cbn; try discriminate;
    destruct sr; try discriminate; reflexivity.
Qed.

Lemma floored_pos_or_nan minSpan d :
  (0 <? minSpan) = true -> is_finite minSpan = true ->
  pos_or_nan (Prim2SF (Math_max [minSpan; d])).
Proof.
  intros Pos Fm. destruct (is_nan d) eqn:Nd.
  - left. apply is_nan_spec. unfold Math_max; cbn [fold_left].
    rewrite max2_is_nan, Nd, orb_true_r. reflexivity.
  - right. destruct (floored_span minSpan d Pos Fm Nd) as [H _].
    apply ltb_zero_carries. eapply ltb_leb_trans; eassumption.
Qed.

(** X4. The rate of change of the survey table is [0] at the first station;
    at every station it is at least [0] or NaN, never negative; and for
    finite station positions its divisor [max(1e-6, st[i] - st[i-1])] is at
    least 1e-6, also where stations repeat or run backwards. *)
Theorem adjacent_rate_shape :
  forall (stationFt y : list number),
    adjacentRate stationFt y 0 = 0 /\
    (forall i,
        is_nan (adjacentRate stationFt y i) = true \/
        (0 <=? adjacentRate stationFt y i) = true) /\
    (forall i,
        is_finite (at_index stationFt (S i)) = true ->
        is_finite (at_index stationFt i) = true ->
        (1e-6 <=? Math_max [1e-6; at_index stationFt (S i) - at_index stationFt i])
        = true).
Proof.
  intros stationFt y. split; [reflexivity | split].
  - intros [| p]; [right; reflexivity |].
    apply pos_or_nan_cases. unfold adjacentRate. apply mul_pos_or_nan.
    + apply abs_pos_or_nan.
    + apply div_pos_or_nan; [right; vm_compute; reflexivity |].
      apply floored_pos_or_nan; reflexivity.
  - intros i F1 F0.
    apply (floored_span 1e-6 _ eq_refl eq_refl).
    apply sub_finite_not_nan; assumption.
Qed.

(** ** Fail bracket and correction callouts of the cross-level diagram *)

Lemma indexOf_true_spec fails :
  forall start,
    match indexOf_true fails start with
    | None => forall j, (j < List.length fails)%nat -> nth j fails false = false
    | Some i =>
        (start <= i < start + List.length fails)%nat /\
        nth (i - start) fails false = true /\
        (forall j, (j < i - start)%nat -> nth j fails false = false)
    end.
Proof.
  induction fails as [| b fails IH]; intros start; cbn [indexOf_true].
  - intros j Hj. cbn in Hj. lia.
  - destruct b.
    + rewrite Nat.sub_diag. cbn [List.length nth].
      split; [lia | split; [reflexivity | intros j Hj; lia]].
    + specialize (IH (S start)).
      destruct (indexOf_true fails (S start)) as [i |].
      * destruct IH as (Hi & Ht & Hf). cbn [List.length].
        replace (i - start)%nat with (S (i - S start)) by lia.
        split; [lia | split; [exact Ht |]].
        intros [| j] Hj; [reflexivity | apply Hf; lia].
      * intros [| j] Hj; [reflexivity |]. apply IH. cbn in Hj. lia.
Qed.

Lemma lastIndexOf_true_spec fails :
  forall start found,
    match lastIndexOf_true fails start found with
    | None =>
        found = None /\
        forall j, (j < List.length fails)%nat -> nth j fails false = false
    | Some l =>
        (found = Some l /\
         forall j, (j < List.length fails)%nat -> nth j fails false = false) \/
        ((start <= l < start + List.length fails)%nat /\
         nth (l - start) fails false = true /\
         forall j, (l - start < j < List.length fails)%nat ->
                   nth j fails false = false)
    end.
Proof.
  induction fails as [| b fails IH]; intros start found;
    cbn [lastIndexOf_true].
  - destruct found as [l |]; [left |]; split; auto; intros j Hj; cbn in Hj; lia.
  - specialize (IH (S start) (if b then Some start else found)).
    destruct (lastIndexOf_true fails (S start) _) as [l |].
    + destruct IH as [[E Hf] | (Hl & Ht & Hf)].
      * destruct b.
        -- injection E as <-. right. rewrite Nat.sub_diag. cbn [List.length].
           split; [lia | split; [reflexivity |]].
           intros [| j] Hj; [lia | apply Hf; lia].
        -- left. split; [exact E |].
           intros [| j] Hj; [reflexivity | apply Hf; cbn in Hj; lia].
      * right. cbn [List.length].
        replace (l - start)%nat with (S (l - S start)) by lia.
        split; [lia | split; [exact Ht |]].
        intros [| j] Hj; [lia | apply Hf; lia].
    + destruct IH as [E Hf]. destruct b; [discriminate E |].
      split; [exact E |].
      intros [| j] Hj; [reflexivity | apply Hf; cbn in Hj; lia].
Qed.

(** What the drawing says about the failing range. *)
Definition bracket_outcome (tolRaw : number) (pts : list Pt.t)
  (d : crossLevelDrawing) : Prop :=
  let tol := toNum tolRaw 0.375 in
  let fails := map (crossLevelFail tol) pts in
  match cl_bracket d with
  | None => forall p, In p pts -> crossLevelFail tol p = false
  | Some (x1, x2) =>
      exists firstFailIdx lastFailIdx,
        (firstFailIdx <= lastFailIdx < List.length pts)%nat /\
        x1 = xForFt pts (stationFt_at pts firstFailIdx) /\
        x2 = xForFt pts (stationFt_at pts lastFailIdx) /\
        nth firstFailIdx fails false = true /\
        nth lastFailIdx fails false = true /\
        (forall j, (j < firstFailIdx)%nat -> nth j fails false = false) /\
        (forall j, (lastFailIdx < j < List.length pts)%nat ->
                   nth j fails false = false)
  end.

(** X5. The cross-level diagram carries the red bracket exactly when some
    point fails.  The bracket then runs from the x position of the first
    failing point to that of the last failing one, and every point before
    the first and after the last passes; without a bracket every point
    passes. *)
Theorem fail_bracket_spans_failing_range :
  forall (tolRaw : number) (pts : list Pt.t) (d : crossLevelDrawing),
    buildCrossLevelDiagramSvgString tolRaw pts = CrossLevelSvg d ->
    bracket_outcome tolRaw pts d.
Proof.
  intros tolRaw pts d H. unfold buildCrossLevelDiagramSvgString in H.
  destruct pts as [| p0 rest] eqn:Ep; [discriminate H |].
  rewrite <- Ep in *. injection H as <-. unfold bracket_outcome.
  cbn [cl_bracket].
  set (tol := toNum tolRaw 0.375). set (fails := map (crossLevelFail tol) pts).
  assert (Hlen : List.length fails = List.length pts)
    by (unfold fails; apply length_map).
  pose proof (indexOf_true_spec fails O) as Hfirst.
  pose proof (lastIndexOf_true_spec fails O None) as Hlast.
  destruct (indexOf_true fails O) as [i |].
  - destruct Hfirst as (Hi & Hti & Hfi). rewrite Nat.sub_0_r in *.
    destruct (lastIndexOf_true fails O None) as [l |].
    + destruct Hlast as [[E _] | (Hl & Htl & Hfl)]; [discriminate E |].
      rewrite Nat.sub_0_r in *. exists i, l.
      assert (Hil : (i <= l)%nat).
      { destruct (Nat.le_gt_cases i l) as [L | G]; [exact L |].
        rewrite Hfl in Hti by lia. discriminate Hti. }
      rewrite <- Hlen. repeat split; try assumption; try lia.
    + destruct Hlast as [_ Hf]. rewrite Hf in Hti by lia. discriminate Hti.
  - intros p Hp. destruct (In_nth pts p p0 Hp) as (j & Hj & <-).
    specialize (Hfirst j ltac:(lia)). unfold fails in Hfirst.
    rewrite (nth_indep _ false (crossLevelFail tol p0)) in Hfirst
      by (rewrite length_map; exact Hj).
    rewrite map_nth in Hfirst. exact Hfirst.
Qed.

Lemma fail_bracket_spans_failing_range_witness :
  bracket_outcome 0.25
    [ {| Pt.stationFt := 0; Pt.valueIn := 0.1 |};
      {| Pt.stationFt := 10; Pt.valueIn := 0.4 |};
      {| Pt.stationFt := 20; Pt.valueIn := 0.2 |};
      {| Pt.stationFt := 30; Pt.valueIn := -0.3 |} ]
    {| cl_spanFt := 30;
       cl_bracket := Some (110 + 10 / 30 * 940, 110 + 30 / 30 * 940);
       cl_marks :=
         [ {| sm_x := 110 + 0 / 30 * 940; sm_fail := false;
              sm_valueLabel := ("1/8" ++ inch_mark)%string;
              sm_correction := None |};
           {| sm_x := 110 + 10 / 30 * 940; sm_fail := true;
              sm_valueLabel := ("3/8" ++ inch_mark)%string;
              sm_correction := Some ("V+1/8" ++ inch_mark)%string |};
           {| sm_x := 110 + 20 / 30 * 940; sm_fail := false;
              sm_valueLabel := ("3/16" ++ inch_mark)%string;
              sm_correction := None |};
           {| sm_x := 110 + 30 / 30 * 940; sm_fail := true;
              sm_valueLabel := ("5/16" ++ inch_mark)%string;
              sm_correction := Some ("V+1/16" ++ inch_mark)%string |} ] |}.
Proof.
  apply fail_bracket_spans_failing_range. vm_compute. reflexivity.
Defined.

(** ** Correction callouts *)

Lemma max2_zero_positive d :
  is_nan d = false -> (0 <? Math_max [0; d]) = (0 <? d).
Proof.
  intros Nd. unfold Math_max; cbn [fold_left].
  rewrite (max2_from_neg_infinity 0 eq_refl).
  assert (Nr : is_nan (max2 0 d) = false)
    by (rewrite max2_is_nan, Nd; reflexivity).
  destruct (max2_bounds 0 d Nr) as [_ Hd].
  destruct (0 <? d) eqn:L.
  - eapply ltb_leb_trans; eassumption.
  - assert (Hd0 : (d <=? 0) = true)
      by (rewrite leb_negb_ltb, L by (try assumption; reflexivity); reflexivity).
    destruct (max2_choice 0 d eq_refl Nd) as [-> | ->];
      [apply ltb_irrefl | exact L].
Qed.

(** The callout text exists exactly when the value is out of tolerance. *)
Lemma correctionText_iff_fail tol v :
  is_finite tol = true -> is_finite v = true ->
  (exists label, correctionText tol v = Some label) <-> (tol <? abs v) = true.
Proof.
  intros Ft Fv. unfold correctionText, gtb.
  assert (Fa : is_finite (abs v) = true) by (rewrite is_finite_abs; exact Fv).
  rewrite max2_zero_positive by (apply sub_finite_not_nan; assumption).
  rewrite (sub_positive (abs v) tol Fa Ft).
  destruct (tol <? abs v); split; intros H; try discriminate; eauto.
  destruct H as [label H]. discriminate H.
Qed.

(** Every mark of the drawing is consistent with the check of its point. *)
Definition marks_consistent (tolRaw : number) (pts : list Pt.t)
  (d : crossLevelDrawing) : Prop :=
  List.length (cl_marks d) = List.length pts /\
  forall i p m,
    nth_error pts i = Some p -> nth_error (cl_marks d) i = Some m ->
    sm_fail m = (toNum tolRaw 0.375 <? abs (Pt.valueIn p)) /\
    sm_valueLabel m = nearestFractionStringInches (abs (Pt.valueIn p)) /\
    (sm_fail m = true <-> exists label, sm_correction m = Some label).

(** X6. The cross-level diagram draws one mark per point, in order; a mark
    is red exactly when [abs(value)] exceeds the tolerance, its box shows the
    nearest fraction of [abs(value)], and for finite values it carries a
    correction callout exactly when it is red. *)
Theorem diagram_marks_follow_checks :
  forall (tolRaw : number) (pts : list Pt.t) (d : crossLevelDrawing),
    Forall (fun p => is_finite (Pt.valueIn p) = true) pts ->
    buildCrossLevelDiagramSvgString tolRaw pts = CrossLevelSvg d ->
    marks_consistent tolRaw pts d.
Proof.
  intros tolRaw pts d F H. unfold buildCrossLevelDiagramSvgString in H.
  destruct pts as [| p0 rest] eqn:Ep; [discriminate H |].
  rewrite <- Ep in *. injection H as <-. unfold marks_consistent.
  cbn [cl_marks]. split; [apply length_map |].
  intros i p m Hp Hm. rewrite nth_error_map, Hp in Hm. cbn in Hm.
  injection Hm as <-. cbn [sm_fail sm_valueLabel sm_correction].
  split; [reflexivity | split; [reflexivity |]].
  assert (Fp : is_finite (Pt.valueIn p) = true).
  { rewrite Forall_forall in F. apply F. eapply nth_error_In. exact Hp. }
  assert (Ft : is_finite (toNum tolRaw 0.375) = true)
    by (apply toNum_finite; reflexivity).
  unfold crossLevelFail, gtb.
  destruct (toNum tolRaw 0.375 <? abs (Pt.valueIn p)) eqn:L.
  - split; [intros _ | reflexivity].
    apply correctionText_iff_fail; assumption.
  - split; [discriminate | intros [label E]; discriminate E].
Qed.

Lemma diagram_marks_follow_checks_witness :
  marks_consistent 0.25
    [ {| Pt.stationFt := 0; Pt.valueIn := 0.1 |};
      {| Pt.stationFt := 10; Pt.valueIn := 0.4 |} ]
    {| cl_spanFt := 10;
       cl_bracket := Some (110 + 10 / 10 * 940, 110 + 10 / 10 * 940);
       cl_marks :=
         [ {| sm_x := 110 + 0 / 10 * 940; sm_fail := false;
              sm_valueLabel := ("1/8" ++ inch_mark)%string;
              sm_correction := None |};
           {| sm_x := 110 + 10 / 10 * 940; sm_fail := true;
              sm_valueLabel := ("3/8" ++ inch_mark)%string;
              sm_correction := Some ("V+1/8" ++ inch_mark)%string |} ] |}.
Proof.
  apply diagram_marks_follow_checks.
  - repeat constructor.
  - vm_compute. reflexivity.
Defined.

(** ** Left edge of the drawings *)

Lemma sub_self_zero x : is_finite x = true -> Prim2SF (x - x) = S754_zero false.
Proof.
  intros F. apply is_finite_spec in F. rewrite sub_spec. unfold SF64sub.
  destruct (Prim2SF x) as [sx | sx | | sx m e]; cbn in F; try contradiction.
  - destruct sx; reflexivity.
  - cbn [SFsub]. rewrite Z.min_id. unfold shl_align. rewrite ?Z.sub_diag.
    cbn [fst]. rewrite ?Z.sub_diag. reflexivity.
Qed.

Lemma ltb_zero_strictly r : (0 <? r) = true -> strictly false (Prim2SF r).
Proof.
  rewrite ltb_spec, Prim2SF_zero. unfold SFltb.
  destruct (Prim2SF r) as [sr | sr | | sr m e]; cbn; try discriminate;
    destruct sr; try discriminate; reflexivity.
Qed.

(** A station at the left end of the range is drawn on the left margin:
    [margin + ((x - x) / span) * width] is [margin]. *)
Lemma left_edge margin span width x :
  is_finite x = true -> (0 <? span) = true ->
  (0 <? width) = true -> is_finite width = true -> is_finite margin = true ->
  (0 <? margin) = true ->
  margin + ((x - x) / span) * width = margin.
Proof.
  intros Fx Ps Pw Fw Fm Pm. apply Prim2SF_inj.
  rewrite add_spec, mul_spec, div_spec, (sub_self_zero x Fx).
  apply ltb_zero_strictly in Ps, Pw, Pm. apply is_finite_spec in Fw, Fm.
  destruct (Prim2SF span) as [ss | ss | | ss ms es]; cbn in Ps; subst;
    try contradiction;
    destruct (Prim2SF width) as [sw | sw | | sw mw ew]; cbn in Pw, Fw; subst;
      try contradiction;
    destruct (Prim2SF margin) as [sm | sm | | sm mm em]; cbn in Pm, Fm; subst;
      try contradiction; reflexivity.
Qed.

Definition left_margin_outcome (pts : list Pt.t) (stationFt : list number)
  : Prop :=
  (exists p, In p pts /\ Pt.stationFt p = Math_min (map Pt.stationFt pts) /\
             xForFt pts (Pt.stationFt p) = 110) /\
  (exists x, In x stationFt /\ x = Math_min stationFt /\
             xToPx stationFt x = 70).

(** X7. With finite station positions, the smallest station of a
    cross-level diagram is one of its points and is drawn exactly on the left
    margin, x = 110; in a chart the smallest station is drawn at x = 70. *)
Theorem smallest_station_on_left_margin :
  forall (pts : list Pt.t) (stationFt : list number),
    pts <> [] -> stationFt <> [] ->
    Forall (fun p => is_finite (Pt.stationFt p) = true) pts ->
    Forall (fun x => is_finite x = true) stationFt ->
    left_margin_outcome pts stationFt.
Proof.
  intros pts stationFt Hp Hs Fp Fs. split.
  - assert (Hne : map Pt.stationFt pts <> [])
      by (destruct pts; [congruence | discriminate]).
    assert (F' : Forall (fun x => is_finite x = true) (map Pt.stationFt pts))
      by (apply Forall_map; exact Fp).
    pose proof (Math_min_in _ Hne F') as Hin.
    apply in_map_iff in Hin. destruct Hin as (p & Ep & Hin).
    exists p. split; [exact Hin | split; [exact Ep |]].
    rewrite Ep. unfold xForFt. apply left_edge; try reflexivity.
    + rewrite <- Ep. rewrite Forall_forall in Fp. apply Fp. exact Hin.
    + destruct (floored_span 1 _ eq_refl eq_refl (span_not_nan _ Hne F'))
        as [H1 _].
      unfold diagram_spanFt. eapply ltb_leb_trans; [| exact H1]. reflexivity.
  - pose proof (Math_min_in _ Hs Fs) as Hin.
    exists (Math_min stationFt). split; [exact Hin | split; [reflexivity |]].
    unfold xToPx. apply left_edge; try reflexivity.
    + rewrite Forall_forall in Fs. apply Fs. exact Hin.
    + destruct (floored_span 1e-6 _ eq_refl eq_refl (span_not_nan _ Hs Fs))
        as [H1 _].
      unfold chart_xSpan. eapply ltb_leb_trans; [| exact H1]. reflexivity.
Qed.

Lemma smallest_station_on_left_margin_witness :
  left_margin_outcome
    [ {| Pt.stationFt := 20; Pt.valueIn := 0.1 |};
      {| Pt.stationFt := 5; Pt.valueIn := 0.4 |} ]
    [5; 20; 40].
Proof.
  apply smallest_station_on_left_margin.
  - discriminate.
  - discriminate.
  - repeat constructor.
  - repeat constructor.
Defined.

(** * Further properties of the CSV import *)

(** ** Column lookup *)

Lemma idx_from_lastIndexOf key headers :
  forall i found,
    idx_from key headers i found
    = lastIndexOf_true
        (map (fun h => String.eqb (normalizeHeader h) key) headers) i found.
Proof.
  induction headers as [| h headers IH]; intros i found; cbn; [reflexivity |].
  apply IH.
Qed.

(** X8. Looking a column up by its normalized name finds the last header
    with that name: the index returned is in range, the header there
    normalizes to the name and no later header does; nothing is returned
    exactly when no header normalizes to the name. *)
Theorem idx_finds_last_matching_header :
  forall (headers : list string) (key : string),
    match idx headers key with
    | None => forall h, In h headers -> normalizeHeader h <> key
    | Some i =>
        (i < List.length headers)%nat /\
        normalizeHeader (nth i headers EmptyString) = key /\
        (forall j, (i < j < List.length headers)%nat ->
                   normalizeHeader (nth j headers EmptyString) <> key)
    end.
Proof.
  intros headers key. unfold idx. rewrite idx_from_lastIndexOf.
  set (m := fun h => String.eqb (normalizeHeader h) key).
  pose proof (lastIndexOf_true_spec (map m headers) O None) as H.
  assert (Hnth : forall j, (j < List.length headers)%nat ->
            nth j (map m headers) false = m (nth j headers EmptyString)).
  { intros j Hj. rewrite (nth_indep _ false (m EmptyString))
      by (rewrite length_map; exact Hj). apply map_nth. }
  rewrite length_map in H.
  destruct (lastIndexOf_true (map m headers) O None) as [i |].
  - destruct H as [[E _] | (Hi & Ht & Hf)]; [discriminate E |].
    rewrite Nat.sub_0_r in *. split; [lia | split].
    + rewrite Hnth in Ht by lia. apply String.eqb_eq. exact Ht.
    + intros j Hj. specialize (Hf j ltac:(lia)). rewrite Hnth in Hf by lia.
      apply String.eqb_neq. exact Hf.
  - destruct H as [_ Hf]. intros h Hh.
    destruct (In_nth headers h EmptyString Hh) as (j & Hj & <-).
    specialize (Hf j Hj). rewrite Hnth in Hf by exact Hj.
    apply String.eqb_neq. exact Hf.
Qed.

(** ** Imports that are turned away *)

(** X9. An import without header line or without data rows leaves no survey
    data and the no-data status; an import that lacks one of the three
    required columns leaves no survey data and the message naming the
    required headers, whatever its rows hold.  No chart call is made in
    either case. *)
Theorem import_without_required_columns :
  (forall charts rows,
      onParseSurvey charts [] rows
      = Some {| st_surveyData := None; st_status := StatusNoData |}) /\
  (forall charts headers,
      onParseSurvey charts headers []
      = Some {| st_surveyData := None; st_status := StatusNoData |}) /\
  (forall charts headers rows,
      headers <> [] -> rows <> [] ->
      idx headers "stationft" = None \/ idx headers "railn" = None \/
      idx headers "rails" = None ->
      parseSurveyData headers rows = ParseError missing_headers_message /\
      onParseSurvey charts headers rows
      = Some {| st_surveyData := None;
                st_status := StatusParseError missing_headers_message |}).
Proof.
  split; [reflexivity | split].
  - intros charts [| h hs]; reflexivity.
  - intros charts headers rows Hh Hr H.
    assert (E : parseSurveyData headers rows = ParseError missing_headers_message).
    { unfold parseSurveyData.
      destruct headers as [| h hs]; [congruence |].
      destruct rows as [| r rs]; [congruence |].
      destruct H as [-> | [-> | ->]];
        repeat match goal with
               | |- context [match ?o with Some _ => _ | None => _ end] =>
                   destruct o
               end; reflexivity. }
    split; [exact E | unfold onParseSurvey; rewrite E; reflexivity].
Qed.

(** ** Shape of the parsed data *)

Definition beam_entry_ok (b : option number) : Prop :=
  match b with
  | Some x => is_finite x = true
  | None => True
  end.

Definition wellformed (d : surveyData) : Prop :=
  (2 <= List.length (sd_stationFt d))%nat /\
  List.length (sd_railN d) = List.length (sd_stationFt d) /\
  List.length (sd_railS d) = List.length (sd_stationFt d) /\
  List.length (sd_beamN d) = List.length (sd_stationFt d) /\
  List.length (sd_beamS d) = List.length (sd_stationFt d) /\
  Forall (fun x => is_finite x = true) (sd_stationFt d) /\
  Forall (fun x => is_finite x = true) (sd_railN d) /\
  Forall (fun x => is_finite x = true) (sd_railS d) /\
  Forall beam_entry_ok (sd_beamN d) /\
  Forall beam_entry_ok (sd_beamS d).

Lemma sorted_by_Forall {A} (P : A -> Prop) order (l : list A) (d : A) :
  Forall P l -> Forall (fun i => (i < List.length l)%nat) order ->
  Forall P (sorted_by order l d).
Proof.
  intros Hl Ho. unfold sorted_by. apply Forall_map.
  eapply Forall_impl; [| exact Ho]. intros i Hi. cbn.
  rewrite Forall_forall in Hl. apply Hl. apply nth_In. exact Hi.
Qed.

Lemma station_order_in_range stationFt :
  Forall (fun i => (i < List.length stationFt)%nat) (station_order stationFt).
Proof.
  apply Forall_forall. intros i Hi.
  apply (Permutation_in _ (station_order_perm stationFt)) in Hi.
  apply in_seq in Hi. lia.
Qed.

Lemma keptRow_ok iSt iRn iRs iBn iBs r :
  rowValid iSt iRn iRs r = true ->
  let row := keptRow iSt iRn iRs iBn iBs r in
  is_finite (row_st row) = true /\ is_finite (row_rn row) = true /\
  is_finite (row_rs row) = true /\ beam_entry_ok (row_bn row) /\
  beam_entry_ok (row_bs row).
Proof.
  unfold rowValid, isFinite. intros V.
  apply andb_true_iff in V. destruct V as [V V3].
  apply andb_true_iff in V. destruct V as [V1 V2]. cbn.
  repeat split; try assumption.
  - destruct iBn; cbn; [apply toNum_finite; reflexivity | exact I].
  - destruct iBs; cbn; [apply toNum_finite; reflexivity | exact I].
Qed.

(** X10. Whatever the import hands to the charts is well formed: at least
    two stations, five arrays of one common length, every station and rail
    value finite, and every beam entry either [null] or finite. *)
Theorem parsed_data_wellformed :
  forall (headers : list string) (rows : list csvRow) (d : surveyData),
    parseSurveyData headers rows = Parsed d -> wellformed d.
Proof.
  intros headers rows d H. unfold parseSurveyData in H.
  destruct headers as [| h hs]; [discriminate H |].
  destruct rows as [| r rs]; [discriminate H |].
  destruct (idx (h :: hs) "stationft") as [iSt |]; [| discriminate H].
  destruct (idx (h :: hs) "railn") as [iRn |]; [| discriminate H].
  destruct (idx (h :: hs) "rails") as [iRs |]; [| discriminate H].
  set (iBn := idx (h :: hs) "beamn") in *.
  set (iBs := idx (h :: hs) "beams") in *.
  set (accepted := readRows iSt iRn iRs iBn iBs (r :: rs)) in *.
  cbv zeta in H.
  destruct (Nat.ltb (List.length (map row_st accepted)) 2) eqn:L;
    [discriminate H |].
  injection H as <-. apply Nat.ltb_ge in L. rewrite length_map in L.
  set (order := station_order (map row_st accepted)).
  assert (Ho : Forall (fun i => (i < List.length accepted)%nat) order).
  { pose proof (station_order_in_range (map row_st accepted)) as R.
    rewrite length_map in R. exact R. }
  assert (Hlo : List.length order = List.length accepted).
  { unfold order.
    rewrite (Permutation_length (station_order_perm _)), length_seq.
    apply length_map. }
  assert (Ok : Forall (fun row =>
                 is_finite (row_st row) = true /\ is_finite (row_rn row) = true /\
                 is_finite (row_rs row) = true /\ beam_entry_ok (row_bn row) /\
                 beam_entry_ok (row_bs row)) accepted).
  { unfold accepted. rewrite readRows_filter. apply Forall_map.
    apply Forall_forall. intros r' Hr'. apply filter_In in Hr'.
    apply keptRow_ok. apply Hr'. }
  unfold wellformed; cbn [sd_stationFt sd_railN sd_railS sd_beamN sd_beamS].
  unfold sorted_by at 1 2 3 4 5 6 7 8 9. rewrite !length_map.
  repeat split; try lia.
  - apply sorted_by_Forall; [| rewrite length_map; exact Ho].
    apply Forall_map. eapply Forall_impl; [| exact Ok]. cbn. tauto.
  - apply sorted_by_Forall; [| rewrite length_map; exact Ho].
    apply Forall_map. eapply Forall_impl; [| exact Ok]. cbn. tauto.
  - apply sorted_by_Forall; [| rewrite length_map; exact Ho].
    apply Forall_map. eapply Forall_impl; [| exact Ok]. cbn. tauto.
  - apply sorted_by_Forall; [| rewrite length_map; exact Ho].
    apply Forall_map. eapply Forall_impl; [| exact Ok]. cbn. tauto.
  - apply sorted_by_Forall; [| rewrite length_map; exact Ho].
    apply Forall_map. eapply Forall_impl; [| exact Ok]. cbn. tauto.
Qed.

Lemma parsed_data_wellformed_witness :
  wellformed
    {| sd_stationFt := [0; 10; 20];
       sd_railN := [0.3; 0; 0.1];
       sd_railS := [0.1; 0; 0.2];
       sd_beamN := [Some 0; Some 0.05; Some 0.1];
       sd_beamS := [None; None; None];
       sd_hasBeam := false |}.
Proof.
  apply (parsed_data_wellformed
           ["StationFt"; "RailN"; "RailS"; "BeamN"]%string
           [[20; 0.1; 0.2; 0.1]; [0; 0.3; 0.1; nan]; [nan; 1; 1; 1];
            [10; 0; 0; 0.05]]).
  vm_compute. reflexivity.
Defined.

(** ** Order of rows with equal stations *)

(** Order by station, and by original position among equal stations. *)
Definition station_then_index (p q : number * nat) : Prop :=
  (fst p <? fst q) = true \/ ((fst p =? fst q) = true /\ (snd p < snd q)%nat).

Lemma leb_cases a b :
  (a <=? b) = true -> (a <? b) = true \/ (a =? b) = true.
Proof. rewrite leb_ltb_eqb. apply orb_true_iff. Qed.

Lemma eqb_leb a b : (a =? b) = true -> (a <=? b) = true.
Proof. intros E. rewrite leb_ltb_eqb, E, orb_true_r. reflexivity. Qed.

Lemma eqb_trans a b c :
  (a =? b) = true -> (b =? c) = true -> (a =? c) = true.
Proof.
  intros E1 E2. apply leb_antisym_eqb.
  - eapply leb_trans; apply eqb_leb; eassumption.
  - eapply leb_trans; apply eqb_leb; rewrite eqb_sym; eassumption.
Qed.

Lemma station_then_index_trans p q r :
  station_then_index p q -> station_then_index q r -> station_then_index p r.
Proof.
  unfold station_then_index. intros [L1 | [E1 I1]] [L2 | [E2 I2]].
  - left. eapply ltb_trans; eassumption.
  - left. eapply ltb_leb_trans; [exact L1 | apply eqb_leb; exact E2].
  - left. eapply leb_ltb_trans; [apply eqb_leb; exact E1 | exact L2].
  - right. split; [eapply eqb_trans; eassumption | lia].
Qed.

Lemma insert_by_stable b l :
  is_finite (fst b) = true -> keys_finite l ->
  Forall (fun a => (snd a < snd b)%nat) l ->
  Sorted station_then_index l -> Sorted station_then_index (insert_by b l).
Proof.
  intros Fb Fl Il S.
  induction l as [| a l IH]; cbn [insert_by]; [repeat constructor |].
  inversion Fl as [| ? ? Fa Fl']; subst.
  inversion Il as [| ? ? Ia Il']; subst.
  inversion S as [| ? ? S' Hd]; subst.
  destruct (gtb (comparator a b) 0) eqn:L;
    rewrite (comparator_positive a b Fa Fb) in L.
  - constructor; [exact S |]. constructor. left. exact L.
  - specialize (IH Fl' Il' S'). constructor; [exact IH |].
    assert (Hab : station_then_index a b).
    { assert (Le : (fst a <=? fst b) = true).
      { rewrite leb_negb_ltb by (apply is_finite_not_nan; assumption).
        apply negb_true_iff. exact L. }
      destruct (leb_cases _ _ Le) as [H | H]; [left; exact H |].
      right. split; [exact H | exact Ia]. }
    destruct l as [| a' l]; cbn [insert_by].
    + constructor. exact Hab.
    + destruct (gtb (comparator a' b) 0); constructor;
        [exact Hab | inversion Hd; assumption].
Qed.

Lemma sort_by_station_stable_from l :
  forall start acc,
    Forall (fun x => is_finite x = true) l ->
    keys_finite acc -> Forall (fun a => (snd a < start)%nat) acc ->
    Sorted station_then_index acc ->
    Sorted station_then_index
      (fold_left (fun sorted b => insert_by b sorted)
         (combine l (seq start (List.length l))) acc).
Proof.
  induction l as [| x l IH]; intros start acc Fl Fa Ia S;
    cbn [List.length seq combine fold_left]; [exact S |].
  inversion Fl as [| ? ? Fx Fl']; subst.
  apply IH; [exact Fl' | | |].
  - unfold keys_finite. apply Forall_forall. intros a Ha.
    apply (Permutation_in _ (insert_by_perm _ _)) in Ha.
    destruct Ha as [<- | Ha]; [exact Fx |].
    unfold keys_finite in Fa. rewrite Forall_forall in Fa. apply Fa. exact Ha.
  - apply Forall_forall. intros a Ha.
    apply (Permutation_in _ (insert_by_perm _ _)) in Ha.
    destruct Ha as [<- | Ha]; [cbn; lia |].
    rewrite Forall_forall in Ia. specialize (Ia a Ha). lia.
  - apply insert_by_stable; try assumption.
Qed.

(** Order of two row indices by the station they carry, and by position
    among equal stations. *)
Definition row_before (stationFt : list number) (i j : nat) : Prop :=
  (at_index stationFt i <? at_index stationFt j) = true \/
  ((at_index stationFt i =? at_index stationFt j) = true /\ (i < j)%nat).

Lemma row_before_trans stationFt i j k :
  row_before stationFt i j -> row_before stationFt j k ->
  row_before stationFt i k.
Proof.
  intros H1 H2.
  apply (station_then_index_trans
           (at_index stationFt i, i) (at_index stationFt j, j)
           (at_index stationFt k, k)); assumption.
Qed.

Lemma Sorted_map_snd stationFt (l : list (number * nat)) :
  Forall (fun vi => at_index stationFt (snd vi) = fst vi) l ->
  Sorted station_then_index l -> Sorted (row_before stationFt) (map snd l).
Proof.
  intros F S. induction S as [| a l S IH Hd]; cbn [map]; [constructor |].
  inversion F as [| ? ? Ea Fl]; subst.
  constructor; [apply IH; exact Fl |].
  destruct Hd as [| b l' Hab]; cbn [map]; constructor.
  inversion Fl as [| ? ? Eb _]; subst.
  unfold row_before. rewrite Ea, Eb. exact Hab.
Qed.

(** X11. The import sorts stably.  For finite stations, of any two rows in
    the sorted order the earlier one has the smaller station, or an equal
    station and the earlier position in the CSV: rows at the same station
    keep their input order. *)
Theorem station_order_is_stable :
  forall stationFt : list number,
    Forall (fun x => is_finite x = true) stationFt ->
    StronglySorted (row_before stationFt) (station_order stationFt).
Proof.
  intros stationFt F.
  apply Sorted_StronglySorted.
  { intros i j k. apply row_before_trans. }
  unfold station_order. apply Sorted_map_snd.
  - apply Forall_forall. intros vi Hin.
    apply (Permutation_in _ (sort_by_station_perm _)) in Hin.
    pose proof (combine_seq_lookup stationFt 0) as L.
    rewrite Forall_forall in L. destruct (L _ Hin) as [_ Hv].
    rewrite Nat.sub_0_r in Hv. exact Hv.
  - apply (sort_by_station_stable_from stationFt O []); try constructor.
    exact F.
Qed.

Lemma station_order_is_stable_witness :
  StronglySorted (row_before [20; 10; 20; 10]) (station_order [20; 10; 20; 10])
  /\ station_order [20; 10; 20; 10] = [1; 3; 0; 2]%nat.
Proof.
  split; [| vm_compute; reflexivity].
  apply (station_order_is_stable [20; 10; 20; 10]). repeat constructor.
Defined.

(** ** Imports that are already in station order *)

Lemma insert_by_last b l :
  Forall (fun a => gtb (comparator a b) 0 = false) l ->
  insert_by b l = l ++ [b].
Proof.
  induction 1 as [| a l Ha _ IH]; cbn [insert_by app]; [reflexivity |].
  rewrite Ha, IH. reflexivity.
Qed.

Lemma sort_sorted_from l :
  forall acc,
    keys_finite acc -> keys_finite l ->
    StronglySorted (fun a b => (a <=? b) = true) (map fst (acc ++ l)) ->
    fold_left (fun sorted b => insert_by b sorted) l acc = acc ++ l.
Proof.
  induction l as [| b l IH]; intros acc Fa Fl S; cbn [fold_left].
  - rewrite app_nil_r. reflexivity.
  - inversion Fl as [| ? ? Fb Fl']; subst.
    assert (Hlast : insert_by b acc = acc ++ [b]).
    { apply insert_by_last. apply Forall_forall. intros a Ha.
      unfold keys_finite in Fa. rewrite Forall_forall in Fa.
      rewrite (comparator_positive a b (Fa a Ha) Fb).
      rewrite ltb_negb_leb by (apply is_finite_not_nan; auto).
      apply negb_false_iff.
      clear IH Fl Fl'. induction acc as [| a0 acc IHa]; [destruct Ha |].
      cbn [app map] in S. inversion S as [| ? ? S' Hall]; subst.
      destruct Ha as [-> | Ha].
      - rewrite Forall_forall in Hall. apply Hall.
        rewrite map_app. apply in_or_app. right. left. reflexivity.
      - apply IHa; try assumption.
        unfold keys_finite in *. intros x Hx. apply Fa. right. exact Hx. }
    rewrite Hlast.
    replace (acc ++ b :: l) with ((acc ++ [b]) ++ l) in *
      by (rewrite <- app_assoc; reflexivity).
    apply IH; [| exact Fl' | exact S].
    unfold keys_finite. apply Forall_app. split; [exact Fa |].
    constructor; [exact Fb | constructor].
Qed.

Lemma combine_seq_fst {A} (l : list A) :
  forall start, map fst (combine l (seq start (List.length l))) = l.
Proof.
  induction l as [| x l IH]; intros start; cbn [List.length seq combine map];
    [reflexivity |].
  cbn [fst]. f_equal. apply IH.
Qed.

Lemma combine_seq_snd {A} (l : list A) :
  forall start,
    map snd (combine l (seq start (List.length l))) = seq start (List.length l).
Proof.
  induction l as [| x l IH]; intros start; cbn [List.length seq combine map];
    [reflexivity |].
  cbn [snd]. f_equal. apply IH.
Qed.

Definition order_kept (stationFt : list number) : Prop :=
  station_order stationFt = seq 0 (List.length stationFt) /\
  sorted_by (station_order stationFt) stationFt nan = stationFt.

(** X12. A CSV whose finite stations are already in ascending order is not
    reordered: the sorted index list is [0, 1, ..., n-1] and the station
    array comes back unchanged. *)
Theorem ascending_import_keeps_order :
  forall stationFt : list number,
    Forall (fun x => is_finite x = true) stationFt ->
    ascending stationFt ->
    order_kept stationFt.
Proof.
  intros stationFt F S.
  assert (E : station_order stationFt = seq 0 (List.length stationFt)).
  { unfold station_order, sort_by_station.
    pose proof (combine_seq_fst stationFt 0) as Mf.
    pose proof (combine_seq_snd stationFt 0) as Ms.
    rewrite (sort_sorted_from _ []); [exact Ms | constructor | |].
    - unfold keys_finite. apply Forall_forall. intros [v i] Hin.
      apply in_combine_l in Hin. rewrite Forall_forall in F. apply F. exact Hin.
    - cbn [app]. rewrite Mf. apply Sorted_StronglySorted; [| exact S].
      intros a b c. apply leb_trans. }
  split; [exact E |]. unfold sorted_by. rewrite E. apply map_nth_seq.
Qed.

Lemma ascending_import_keeps_order_witness : order_kept [0; 10; 10; 20].
Proof.
  apply ascending_import_keeps_order.
  - repeat constructor.
  - repeat constructor.
Defined.

(** ** Zone tables *)

Definition zone_finite (z : zone) : Prop :=
  is_finite (startFt z) = true /\ is_finite (endFt z) = true /\
  is_finite (tolIn z) = true.

Lemma readZone_finite parts z : readZone parts = Some z -> zone_finite z.
Proof.
  unfold readZone. destruct parts as [| p0 [| p1 [| p2 rest]]]; try discriminate.
  cbv zeta. rewrite !toNum_nan_finite. unfold isFinite.
  destruct (is_finite p0) eqn:F0; [| discriminate].
  destruct (is_finite p1) eqn:F1; [| discriminate].
  destruct (is_finite p2) eqn:F2; [| discriminate].
  cbn [andb]. intros E. injection E as <-. unfold zone_finite. cbn.
  rewrite !toNum_nan_id by assumption. auto.
Qed.

Lemma readZones_finite lines : Forall zone_finite (readZones lines).
Proof.
  induction lines as [| parts rest IH]; cbn [readZones]; [constructor |].
  destruct (readZone parts) as [z |] eqn:E; [| exact IH].
  constructor; [exact (readZone_finite _ _ E) | exact IH].
Qed.

Lemma last_map_Some_in {A} (l : list A) :
  l <> [] -> exists z, In z l /\ last (map Some l) None = Some z.
Proof.
  intros Hne. destruct (exists_last Hne) as (l' & z & ->).
  exists z. split; [apply in_or_app; right; left; reflexivity |].
  apply last_map_Some.
Qed.

Definition table_tolerance (zs : list zone) : Prop :=
  zs <> [] /\ Forall zone_finite zs /\
  forall ft, exists z,
      In z zs /\ tolAtStation (Some (ZonesWindow zs)) ft = tolIn z.

(** X13. A zone text that parses gives a table that is never empty and holds
    finite numbers only, and the chart built over it draws at every station
    (a NaN one included) the tolerance of one of the table's zones: the
    default [0] of the lookup is never reached. *)
Theorem parsed_zones_give_table_tolerance :
  forall (lines : list zoneLine) (zs : list zone),
    parseZones lines = Some zs -> table_tolerance zs.
Proof.
  intros lines zs H. unfold parseZones in H.
  pose proof (readZones_finite lines) as F.
  destruct (readZones lines) as [| z0 rest] eqn:E; [discriminate |].
  injection H as <-.
  assert (Hne : z0 :: rest <> []) by discriminate.
  split; [exact Hne | split; [exact F |]].
  intros ft. unfold tolAtStation.
  destruct (find (in_zone ft) (z0 :: rest)) as [z |] eqn:Ef.
  - exists z. split; [exact (proj1 (find_some _ _ Ef)) | reflexivity].
  - destruct (last_map_Some_in (z0 :: rest) Hne) as (z & Hin & Hl).
    exists z. rewrite Hl. split; [exact Hin | reflexivity].
Qed.

Lemma parsed_zones_give_table_tolerance_witness :
  table_tolerance
    [ {| startFt := 0; endFt := 50; tolIn := 0.5 |};
      {| startFt := 50; endFt := 100; tolIn := 0.75 |} ].
Proof.
  apply (parsed_zones_give_table_tolerance
           [ [0; 50; 0.5]; [nan; 1; 2]; [7; 8]; [50; 100; 0.75; 9] ]).
  vm_compute. reflexivity.
Defined.

Lemma in_zone_reversed z ft :
  (endFt z <? startFt z) = true -> in_zone ft z = false.
Proof.
  intros R. unfold in_zone, geb.
  destruct (startFt z <=? ft) eqn:L1; [| reflexivity].
  destruct (ft <=? endFt z) eqn:L2; [| reflexivity].
  pose proof (leb_trans _ _ _ L1 L2) as L.
  destruct (ltb_nn _ _ R) as [Ne Ns].
  rewrite (ltb_negb_leb _ _ Ne Ns), L in R. discriminate R.
Qed.

Lemma find_skip {A} (f : A -> bool) pre z post :
  f z = false -> find f (pre ++ z :: post) = find f (pre ++ post).
Proof.
  intros Hz. induction pre as [| a pre IH]; cbn [app find].
  - rewrite Hz. reflexivity.
  - destruct (f a); [reflexivity | exact IH].
Qed.

Definition zone_ignored (z : zone) : Prop :=
  (forall ft, in_zone ft z = false) /\
  (forall pre post lastz ft,
      tolAtStation (Some (ZonesWindow (pre ++ z :: post ++ [lastz]))) ft
      = tolAtStation (Some (ZonesWindow (pre ++ post ++ [lastz]))) ft) /\
  (forall pre post ft fallbackTol,
      tolAt ft (Some (pre ++ z :: post)) fallbackTol
      = tolAt ft (Some (pre ++ post)) fallbackTol).

(** X14. A zone entered with its end below its start contains no station.
    Unless it is the last line of the table (whose tolerance the chart uses
    for stations outside every zone), deleting it changes no tolerance. *)
Theorem reversed_zone_never_applies :
  forall z : zone, (endFt z <? startFt z) = true -> zone_ignored z.
Proof.
  intros z R.
  assert (Hz : forall ft, in_zone ft z = false)
    by (intros ft; apply in_zone_reversed; exact R).
  split; [exact Hz | split].
  - intros pre post lastz ft. unfold tolAtStation.
    rewrite (find_skip _ pre z (post ++ [lastz]) (Hz ft)).
    assert (L1 : last (map Some (pre ++ z :: post ++ [lastz])) None
                 = Some lastz).
    { replace (pre ++ z :: post ++ [lastz])
        with ((pre ++ z :: post) ++ [lastz])
        by (rewrite <- app_assoc; reflexivity).
      apply last_map_Some. }
    assert (L2 : last (map Some (pre ++ post ++ [lastz])) None = Some lastz).
    { rewrite app_assoc. apply last_map_Some. }
    rewrite L1, L2. reflexivity.
  - intros pre post ft fallbackTol. unfold tolAt.
    rewrite (find_skip _ pre z post (Hz ft)). reflexivity.
Qed.

Lemma reversed_zone_never_applies_witness :
  zone_ignored {| startFt := 50; endFt := 0; tolIn := 0.5 |}.
Proof.
  apply reversed_zone_never_applies. vm_compute. reflexivity.
Defined.

(** ** Escaped text *)

Definition quote_char : ascii := ascii_of_nat 34.

(** A character that would open or close markup or an attribute value. *)
Definition markup_free (c : ascii) : Prop :=
  c <> "<"%char /\ c <> ">"%char /\ c <> quote_char.

Lemma list_ascii_of_string_app a b :
  list_ascii_of_string (a ++ b)%string
  = list_ascii_of_string a ++ list_ascii_of_string b.
Proof.
  induction a as [| c a IH]; cbn; [reflexivity |]. rewrite IH. reflexivity.
Qed.

(** The five shapes of a replacement. *)
Lemma escChar_cases c :
  (c = "&"%char /\ escChar c = "&amp;"%string) \/
  (c = "<"%char /\ escChar c = "&lt;"%string) \/
  (c = ">"%char /\ escChar c = "&gt;"%string) \/
  (c = quote_char /\ escChar c = "&quot;"%string) \/
  (c <> "&"%char /\ markup_free c /\ escChar c = String c EmptyString).
Proof.
  unfold escChar, markup_free, quote_char.
  destruct (Ascii.eqb_spec c "&"); [left; split; [assumption | reflexivity] |].
  destruct (Ascii.eqb_spec c "<");
    [right; left; split; [assumption | reflexivity] |].
  destruct (Ascii.eqb_spec c ">");
    [right; right; left; split; [assumption | reflexivity] |].
  destruct (Ascii.eqb_spec c (ascii_of_nat 34));
    [right; right; right; left; split; [assumption | reflexivity] |].
  right; right; right; right. repeat split; assumption.
Qed.

Lemma literal_markup_free (l : list ascii) :
  forallb (fun c => negb (Ascii.eqb c "<" || Ascii.eqb c ">"
                          || Ascii.eqb c quote_char)) l = true ->
  Forall markup_free l.
Proof.
  intros H. apply Forall_forall. intros c Hc.
  rewrite forallb_forall in H. specialize (H c Hc).
  apply negb_true_iff in H. apply orb_false_iff in H. destruct H as [H H3].
  apply orb_false_iff in H. destruct H as [H1 H2].
  unfold markup_free.
  destruct (Ascii.eqb_spec c "<"); [discriminate |].
  destruct (Ascii.eqb_spec c ">"); [discriminate |].
  destruct (Ascii.eqb_spec c quote_char); [discriminate |].
  auto.
Qed.

Lemma escChar_markup_free c :
  Forall markup_free (list_ascii_of_string (escChar c)).
Proof.
  destruct (escChar_cases c)
    as [[_ ->] | [[_ ->] | [[_ ->] | [[_ ->] | (_ & M & ->)]]]];
    try (apply literal_markup_free; reflexivity).
  cbn [list_ascii_of_string]. constructor; [exact M | constructor].
Qed.

(** X15. Escaped text holds no [<], no [>] and no double quote, whatever the
    text was: inserted into markup it cannot open or close a tag or end a
    quoted attribute. *)
Theorem escHtml_output_has_no_markup :
  forall text : string,
    Forall markup_free (list_ascii_of_string (escHtml text)).
Proof.
  induction text as [| c rest IH]; cbn [escHtml]; [constructor |].
  rewrite list_ascii_of_string_app. apply Forall_app.
  split; [apply escChar_markup_free | exact IH].
Qed.

Lemma escChar_head c1 c2 r1 r2 :
  (escChar c1 ++ r1 = escChar c2 ++ r2)%string -> c1 = c2 /\ r1 = r2.
Proof.
  destruct (escChar_cases c1)
    as [[E1 ->] | [[E1 ->] | [[E1 ->] | [[E1 ->] | (N1 & _ & ->)]]]];
  destruct (escChar_cases c2)
    as [[E2 ->] | [[E2 ->] | [[E2 ->] | [[E2 ->] | (N2 & _ & ->)]]]];
  cbn [String.append]; intros H;
  try discriminate H;
  try (subst c1 c2; split; [reflexivity | congruence]);
  try (exfalso; injection H as H0 _; congruence).
  injection H as -> ->. split; reflexivity.
Qed.

(** X16. Escaping loses nothing: two texts with the same escaped form are
    the same text. *)
Theorem escHtml_injective :
  forall a b : string, escHtml a = escHtml b -> a = b.
Proof.
  induction a as [| c1 r1 IH]; intros [| c2 r2] H; cbn [escHtml] in H.
  - reflexivity.
  - exfalso.
    destruct (escChar_cases c2)
      as [[_ E] | [[_ E] | [[_ E] | [[_ E] | (_ & _ & E)]]]];
      rewrite E in H; discriminate H.
  - exfalso.
    destruct (escChar_cases c1)
      as [[_ E] | [[_ E] | [[_ E] | [[_ E] | (_ & _ & E)]]]];
      rewrite E in H; discriminate H.
  - destruct (escChar_head _ _ _ _ H) as [-> Hr].
    rewrite (IH _ Hr). reflexivity.
Qed.

Lemma escHtml_injective_witness : "a<b & c"%string = "a<b & c"%string.
Proof. apply (escHtml_injective "a<b & c" "a<b & c"). reflexivity. Defined.

(** ** Suggestions *)

Lemma suggestion_items_differ f fs :
  String.concat EmptyString (map suggestionItem (f :: fs)) <> all_passed_item.
Proof.
  cbn [map String.concat].
  destruct (map suggestionItem fs); unfold suggestionItem, all_passed_item;
    cbn [String.append]; discriminate.
Qed.

(** X17. The suggestion list shows the all-passed message exactly when no
    row of the results failed. *)
Theorem all_passed_message_iff_no_failure :
  forall rows : list resultRow,
    renderSuggestions rows = all_passed_item <-> forallb pass rows = true.
Proof.
  intros rows. unfold renderSuggestions.
  assert (E : filter (fun row => negb (pass row)) rows = []
              <-> forallb pass rows = true).
  { induction rows as [| r rows IH]; cbn [filter forallb]; [tauto |].
    destruct (pass r); cbn [negb andb]; [exact IH |].
    split; discriminate. }
  destruct (filter (fun row => negb (pass row)) rows) as [| f fs].
  - split; [intros _; apply E; reflexivity | reflexivity].
  - split.
    + intros H. exfalso. exact (suggestion_items_differ f fs H).
    + intros H. apply E in H. discriminate H.
Qed.

(** ** The two revisions of the correction-amount formatter *)

Lemma abs_zero x : (x =? 0) = true -> abs x = 0.
Proof.
  intros E. apply Prim2SF_inj. rewrite abs_spec, Prim2SF_zero.
  rewrite eqb_spec, Prim2SF_zero in E.
  destruct (Prim2SF x) as [sx | sx | | sx mx ex]; cbn in E |- *;
    try discriminate E; try reflexivity.
  all: destruct sx; discriminate E.
Qed.

Lemma abs_infinite x :
  is_finite x = false -> is_nan x = false -> abs x = infinity.
Proof.
  intros F N. apply Prim2SF_inj. rewrite abs_spec, Prim2SF_infinity.
  apply is_nan_false in N. unfold not_nan in N.
  destruct (Prim2SF x) as [sx | sx | | sx mx ex] eqn:E; cbn.
  - exfalso. assert (T : is_finite x = true)
      by (apply is_finite_spec; rewrite E; exact I).
    congruence.
  - reflexivity.
  - exfalso. apply N. reflexivity.
  - exfalso. assert (T : is_finite x = true)
      by (apply is_finite_spec; rewrite E; exact I).
    congruence.
Qed.

(** X18. The formatter of the runway-diagram revision, which reads its
    argument with [Number(valueIn) || 0], returns the same label as the first
    revision, which reads it with [toNum(valueIn, 0)], on every number:
    NaN and both infinities are labelled [0] inches by both. *)
Theorem formatter_revisions_agree :
  forall valueIn : number,
    nearestFractionStringInches_diagram valueIn
    = nearestFractionStringInches valueIn.
Proof.
  intros v. unfold nearestFractionStringInches_diagram,
    nearestFractionStringInches, or_else, truthy, toNum, isFinite.
  destruct (is_nan v) eqn:N.
  - rewrite orb_true_r. cbn [negb].
    unfold is_finite. rewrite N. reflexivity.
  - rewrite orb_false_r.
    destruct (v =? 0) eqn:Z; cbn [negb].
    + destruct (is_finite v); [| reflexivity].
      rewrite (abs_zero v Z). reflexivity.
    + destruct (is_finite v) eqn:F; [reflexivity |].
      rewrite (abs_infinite v F N). vm_compute. reflexivity.
Qed.
